(** * Segment catalog (datacoord/meta.go) and segment replica (datanode)

    A shallow embedding of the segment metadata core: the coordinator's
    catalog of segments, and the data node's replica of segments with its
    primary-key statistics.  Go maps are finite maps ([gmap]), slices are
    lists, 64-bit integers are [Z], nil-able pointers are [option]. *)

From stdpp Require Import gmap strings list fin_maps pretty.
From Stdlib Require Import ZArith Ascii.

Local Open Scope Z_scope.

(** ** Shared protobuf messages *)

(** Modelled from the spec: internalpb.MsgPosition, a stream position (the
    generated protobuf code is not under src/); the fields are those the
    code under src/ reads. *)
Record MsgPosition := mkMsgPosition {
  ChannelName : string;
  MsgID : list Z;
  Timestamp : Z
}.

(** The errors that the calls return: the two that mergeFlushedSegments
    builds with fmt.Errorf, and the error of a failed write to the store. *)
Inductive error :=
  | ErrMismatchCollection (collID : Z)
  | ErrInvalidCompactedFrom (inValidSegments : list Z)
  | ErrStore (msg : string).

(** What a call leaves behind: it returns (with a nil or non-nil error), or
    it panics on a nil dereference or an index out of range. *)
Inductive outcome :=
  | Returned (err : option error)
  | Panicked.

(** ** Data node: segments and their primary-key statistics *)

(** Modelled from the spec: storage.PrimaryKey with its two implementations
    (internal/storage is not under src/): 64-bit integer keys and string
    keys. *)
Inductive primaryKey :=
  | Int64PrimaryKey (Value : Z)
  | VarCharPrimaryKey (Value : string).

(** Modelled from the spec: storage.PrimaryKey.GT (internal/storage is not
    under src/).  Keys are compared under one total order per type, integers
    by value and strings bytewise; comparing keys of two types is a caller
    error and answers false. *)
Definition GT (a b : primaryKey) : bool :=
  match a, b with
  | Int64PrimaryKey x, Int64PrimaryKey y => bool_decide (y < x)
  | VarCharPrimaryKey x, VarCharPrimaryKey y =>
      match String.compare x y with Gt => true | _ => false end
  | _, _ => false
  end.

(** Modelled from the spec: storage.PrimaryKey.LT, as GT. *)
Definition LT (a b : primaryKey) : bool :=
  match a, b with
  | Int64PrimaryKey x, Int64PrimaryKey y => bool_decide (x < y)
  | VarCharPrimaryKey x, VarCharPrimaryKey y =>
      match String.compare x y with Lt => true | _ => false end
  | _, _ => false
  end.

(** Modelled from the spec: storage.FieldData (internal/storage is not under
    src/), as far as updatePKRange tells the kinds apart. *)
Inductive FieldData :=
  | Int64FieldData (Data : list Z)
  | StringFieldData (Data : list string)
  | OtherFieldData.

(** The membership filter is the third-party bloom filter; it is kept here
    as the items that were added to it, each a byte string.  The real
    filter answers true at least on these.  A segment has its filter from
    addSegment, before it enters a bucket. *)
Abbreviation BloomFilter := (list (list Z)) (only parsing).

Definition bloomAdd (data : list Z) (f : BloomFilter) : BloomFilter := f ++ [data].

Definition bloomTest (data : list Z) (f : BloomFilter) : bool :=
  bool_decide (data ∈ f).

(** common.Endian.PutUint64(buf, uint64(pk)): the eight bytes of the
    two's-complement value.  common.Endian is declared in internal/common,
    not under src/; the bytes are taken least significant first, and no
    statement depends on their order. *)
Definition putUint64 (pk : Z) : list Z :=
  let u := pk `mod` 2 ^ 64 in
  (λ i : Z, Z.land (Z.shiftr u (8 * i)) 255) <$> [0; 1; 2; 3; 4; 5; 6; 7].

(** []byte(s) *)
Fixpoint stringBytes (s : string) : list Z :=
  match s with
  | EmptyString => []
  | String c s' => Z.of_N (N_of_ascii c) :: stringBytes s'
  end.

Record segmentCheckPoint := mkSegmentCheckPoint {
  cpNumRows : Z;
  cpPos : option MsgPosition
}.

Record Segment := mkSegment {
  collectionID : Z;
  partitionID : Z;
  segmentID : Z;
  numRows : Z;
  memorySize : Z;
  isNew : bool;
  isFlushed : bool;
  channelName : string;
  compactedTo : Z;
  checkPoint : segmentCheckPoint;
  startPos : option MsgPosition;
  endPos : option MsgPosition;
  pkFilter : BloomFilter;
  minPK : option primaryKey;
  maxPK : option primaryKey
}.

Definition setPK (mn mx : option primaryKey) (s : Segment) : Segment :=
  mkSegment (collectionID s) (partitionID s) (segmentID s) (numRows s)
    (memorySize s) (isNew s) (isFlushed s) (channelName s) (compactedTo s)
    (checkPoint s) (startPos s) (endPos s) (pkFilter s) mn mx.

Definition setPkFilter (f : BloomFilter) (s : Segment) : Segment :=
  mkSegment (collectionID s) (partitionID s) (segmentID s) (numRows s)
    (memorySize s) (isNew s) (isFlushed s) (channelName s) (compactedTo s)
    (checkPoint s) (startPos s) (endPos s) f (minPK s) (maxPK s).

Definition setFlags (new flushed : bool) (s : Segment) : Segment :=
  mkSegment (collectionID s) (partitionID s) (segmentID s) (numRows s)
    (memorySize s) new flushed (channelName s) (compactedTo s)
    (checkPoint s) (startPos s) (endPos s) (pkFilter s) (minPK s) (maxPK s).

Definition setCompactedTo (to : Z) (s : Segment) : Segment :=
  mkSegment (collectionID s) (partitionID s) (segmentID s) (numRows s)
    (memorySize s) (isNew s) (isFlushed s) (channelName s) to
    (checkPoint s) (startPos s) (endPos s) (pkFilter s) (minPK s) (maxPK s).

(** Segment.updatePk; the error it returns is always nil. *)
Definition updatePk (pk : primaryKey) (s : Segment) : Segment * option error :=
  let mn := match minPK s with
            | None => Some pk
            | Some m => if GT m pk then Some pk else Some m
            end in
  let mx := match maxPK s with
            | None => Some pk
            | Some m => if LT m pk then Some pk else Some m
            end in
  (setPK mn mx s, None).

(** The two loops of Segment.updatePKRange: per key, updatePk (leaving on
    its error) and then the insertion into the filter. *)
Fixpoint updatePKRangeLoop {A} (mk : A → primaryKey) (enc : A → list Z)
    (pks : list A) (s : Segment) : Segment * option error :=
  match pks with
  | [] => (s, None)
  | pk :: rest =>
      match updatePk (mk pk) s with
      | (s', Some err) => (s', Some err)
      | (s', None) =>
          updatePKRangeLoop mk enc rest
            (setPkFilter (bloomAdd (enc pk) (pkFilter s')) s')
      end
  end.

(** Segment.updatePKRange *)
Definition updatePKRange (ids : FieldData) (s : Segment) : Segment * option error :=
  match ids with
  | Int64FieldData pks => updatePKRangeLoop Int64PrimaryKey putUint64 pks s
  | StringFieldData pks => updatePKRangeLoop VarCharPrimaryKey stringBytes pks s
  | OtherFieldData => (s, None)
  end.

(** A sequence of updatePKRange calls on one segment; a call that reported
    an error would end the sequence. *)
Fixpoint updatePKRanges (batches : list FieldData) (s : Segment) : Segment * option error :=
  match batches with
  | [] => (s, None)
  | ids :: rest =>
      match updatePKRange ids s with
      | (s', Some err) => (s', Some err)
      | (s', None) => updatePKRanges rest s'
      end
  end.

(** The keys a batch carries, and those of a sequence of batches. *)
Definition batchKeys (ids : FieldData) : list primaryKey :=
  match ids with
  | Int64FieldData pks => Int64PrimaryKey <$> pks
  | StringFieldData pks => VarCharPrimaryKey <$> pks
  | OtherFieldData => []
  end.

Definition batchItems (ids : FieldData) : list (list Z) :=
  match ids with
  | Int64FieldData pks => putUint64 <$> pks
  | StringFieldData pks => stringBytes <$> pks
  | OtherFieldData => []
  end.

(** The order of the keys of one type. *)
Definition pkLe (a b : primaryKey) : Prop :=
  match a, b with
  | Int64PrimaryKey x, Int64PrimaryKey y => x ≤ y
  | VarCharPrimaryKey x, VarCharPrimaryKey y => String.compare x y ≠ Gt
  | _, _ => False
  end.

Definition sameKind (a b : primaryKey) : Prop :=
  match a, b with
  | Int64PrimaryKey _, Int64PrimaryKey _ => True
  | VarCharPrimaryKey _, VarCharPrimaryKey _ => True
  | _, _ => False
  end.

(** Modelled from the spec: datapb.SegmentStartPosition (generated code,
    not under src/). *)
Record SegmentStartPosition := mkSegmentStartPosition {
  sp_SegmentID : Z;
  sp_StartPosition : option MsgPosition
}.

(** SegmentReplica: the four buckets, by segment id. *)
Record SegmentReplica := mkSegmentReplica {
  replicaCollectionID : Z;
  newSegments : gmap Z Segment;
  normalSegments : gmap Z Segment;
  flushedSegments : gmap Z Segment;
  compactedSegments : gmap Z Segment
}.

(** SegmentReplica.new2NormalSegment; it dereferences the entry of the new
    bucket, which panics when there is none. *)
Definition new2NormalSegment (segID : Z) (r : SegmentReplica) : option SegmentReplica :=
  match newSegments r !! segID with
  | None => None
  | Some seg =>
      Some (mkSegmentReplica (replicaCollectionID r)
              (delete segID (newSegments r))
              (<[segID := setFlags false (isFlushed seg) seg]> (normalSegments r))
              (flushedSegments r) (compactedSegments r))
  end.

(** The loop of listNewSegmentsStartPositions over the entries of the new
    bucket.  Go visits the entries of a map in an unspecified order, each
    once; the entries come here in the order of [map_to_list]. *)
Fixpoint listNewLoop (entries : list (Z * Segment)) (result : list SegmentStartPosition)
    (r : SegmentReplica) : option (list SegmentStartPosition * SegmentReplica) :=
  match entries with
  | [] => Some (result, r)
  | (id, seg) :: rest =>
      match new2NormalSegment id r with
      | None => None
      | Some r' =>
          listNewLoop rest (result ++ [mkSegmentStartPosition id (startPos seg)]) r'
      end
  end.

(** SegmentReplica.listNewSegmentsStartPositions; [None] is a panic. *)
Definition listNewSegmentsStartPositions (r : SegmentReplica)
    : option (list SegmentStartPosition * SegmentReplica) :=
  listNewLoop (map_to_list (newSegments r)) [] r.

(** SegmentReplica.hasSegment *)
Definition hasSegment (segID : Z) (countFlushed : bool) (r : SegmentReplica) : bool :=
  let inNew := bool_decide (is_Some (newSegments r !! segID)) in
  let inNormal := bool_decide (is_Some (normalSegments r !! segID)) in
  let inFlush := if countFlushed
                 then bool_decide (is_Some (flushedSegments r !! segID))
                 else false in
  inNew || inNormal || inFlush.

(** The first loop of mergeFlushedSegments: the ids that are in no bucket,
    or in the new or the normal one. *)
Definition inValidSegments (compactedFrom : list Z) (r : SegmentReplica) : list Z :=
  filter (λ ID, negb (hasSegment ID true r) || hasSegment ID false r = true) compactedFrom.

(** Its second loop; the entry of the flushed bucket is dereferenced, which
    panics when it is missing.  The state reached so far is returned with
    the flag. *)
Fixpoint moveCompacted (to : Z) (compactedFrom : list Z) (r : SegmentReplica)
    : bool * SegmentReplica :=
  match compactedFrom with
  | [] => (true, r)
  | ID :: rest =>
      match flushedSegments r !! ID with
      | None => (false, r)
      | Some s =>
          moveCompacted to rest
            (mkSegmentReplica (replicaCollectionID r) (newSegments r)
               (normalSegments r)
               (delete ID (flushedSegments r))
               (<[ID := setCompactedTo to s]> (compactedSegments r)))
      end
  end.

(** SegmentReplica.mergeFlushedSegments *)
Definition mergeFlushedSegments (seg : Segment) (planID : Z) (compactedFrom : list Z)
    (r : SegmentReplica) : outcome * SegmentReplica :=
  if bool_decide (collectionID seg ≠ replicaCollectionID r)
  then (Returned (Some (ErrMismatchCollection (collectionID seg))), r)
  else
    let inValid := inValidSegments compactedFrom r in
    if bool_decide (0 < length inValid)%nat
    then (Returned (Some (ErrInvalidCompactedFrom inValid)), r)
    else
      match moveCompacted (segmentID seg) compactedFrom r with
      | (false, r') => (Panicked, r')
      | (true, r') =>
          if bool_decide (0 < numRows seg)
          then (Returned None,
                mkSegmentReplica (replicaCollectionID r') (newSegments r')
                  (normalSegments r')
                  (<[segmentID seg := setFlags false true seg]> (flushedSegments r'))
                  (compactedSegments r'))
          else (Returned None, r')
      end.

(** What the check of mergeFlushedSegments accepts as a flushed segment of
    the replica: known when the flushed bucket counts, unknown when it does
    not. *)
Definition isFlushedSegment (ID : Z) (r : SegmentReplica) : bool :=
  hasSegment ID true r && negb (hasSegment ID false r).

(** ** Coordinator: the segment catalog (datacoord/meta.go) *)

(** Modelled from the spec: commonpb.SegmentState (generated code, not
    under src/), the states of a segment. *)
Inductive SegmentState :=
  | SegmentStateNone
  | NotExist
  | Growing
  | Sealed
  | Flushed
  | Flushing
  | Dropped.

Global Instance SegmentState_eq_dec : EqDecision SegmentState.
Proof. solve_decision. Defined.

(** Modelled from the spec: datapb.Binlog (generated code, not under src/),
    a log file by its path. *)
Record Binlog := mkBinlog {
  LogPath : string;
  LogSize : Z
}.

(** Modelled from the spec: datapb.FieldBinlog, the log files of a field. *)
Record FieldBinlog := mkFieldBinlog {
  FieldID : Z;
  Binlogs : list Binlog
}.

(** Modelled from the spec: datapb.SegmentInfo (generated code, not under
    src/), with the fields that meta.go reads and writes. *)
Record datapbSegmentInfo := mkDatapbSegmentInfo {
  ID : Z;
  CollectionID : Z;
  PartitionID : Z;
  InsertChannel : string;
  NumOfRows : Z;
  State : SegmentState;
  MaxRowNum : Z;
  SegBinlogs : list FieldBinlog;
  Statslogs : list FieldBinlog;
  Deltalogs : list FieldBinlog;
  StartPosition : option MsgPosition;
  DmlPosition : option MsgPosition;
  CreatedByCompaction : bool;
  CompactionFrom : list Z;
  DroppedAt : Z;
  IsImporting : bool
}.

(** Modelled from the spec: datacoord.SegmentInfo (segment_info.go is not
    under src/): the message with the fields kept in memory only (of these,
    currRows and isCompacting). *)
Record SegmentInfo := mkSegmentInfo {
  segmentInfo : datapbSegmentInfo;
  currRows : Z;
  isCompacting : bool
}.

(** Modelled from the spec: datapb.CheckPoint (generated code, not under
    src/). *)
Record CheckPoint := mkCheckPoint {
  cp_SegmentID : Z;
  cp_Position : option MsgPosition;
  cp_NumOfRows : Z
}.

(** Modelled from the spec: datapb.CompactionSegmentBinlogs (generated
    code, not under src/), a source of a compaction plan with the deltalogs
    that the compaction has read. *)
Record CompactionSegmentBinlogs := mkCompactionSegmentBinlogs {
  cl_SegmentID : Z;
  cl_Deltalogs : list FieldBinlog
}.

(** Modelled from the spec: datapb.CompactionResult (generated code, not
    under src/). *)
Record CompactionResult := mkCompactionResult {
  res_SegmentID : Z;
  res_NumOfRows : Z;
  res_InsertLogs : list FieldBinlog;
  res_Field2StatslogPaths : list FieldBinlog;
  res_Deltalogs : list FieldBinlog
}.

(** Field updates of the message, the other fields being copied. *)
Definition withState (st : SegmentState) (i : datapbSegmentInfo) : datapbSegmentInfo :=
  mkDatapbSegmentInfo (ID i) (CollectionID i) (PartitionID i) (InsertChannel i)
    (NumOfRows i) st (MaxRowNum i) (SegBinlogs i) (Statslogs i) (Deltalogs i)
    (StartPosition i) (DmlPosition i) (CreatedByCompaction i) (CompactionFrom i)
    (DroppedAt i) (IsImporting i).

Definition withDroppedAt (t : Z) (i : datapbSegmentInfo) : datapbSegmentInfo :=
  mkDatapbSegmentInfo (ID i) (CollectionID i) (PartitionID i) (InsertChannel i)
    (NumOfRows i) (State i) (MaxRowNum i) (SegBinlogs i) (Statslogs i) (Deltalogs i)
    (StartPosition i) (DmlPosition i) (CreatedByCompaction i) (CompactionFrom i)
    t (IsImporting i).

Definition withNumOfRows (n : Z) (i : datapbSegmentInfo) : datapbSegmentInfo :=
  mkDatapbSegmentInfo (ID i) (CollectionID i) (PartitionID i) (InsertChannel i)
    n (State i) (MaxRowNum i) (SegBinlogs i) (Statslogs i) (Deltalogs i)
    (StartPosition i) (DmlPosition i) (CreatedByCompaction i) (CompactionFrom i)
    (DroppedAt i) (IsImporting i).

Definition withLogs (binlogs statslogs deltalogs : list FieldBinlog)
    (i : datapbSegmentInfo) : datapbSegmentInfo :=
  mkDatapbSegmentInfo (ID i) (CollectionID i) (PartitionID i) (InsertChannel i)
    (NumOfRows i) (State i) (MaxRowNum i) binlogs statslogs deltalogs
    (StartPosition i) (DmlPosition i) (CreatedByCompaction i) (CompactionFrom i)
    (DroppedAt i) (IsImporting i).

Definition withStartPosition (p : option MsgPosition) (i : datapbSegmentInfo)
    : datapbSegmentInfo :=
  mkDatapbSegmentInfo (ID i) (CollectionID i) (PartitionID i) (InsertChannel i)
    (NumOfRows i) (State i) (MaxRowNum i) (SegBinlogs i) (Statslogs i) (Deltalogs i)
    p (DmlPosition i) (CreatedByCompaction i) (CompactionFrom i)
    (DroppedAt i) (IsImporting i).

Definition withDmlPosition (p : option MsgPosition) (i : datapbSegmentInfo)
    : datapbSegmentInfo :=
  mkDatapbSegmentInfo (ID i) (CollectionID i) (PartitionID i) (InsertChannel i)
    (NumOfRows i) (State i) (MaxRowNum i) (SegBinlogs i) (Statslogs i) (Deltalogs i)
    (StartPosition i) p (CreatedByCompaction i) (CompactionFrom i)
    (DroppedAt i) (IsImporting i).

(** The same updates through the in-memory record. *)
Definition onInfo (f : datapbSegmentInfo → datapbSegmentInfo) (s : SegmentInfo)
    : SegmentInfo :=
  mkSegmentInfo (f (segmentInfo s)) (currRows s) (isCompacting s).

Definition withCurrRows (n : Z) (s : SegmentInfo) : SegmentInfo :=
  mkSegmentInfo (segmentInfo s) n (isCompacting s).

(** isSegmentHealthy; the argument is a pointer, nil being [None]. *)
Definition isSegmentHealthy (segment : option SegmentInfo) : bool :=
  match segment with
  | None => false
  | Some s =>
      bool_decide (State (segmentInfo s) ≠ SegmentStateNone) &&
      bool_decide (State (segmentInfo s) ≠ NotExist) &&
      bool_decide (State (segmentInfo s) ≠ Dropped)
  end.

(** *** The backing store *)

(** Modelled from the spec: the failures of the backing store behind
    metastore.DataCoordCatalog (internal/metastore is not under src/).  The
    store is a transactional key-value store; whether a call to it fails is
    not decided by the catalog code.  A fault is the error of a call that
    fails, with the number of segments written before it by a call that
    writes in several batches. *)
Record fault := mkFault {
  faultMsg : string;
  faultDone : nat
}.

(** Modelled from the spec: a physical write to the backing store, of
    segments or of the removal marker of a channel. *)
Inductive write :=
  | WriteSegments (segs : list datapbSegmentInfo)
  | WriteChannelDeleted (channel : string).

(** Modelled from the spec: the backing store.  It keeps the segments by id
    and the channels marked as removed; [writes] is the journal of the
    physical writes done; [faults] is the schedule of its coming calls,
    [None] for a call that succeeds and [Some] fault for one that fails. *)
Record Catalog := mkCatalog {
  persisted : gmap Z datapbSegmentInfo;
  deletedChannels : gset string;
  writes : list write;
  faults : list (option fault)
}.

(** The fate of the coming call and the schedule left; a call past the end
    of the schedule succeeds. *)
Definition nextFault (c : Catalog) : option fault * list (option fault) :=
  match faults c with
  | [] => (None, [])
  | f :: rest => (f, rest)
  end.

(** The store after segments are saved, each under its id. *)
Definition saveAll (segs : list datapbSegmentInfo) (store : gmap Z datapbSegmentInfo)
    : gmap Z datapbSegmentInfo :=
  foldl (λ st s, <[ID s := s]> st) store segs.

(** Modelled from the spec: DataCoordCatalog.AlterSegments, one atomic
    write of several segments: it happens or fails as a whole. *)
Definition catalogAlterSegments (segs : list datapbSegmentInfo) (c : Catalog)
    : option error * Catalog :=
  match nextFault c with
  | (Some f, rest) =>
      (Some (ErrStore (faultMsg f)),
       mkCatalog (persisted c) (deletedChannels c) (writes c) rest)
  | (None, rest) =>
      (None,
       mkCatalog (saveAll segs (persisted c)) (deletedChannels c)
         (writes c ++ [WriteSegments segs]) rest)
  end.

(** Modelled from the spec: DataCoordCatalog.AddSegment, the atomic write
    of one segment. *)
Definition catalogAddSegment (seg : datapbSegmentInfo) (c : Catalog)
    : option error * Catalog :=
  catalogAlterSegments [seg] c.

(** Modelled from the spec: DataCoordCatalog.SaveDroppedSegmentsInBatch.
    The store may need several physical writes for it; when it fails, the
    first [faultDone] segments have been written. *)
Definition catalogSaveDroppedSegmentsInBatch (segs : list datapbSegmentInfo)
    (c : Catalog) : option error * Catalog :=
  match nextFault c with
  | (Some f, rest) =>
      (Some (ErrStore (faultMsg f)),
       mkCatalog (saveAll (take (faultDone f) segs) (persisted c))
         (deletedChannels c)
         (writes c ++ [WriteSegments (take (faultDone f) segs)]) rest)
  | (None, rest) =>
      (None,
       mkCatalog (saveAll segs (persisted c)) (deletedChannels c)
         (writes c ++ [WriteSegments segs]) rest)
  end.

(** Modelled from the spec: DataCoordCatalog.MarkChannelDeleted, the write
    of the removal marker of a channel. *)
Definition catalogMarkChannelDeleted (channel : string) (c : Catalog)
    : option error * Catalog :=
  match nextFault c with
  | (Some f, rest) =>
      (Some (ErrStore (faultMsg f)),
       mkCatalog (persisted c) (deletedChannels c) (writes c) rest)
  | (None, rest) =>
      (None,
       mkCatalog (persisted c) ({[channel]} ∪ deletedChannels c)
         (writes c ++ [WriteChannelDeleted channel]) rest)
  end.

(** *** The in-memory index *)

(** meta: the store and the index of the segments by id. *)
Record meta := mkMeta {
  catalog : Catalog;
  segments : gmap Z SegmentInfo
}.

(** Modelled from the spec: SegmentInfo.Clone (segment_info.go is not under
    src/).  The catalog clones before it changes (copy, then swap): a clone
    is a deep copy, and a change of it leaves the indexed record as it is. *)
Definition Clone (s : SegmentInfo) : SegmentInfo := s.

(** Modelled from the spec: NewSegmentInfo (segment_info.go), the in-memory
    record of a message, with nothing counted or compacting yet. *)
Definition NewSegmentInfo (info : datapbSegmentInfo) : SegmentInfo :=
  mkSegmentInfo info 0 false.

(** Modelled from the spec: SegmentsInfo.GetSegment (segment_info.go), the
    indexed record of an id, nil when there is none. *)
Definition GetSegment (segmentID : Z) (segs : gmap Z SegmentInfo) : option SegmentInfo :=
  segs !! segmentID.

(** Modelled from the spec: SegmentsInfo.SetSegment (segment_info.go), which
    swaps the indexed record of an id. *)
Definition SetSegment (segmentID : Z) (segment : SegmentInfo)
    (segs : gmap Z SegmentInfo) : gmap Z SegmentInfo :=
  <[segmentID := segment]> segs.

(** Modelled from the spec: SegmentsInfo.SetState (segment_info.go): the
    indexed record of the id, if there is one, is replaced by a copy with
    the state. *)
Definition SegmentsInfo_SetState (segmentID : Z) (st : SegmentState)
    (segs : gmap Z SegmentInfo) : gmap Z SegmentInfo :=
  alter (onInfo (withState st)) segmentID segs.

(** Modelled from the spec: SegmentsInfo.SetRowCount (segment_info.go): the
    indexed record of the id, if there is one, is replaced by a copy with
    the row count (numRows; the rows current in memory have their own
    setter, SetCurrentRows). *)
Definition SegmentsInfo_SetRowCount (segmentID : Z) (rowCount : Z)
    (segs : gmap Z SegmentInfo) : gmap Z SegmentInfo :=
  alter (onInfo (withNumOfRows rowCount)) segmentID segs.

(** *** The mutations *)

(** meta.AddSegment *)
Definition AddSegment (segment : SegmentInfo) (m : meta) : outcome * meta :=
  match catalogAddSegment (segmentInfo segment) (catalog m) with
  | (Some err, c) => (Returned (Some err), mkMeta c (segments m))
  | (None, c) =>
      (Returned None,
       mkMeta c (SetSegment (ID (segmentInfo segment)) segment (segments m)))
  end.

(** meta.SetState *)
Definition SetState (segmentID : Z) (targetState : SegmentState) (m : meta)
    : outcome * meta :=
  match GetSegment segmentID (segments m) with
  | None => (Returned None, m)
  | Some curSegInfo =>
      let clonedSegment := onInfo (withState targetState) (Clone curSegInfo) in
      if isSegmentHealthy (Some clonedSegment)
      then
        match catalogAlterSegments [segmentInfo clonedSegment] (catalog m) with
        | (Some err, c) => (Returned (Some err), mkMeta c (segments m))
        | (None, c) =>
            (Returned None,
             mkMeta c (SegmentsInfo_SetState segmentID targetState (segments m)))
        end
      else
        (Returned None,
         mkMeta (catalog m) (SegmentsInfo_SetState segmentID targetState (segments m)))
  end.

(** getFieldBinlogs, the closure of UpdateFlushSegmentsInfo and of
    mergeDropSegment: the first entry of the field id.  Go returns a pointer
    into the list; here it is the position with the entry. *)
Definition getFieldBinlogs (id : Z) (binlogs : list FieldBinlog)
    : option (nat * FieldBinlog) :=
  list_find (λ binlog, id = FieldID binlog) binlogs.

(** One turn of the merging loops: the incoming entry is appended when its
    field is new, and its logs are appended to those of the first entry of
    the field otherwise.  The incoming entries are distinct objects, as
    decoded from a request. *)
Definition mergeFieldBinlog (currBinlogs : list FieldBinlog) (tBinlogs : FieldBinlog)
    : list FieldBinlog :=
  match getFieldBinlogs (FieldID tBinlogs) currBinlogs with
  | None => currBinlogs ++ [tBinlogs]
  | Some (i, fieldBinlogs) =>
      <[i := mkFieldBinlog (FieldID fieldBinlogs)
               (Binlogs fieldBinlogs ++ Binlogs tBinlogs)]> currBinlogs
  end.

Definition mergeFieldBinlogs (currBinlogs incoming : list FieldBinlog)
    : list FieldBinlog :=
  foldl mergeFieldBinlog currBinlogs incoming.

(** getClonedSegment, the closure of UpdateFlushSegmentsInfo. *)
Definition getClonedSegment (segs : gmap Z SegmentInfo)
    (modSegments : gmap Z SegmentInfo) (segmentID : Z) : option SegmentInfo :=
  match modSegments !! segmentID with
  | Some s => Some s
  | None =>
      match GetSegment segmentID segs with
      | Some s => if isSegmentHealthy (Some s) then Some (Clone s) else None
      | None => None
      end
  end.

(** One turn of the loop over the start positions. *)
Definition applyStartPosition (segs : gmap Z SegmentInfo)
    (modSegments : gmap Z SegmentInfo) (pos : SegmentStartPosition)
    : gmap Z SegmentInfo :=
  match sp_StartPosition pos with
  | None => modSegments
  | Some p =>
      if bool_decide (length (MsgID p) = 0%nat) then modSegments
      else
        match getClonedSegment segs modSegments (sp_SegmentID pos) with
        | None => modSegments
        | Some s =>
            <[sp_SegmentID pos := onInfo (withStartPosition (Some p)) s]> modSegments
        end
  end.

(** One turn of the loop over the checkpoints; [None] is the panic of
    cp.Position.Timestamp on a checkpoint without position. *)
Definition applyCheckPoint (segs : gmap Z SegmentInfo)
    (modSegments : gmap Z SegmentInfo) (cp : CheckPoint)
    : option (gmap Z SegmentInfo) :=
  match getClonedSegment segs modSegments (cp_SegmentID cp) with
  | None => Some modSegments
  | Some s =>
      let applied :=
        <[cp_SegmentID cp :=
            onInfo (λ i, withNumOfRows (cp_NumOfRows cp)
                            (withDmlPosition (cp_Position cp) i)) s]> modSegments in
      match DmlPosition (segmentInfo s) with
      | None => Some applied
      | Some d =>
          match cp_Position cp with
          | None => None
          | Some p =>
              if bool_decide (Timestamp p ≤ Timestamp d)
              then Some modSegments
              else Some applied
          end
      end
  end.

Fixpoint applyCheckPoints (segs : gmap Z SegmentInfo)
    (modSegments : gmap Z SegmentInfo) (checkpoints : list CheckPoint)
    : option (gmap Z SegmentInfo) :=
  match checkpoints with
  | [] => Some modSegments
  | cp :: rest =>
      match applyCheckPoint segs modSegments cp with
      | None => None
      | Some modSegments' => applyCheckPoints segs modSegments' rest
      end
  end.

(** The segment of the call as UpdateFlushSegmentsInfo changes it before
    the loops: state, drop time and logs. *)
Definition flushedClone (flushed dropped : bool)
    (binlogs statslogs deltalogs : list FieldBinlog) (now : Z)
    (segment : SegmentInfo) : SegmentInfo :=
  let c0 := Clone segment in
  let c1 := if flushed then onInfo (withState Flushing) c0 else c0 in
  let c2 := if dropped
            then onInfo (withDroppedAt now) (onInfo (withState Dropped) c1)
            else c1 in
  onInfo (λ i, withLogs
                 (mergeFieldBinlogs (SegBinlogs i) binlogs)
                 (if bool_decide (0 < length statslogs)%nat then statslogs
                  else Statslogs i)
                 (mergeFieldBinlogs (Deltalogs i) deltalogs) i) c2.

(** What the range loops over a map deliver: its entries, in the order of
    [map_to_list]. *)
Definition infosOf (modSegments : gmap Z SegmentInfo) : list datapbSegmentInfo :=
  (λ e, segmentInfo e.2) <$> map_to_list modSegments.

(** meta.UpdateFlushSegmentsInfo; [now] is the clock read by time.Now. *)
Definition UpdateFlushSegmentsInfo (segmentID : Z) (flushed dropped importing : bool)
    (binlogs statslogs deltalogs : list FieldBinlog)
    (checkpoints : list CheckPoint) (startPositions : list SegmentStartPosition)
    (now : Z) (m : meta) : outcome * meta :=
  match GetSegment segmentID (segments m) with
  | None => if importing then (Panicked, m) else (Returned None, m)
  | Some segment0 =>
      let segs := if importing
                  then SegmentsInfo_SetRowCount segmentID (currRows segment0) (segments m)
                  else segments m in
      let m0 := mkMeta (catalog m) segs in
      match GetSegment segmentID segs with
      | None => (Returned None, m0)
      | Some segment =>
          if negb (isSegmentHealthy (Some segment)) then (Returned None, m0)
          else
            let clonedSegment :=
              flushedClone flushed dropped binlogs statslogs deltalogs now segment in
            let modSegments : gmap Z SegmentInfo := {[segmentID := clonedSegment]} in
            let modSegments := foldl (applyStartPosition segs) modSegments startPositions in
            match applyCheckPoints segs modSegments checkpoints with
            | None => (Panicked, m0)
            | Some modSegments =>
                match catalogAlterSegments (infosOf modSegments) (catalog m) with
                | (Some err, c) => (Returned (Some err), mkMeta c segs)
                | (None, c) => (Returned None, mkMeta c (modSegments ∪ segs))
                end
            end
      end
  end.

(** meta.mergeDropSegment *)
Definition mergeDropSegment (seg2Drop : SegmentInfo) (m : meta) : option SegmentInfo :=
  match GetSegment (ID (segmentInfo seg2Drop)) (segments m) with
  | None => None
  | Some segment =>
      if negb (isSegmentHealthy (Some segment)) then None
      else
        let d := segmentInfo seg2Drop in
        let merged (i : datapbSegmentInfo) :=
          let i1 := withState Dropped i in
          let i2 := withLogs (mergeFieldBinlogs (SegBinlogs i1) (SegBinlogs d))
                             (mergeFieldBinlogs (Statslogs i1) (Statslogs d))
                             (Deltalogs i1 ++ Deltalogs d) i1 in
          let i3 := match StartPosition d with
                    | Some p => withStartPosition (Some p) i2
                    | None => i2
                    end in
          match DmlPosition d with
          | Some p => withDmlPosition (Some p) i3
          | None => i3
          end in
        Some (withCurrRows (currRows seg2Drop) (onInfo merged (Clone segment)))
  end.

(** The two loops of UpdateDropChannelSegmentInfo that collect the changed
    segments: those handed over, merged; then every other indexed segment of
    the channel, dropped. *)
Definition mergeDropped (m : meta) (modSegments : gmap Z SegmentInfo)
    (seg2Drop : SegmentInfo) : gmap Z SegmentInfo :=
  match mergeDropSegment seg2Drop m with
  | Some segment => <[ID (segmentInfo seg2Drop) := segment]> modSegments
  | None => modSegments
  end.

Definition dropOfChannel (channel : string) (modSegments : gmap Z SegmentInfo)
    (entry : Z * SegmentInfo) : gmap Z SegmentInfo :=
  let seg := entry.2 in
  if bool_decide (InsertChannel (segmentInfo seg) ≠ channel) then modSegments
  else
    match modSegments !! ID (segmentInfo seg) with
    | Some _ => modSegments
    | None =>
        <[ID (segmentInfo seg) := onInfo (withState Dropped) (Clone seg)]> modSegments
    end.

Definition dropChannelSegments (channel : string) (segs2Drop : list SegmentInfo)
    (m : meta) : gmap Z SegmentInfo :=
  foldl (dropOfChannel channel)
    (foldl (mergeDropped m) ∅ segs2Drop)
    (map_to_list (segments m)).

(** meta.batchSaveDropSegments *)
Definition batchSaveDropSegments (channel : string) (modSegments : gmap Z SegmentInfo)
    (m : meta) : option error * meta :=
  match catalogSaveDroppedSegmentsInBatch (infosOf modSegments) (catalog m) with
  | (Some err, c) => (Some err, mkMeta c (segments m))
  | (None, c) =>
      match catalogMarkChannelDeleted channel c with
      | (Some err, c') => (Some err, mkMeta c' (segments m))
      | (None, c') => (None, mkMeta c' (modSegments ∪ segments m))
      end
  end.

(** meta.UpdateDropChannelSegmentInfo *)
Definition UpdateDropChannelSegmentInfo (channel : string) (segs2Drop : list SegmentInfo)
    (m : meta) : outcome * meta :=
  let modSegments := dropChannelSegments channel segs2Drop m in
  match batchSaveDropSegments channel modSegments m with
  | (err, m') => (Returned err, m')
  end.

(** *** Compaction *)

(** meta.updateDeltalogs (its third argument is not used): per entry of
    origin, the logs by path, without those that an entry of removes of the
    same field names; entries left without logs are dropped. *)
Definition removeLogs (fid : Z) (logs : gmap string Binlog) (remove : FieldBinlog)
    : gmap string Binlog :=
  if bool_decide (FieldID remove = fid)
  then foldl (λ l r, delete (LogPath r) l) logs (Binlogs remove)
  else logs.

Definition remainingLogs (removes : list FieldBinlog) (fbl : FieldBinlog)
    : gmap string Binlog :=
  foldl (removeLogs (FieldID fbl))
    (foldl (λ l d, <[LogPath d := d]> l) ∅ (Binlogs fbl))
    removes.

Definition updateDeltalogs (origin removes : list FieldBinlog) : list FieldBinlog :=
  flat_map (λ fbl,
    let binlogs := (map_to_list (remainingLogs removes fbl)).*2 in
    if bool_decide (0 < length binlogs)%nat
    then [mkFieldBinlog (FieldID fbl) binlogs]
    else []) origin.

(** The choice of the position in GetCompleteCompactionMeta: the running
    one is replaced when it is nil, or when the segment has one with a
    smaller timestamp. *)
Definition earlierPosition (cur : option MsgPosition) (p : option MsgPosition)
    : option MsgPosition :=
  match cur with
  | None => p
  | Some c =>
      match p with
      | Some q => if bool_decide (Timestamp q < Timestamp c) then Some q else cur
      | None => cur
      end
  end.

(** The sources that are indexed, in the order of the plan. *)
Definition foundSources (compactionLogs : list CompactionSegmentBinlogs)
    (segs : gmap Z SegmentInfo) : list SegmentInfo :=
  omap (λ cl, GetSegment (cl_SegmentID cl) segs) compactionLogs.

(** meta.GetCompleteCompactionMeta; it returns the index as it found it.
    [None] is the panic of modSegments[0] when no source is indexed. *)
Definition GetCompleteCompactionMeta (compactionLogs : list CompactionSegmentBinlogs)
    (result : CompactionResult) (now : Z) (m : meta)
    : meta * option (list datapbSegmentInfo * list SegmentInfo * SegmentInfo) :=
  let found := foundSources compactionLogs (segments m) in
  let oldSegments := (λ s, segmentInfo (Clone s)) <$> found in
  let modSegments :=
    (λ s, onInfo (withDroppedAt now) (onInfo (withState Dropped) (Clone s))) <$> found in
  let dmlPosition :=
    foldl (λ cur s, earlierPosition cur (DmlPosition (segmentInfo s))) None modSegments in
  let startPosition :=
    foldl (λ cur s, earlierPosition cur (StartPosition (segmentInfo s))) None modSegments in
  let originDeltalogs := flat_map (λ s, Deltalogs (segmentInfo s)) modSegments in
  let deletedDeltalogs := flat_map cl_Deltalogs compactionLogs in
  let newAddedDeltalogs := updateDeltalogs originDeltalogs deletedDeltalogs in
  let deltalogs := res_Deltalogs result ++ newAddedDeltalogs in
  let compactionFrom := (λ s, ID (segmentInfo s)) <$> modSegments in
  match modSegments with
  | [] => (m, None)
  | first :: _ =>
      let info :=
        mkDatapbSegmentInfo (res_SegmentID result)
          (CollectionID (segmentInfo first)) (PartitionID (segmentInfo first))
          (InsertChannel (segmentInfo first)) (res_NumOfRows result) Flushing
          (MaxRowNum (segmentInfo first)) (res_InsertLogs result)
          (res_Field2StatslogPaths result) deltalogs startPosition dmlPosition
          true compactionFrom 0 false in
      (m, Some (oldSegments, modSegments, NewSegmentInfo info))
  end.

(** meta.alterInMemoryMetaAfterCompaction *)
Definition alterInMemoryMetaAfterCompaction (segmentCompactTo : SegmentInfo)
    (segmentsCompactFrom : list SegmentInfo) (m : meta) : meta :=
  let segs :=
    foldl (λ segs s, SetSegment (ID (segmentInfo s)) s segs)
      (segments m) segmentsCompactFrom in
  if bool_decide (0 < NumOfRows (segmentInfo segmentCompactTo))
  then mkMeta (catalog m)
         (SetSegment (ID (segmentInfo segmentCompactTo)) segmentCompactTo segs)
  else mkMeta (catalog m) segs.

(** The four mutations of the catalog that write to the store. *)
Inductive mutation :=
  | DoAddSegment (segment : SegmentInfo)
  | DoSetState (segmentID : Z) (targetState : SegmentState)
  | DoUpdateFlushSegmentsInfo (segmentID : Z) (flushed dropped importing : bool)
      (binlogs statslogs deltalogs : list FieldBinlog)
      (checkpoints : list CheckPoint) (startPositions : list SegmentStartPosition)
      (now : Z)
  | DoUpdateDropChannelSegmentInfo (channel : string) (segs2Drop : list SegmentInfo).

Definition run (op : mutation) (m : meta) : outcome * meta :=
  match op with
  | DoAddSegment segment => AddSegment segment m
  | DoSetState segmentID targetState => SetState segmentID targetState m
  | DoUpdateFlushSegmentsInfo segmentID flushed dropped importing
      binlogs statslogs deltalogs checkpoints startPositions now =>
      UpdateFlushSegmentsInfo segmentID flushed dropped importing
        binlogs statslogs deltalogs checkpoints startPositions now m
  | DoUpdateDropChannelSegmentInfo channel segs2Drop =>
      UpdateDropChannelSegmentInfo channel segs2Drop m
  end.

Definition importingFlag (op : mutation) : bool :=
  match op with
  | DoUpdateFlushSegmentsInfo _ _ _ importing _ _ _ _ _ _ => importing
  | _ => false
  end.

(** ** Sample states *)

Definition samplePosition (ts : Z) : MsgPosition := mkMsgPosition "by-dev-dml-0" [1] ts.

(** A data-node segment of collection 1 with the given id and row count. *)
Definition sampleSegment (id rows : Z) : Segment :=
  mkSegment 1 10 id rows 0 false true "by-dev-dml-0" 0
    (mkSegmentCheckPoint 0 None) (Some (samplePosition 5)) None [] None None.

(** A replica of collection 1 with the flushed segments 101 and 102. *)
Definition sampleReplica : SegmentReplica :=
  mkSegmentReplica 1 ∅ ∅
    (<[101 := sampleSegment 101 5]> (<[102 := sampleSegment 102 7]> ∅)) ∅.

(** A catalog segment of collection 1 on the sample channel. *)
Definition sampleInfo (id : Z) (st : SegmentState) (rows : Z)
    (binlogs : list FieldBinlog) (dml : option MsgPosition) : SegmentInfo :=
  mkSegmentInfo
    (mkDatapbSegmentInfo id 1 10 "by-dev-dml-0" rows st 1000 binlogs [] []
       (Some (samplePosition 1)) dml false [] 0 false)
    5 false.

Definition sampleStore (fs : list (option fault)) : Catalog := mkCatalog ∅ ∅ [] fs.

Definition unavailable : option fault := Some (mkFault "etcd unavailable" 0).

(** An index with the growing segment 1 (no rows counted yet, five rows
    current) and the flushed segments 2 and 3. *)
Definition sampleSegments : gmap Z SegmentInfo :=
  <[1 := sampleInfo 1 Growing 0 [mkFieldBinlog 100 [mkBinlog "log/1/100/a" 8]] None]>
  (<[2 := sampleInfo 2 Flushed 20
            [mkFieldBinlog 100 [mkBinlog "log/2/100/a" 8]] (Some (samplePosition 7))]>
  (<[3 := sampleInfo 3 Flushed 30 [] (Some (samplePosition 4))]> ∅)).

Definition sampleMeta (fs : list (option fault)) : meta :=
  mkMeta (sampleStore fs) sampleSegments.

(** The same index with segment 1 dropped. *)
Definition sampleMetaDropped : meta :=
  mkMeta (sampleStore [])
    (<[1 := sampleInfo 1 Dropped 0 [] None]> sampleSegments).

(** ** Predicates used in the statements *)

(** [pkRangeOf ks s]: the segment's minPK and maxPK are the least and the
    greatest of the keys [ks] (and are unset when there is none). *)
Definition pkRangeOf (ks : list primaryKey) (s : Segment) : Prop :=
  match ks with
  | [] => minPK s = None ∧ maxPK s = None
  | _ => ∃ mn mx, minPK s = Some mn ∧ maxPK s = Some mx ∧ mn ∈ ks ∧ mx ∈ ks ∧
                  ∀ k, k ∈ ks → pkLe mn k ∧ pkLe k mx
  end.

(** The keys are all integers or all strings. *)
Definition oneKind (ks : list primaryKey) : Prop :=
  ∀ a b, a ∈ ks → b ∈ ks → sameKind a b.

(** The copy that new2NormalSegment puts into the normal bucket. *)
Definition toNormal (seg : Segment) : Segment := setFlags false (isFlushed seg) seg.

(** The entry of the result for an entry of the new bucket. *)
Definition entryPosition (e : Z * Segment) : SegmentStartPosition :=
  mkSegmentStartPosition e.1 (startPos e.2).

(** The states that isSegmentHealthy accepts. *)
Definition healthyState (st : SegmentState) : bool :=
  bool_decide (st ≠ SegmentStateNone) && bool_decide (st ≠ NotExist) &&
  bool_decide (st ≠ Dropped).

(** [hasLog f p l]: the list [l] names the path [p] for the field [f]. *)
Definition hasLog (f : Z) (p : string) (l : list FieldBinlog) : Prop :=
  ∃ fb b, fb ∈ l ∧ FieldID fb = f ∧ b ∈ Binlogs fb ∧ LogPath b = p.

(** [earliestOf r ps]: [r] is a position of [ps] of least timestamp, and is
    nil only when [ps] has no position. *)
Definition earliestOf (r : option MsgPosition) (ps : list (option MsgPosition)) : Prop :=
  match r with
  | None => ∀ p, p ∈ ps → p = None
  | Some q => Some q ∈ ps ∧ ∀ p, Some p ∈ ps → Timestamp q ≤ Timestamp p
  end.

(** A compaction source as GetCompleteCompactionMeta changes it. *)
Definition droppedAt (now : Z) (s : SegmentInfo) : SegmentInfo :=
  onInfo (withDroppedAt now) (onInfo (withState Dropped) s).

(** The message of the segment that GetCompleteCompactionMeta assembles,
    from the first changed source and the list of all of them. *)
Definition compactedTo_info (compactionLogs : list CompactionSegmentBinlogs)
    (result : CompactionResult) (first : SegmentInfo) (mods : list SegmentInfo)
    : datapbSegmentInfo :=
  mkDatapbSegmentInfo (res_SegmentID result)
    (CollectionID (segmentInfo first)) (PartitionID (segmentInfo first))
    (InsertChannel (segmentInfo first)) (res_NumOfRows result) Flushing
    (MaxRowNum (segmentInfo first)) (res_InsertLogs result)
    (res_Field2StatslogPaths result)
    (res_Deltalogs result ++
       updateDeltalogs (flat_map (λ s, Deltalogs (segmentInfo s)) mods)
         (flat_map cl_Deltalogs compactionLogs))
    (foldl (λ cur s, earlierPosition cur (StartPosition (segmentInfo s))) None mods)
    (foldl (λ cur s, earlierPosition cur (DmlPosition (segmentInfo s))) None mods)
    true ((λ s, ID (segmentInfo s)) <$> mods) 0 false.

(** [wfIndex segs]: every segment is indexed under its own id, as
    AddSegment and the reload from the store put it. *)
Definition wfIndex (segs : gmap Z SegmentInfo) : Prop :=
  ∀ id s, segs !! id = Some s → ID (segmentInfo s) = id.

(** The logs that the entries of a list give for one field. *)
Definition logsOf (f : Z) (l : list FieldBinlog) : list Binlog :=
  flat_map (λ fb, if bool_decide (FieldID fb = f) then Binlogs fb else []) l.

(** The three log lists of a segment. *)
Definition logsOfSegment (s : SegmentInfo) : list FieldBinlog * list FieldBinlog * list FieldBinlog :=
  (SegBinlogs (segmentInfo s), Statslogs (segmentInfo s), Deltalogs (segmentInfo s)).

(** The record a checkpoint leaves when it is applied. *)
Definition checkpointed (cp : CheckPoint) (s : SegmentInfo) : SegmentInfo :=
  onInfo (λ i, withNumOfRows (cp_NumOfRows cp) (withDmlPosition (cp_Position cp) i)) s.

(** What holds of every segment collected by the first loop. *)
Definition mergedFrom (m : meta) (k : Z) (s : SegmentInfo) : Prop :=
  ∃ s0, segments m !! k = Some s0 ∧
        isSegmentHealthy (Some s0) = true ∧
        State (segmentInfo s) = Dropped ∧
        ID (segmentInfo s) = ID (segmentInfo s0) ∧
        InsertChannel (segmentInfo s) = InsertChannel (segmentInfo s0).


(** The stored checkpoint of an indexed segment, if the segment is there. *)
Definition dmlOf (x : option SegmentInfo) : option (option MsgPosition) :=
  (λ s, DmlPosition (segmentInfo s)) <$> x.

(** What the loop over the checkpoints looks at in a checkpoint: the
    segment and the timestamp of the position, if there is one. *)
Definition cpKey (cp : CheckPoint) : Z * option Z :=
  (cp_SegmentID cp, Timestamp <$> cp_Position cp).

(** [staleFor d t]: a checkpoint of timestamp [t] is not newer than the
    stored position [d]. *)
Definition staleFor (d : option MsgPosition) (t : option Z) : Prop :=
  match d, t with
  | Some d, Some t => t ≤ Timestamp d
  | Some _, None => True
  | None, None => True
  | None, Some _ => False
  end.

(** The changed segments come from the index, healthy, with the checkpoint
    they have there. *)
Definition keepsDml (segs mods : gmap Z SegmentInfo) : Prop :=
  ∀ k s, mods !! k = Some s →
    ∃ s2, segs !! k = Some s2 ∧
          DmlPosition (segmentInfo s) = DmlPosition (segmentInfo s2) ∧
          isSegmentHealthy (Some s2) = true.

(** [newerThan d pos]: nothing is stored, or the position [pos] has a
    timestamp strictly greater than the stored position [d]. *)
Definition newerThan (d : option MsgPosition) (pos : option MsgPosition) : Prop :=
  d = None ∨ ∃ d0 p, d = Some d0 ∧ pos = Some p ∧ Timestamp d0 < Timestamp p.

(** [advancedFrom cps s s']: the checkpoint of [s'] is that of [s], or it is
    the position of one of the checkpoints [cps] for the segment [k], newer
    than that of [s]. *)
Definition advancedFrom (cps : list CheckPoint) (k : Z) (s s' : SegmentInfo) : Prop :=
  DmlPosition (segmentInfo s') = DmlPosition (segmentInfo s) ∨
  ∃ cp, cp ∈ cps ∧ cp_SegmentID cp = k ∧
        DmlPosition (segmentInfo s') = cp_Position cp ∧
        newerThan (DmlPosition (segmentInfo s)) (cp_Position cp).

(** Every changed segment comes from the index with its checkpoint kept or
    advanced. *)
Definition advancesDml (cps : list CheckPoint) (segs mods : gmap Z SegmentInfo) : Prop :=
  ∀ k s', mods !! k = Some s' → ∃ s, segs !! k = Some s ∧ advancedFrom cps k s s'.

(** ** Data node: the other operations of the replica *)

(** A sum of two int64 values, as Go computes it: modulo 2^64, in the
    range of the signed type. *)
Definition wrapInt64 (z : Z) : Z := (z + 2 ^ 63) `mod` 2 ^ 64 - 2 ^ 63.

(** The errors of the lookups of the replica, each built with
    fmt.Errorf. *)
Inductive replicaError :=
  | ErrCannotFindSegment (segID : Z)
  | ErrNoSegment (segID : Z)
  | ErrSchemaCollection (want actual : Z)
  | ErrMetaService (msg : string).

Definition setStatistics (rows : Z) (s : Segment) : Segment :=
  mkSegment (collectionID s) (partitionID s) (segmentID s) rows
    0 (isNew s) (isFlushed s) (channelName s) (compactedTo s)
    (checkPoint s) (startPos s) (endPos s) (pkFilter s) (minPK s) (maxPK s).

Definition setEndPos (pos : option MsgPosition) (s : Segment) : Segment :=
  mkSegment (collectionID s) (partitionID s) (segmentID s) (numRows s)
    (memorySize s) (isNew s) (isFlushed s) (channelName s) (compactedTo s)
    (checkPoint s) (startPos s) pos (pkFilter s) (minPK s) (maxPK s).

Definition setCheckPoint (cp : segmentCheckPoint) (s : Segment) : Segment :=
  mkSegment (collectionID s) (partitionID s) (segmentID s) (numRows s)
    (memorySize s) (isNew s) (isFlushed s) (channelName s) (compactedTo s)
    cp (startPos s) (endPos s) (pkFilter s) (minPK s) (maxPK s).

(** SegmentReplica.new2FlushedSegment; as new2NormalSegment it dereferences
    the entry of the new bucket. *)
Definition new2FlushedSegment (segID : Z) (r : SegmentReplica) : option SegmentReplica :=
  match newSegments r !! segID with
  | None => None
  | Some seg =>
      Some (mkSegmentReplica (replicaCollectionID r)
              (delete segID (newSegments r))
              (normalSegments r)
              (<[segID := setFlags false true seg]> (flushedSegments r))
              (compactedSegments r))
  end.

(** SegmentReplica.normal2FlushedSegment *)
Definition normal2FlushedSegment (segID : Z) (r : SegmentReplica) : option SegmentReplica :=
  match normalSegments r !! segID with
  | None => None
  | Some seg =>
      Some (mkSegmentReplica (replicaCollectionID r)
              (newSegments r)
              (delete segID (normalSegments r))
              (<[segID := setFlags (isNew seg) true seg]> (flushedSegments r))
              (compactedSegments r))
  end.

(** SegmentReplica.segmentFlushed: the two tests, one after the other;
    [None] is a panic of one of the two moves. *)
Definition segmentFlushed (segID : Z) (r : SegmentReplica) : option SegmentReplica :=
  match (if bool_decide (is_Some (newSegments r !! segID))
         then new2FlushedSegment segID r else Some r) with
  | None => None
  | Some r1 =>
      if bool_decide (is_Some (normalSegments r1 !! segID))
      then normal2FlushedSegment segID r1 else Some r1
  end.

(** The lookup that the getters share: the new bucket first, then the
    normal one, then the flushed one. *)
Definition findSegment (segID : Z) (r : SegmentReplica) : option Segment :=
  match newSegments r !! segID with
  | Some seg => Some seg
  | None =>
      match normalSegments r !! segID with
      | Some seg => Some seg
      | None => flushedSegments r !! segID
      end
  end.

(** SegmentReplica.getCollectionAndPartitionID *)
Definition getCollectionAndPartitionID (segID : Z) (r : SegmentReplica)
    : (Z * Z) + replicaError :=
  match newSegments r !! segID with
  | Some seg => inl (collectionID seg, partitionID seg)
  | None =>
      match normalSegments r !! segID with
      | Some seg => inl (collectionID seg, partitionID seg)
      | None =>
          match flushedSegments r !! segID with
          | Some seg => inl (collectionID seg, partitionID seg)
          | None => inr (ErrCannotFindSegment segID)
          end
      end
  end.

(** SegmentReplica.getChannelName *)
Definition getChannelName (segID : Z) (r : SegmentReplica) : string + replicaError :=
  match newSegments r !! segID with
  | Some seg => inl (channelName seg)
  | None =>
      match normalSegments r !! segID with
      | Some seg => inl (channelName seg)
      | None =>
          match flushedSegments r !! segID with
          | Some seg => inl (channelName seg)
          | None => inr (ErrCannotFindSegment segID)
          end
      end
  end.

(** Modelled from the spec: datapb.SegmentStats (generated code, not under
    src/), with the two fields that getSegmentStatisticsUpdates fills. *)
Record SegmentStats := mkSegmentStats {
  st_SegmentID : Z;
  st_NumRows : Z
}.

(** SegmentReplica.getSegmentStatisticsUpdates *)
Definition getSegmentStatisticsUpdates (segID : Z) (r : SegmentReplica)
    : SegmentStats + replicaError :=
  match newSegments r !! segID with
  | Some seg => inl (mkSegmentStats segID (numRows seg))
  | None =>
      match normalSegments r !! segID with
      | Some seg => inl (mkSegmentStats segID (numRows seg))
      | None =>
          match flushedSegments r !! segID with
          | Some seg => inl (mkSegmentStats segID (numRows seg))
          | None => inr (ErrNoSegment segID)
          end
      end
  end.

(** SegmentReplica.updateStatistics: the rows are added to those of the
    segment of the new bucket, else of the normal one. *)
Definition updateStatistics (segID : Z) (rows : Z) (r : SegmentReplica) : SegmentReplica :=
  let add := λ seg, setStatistics (wrapInt64 (numRows seg + rows)) seg in
  match newSegments r !! segID with
  | Some seg =>
      mkSegmentReplica (replicaCollectionID r)
        (<[segID := add seg]> (newSegments r))
        (normalSegments r) (flushedSegments r) (compactedSegments r)
  | None =>
      match normalSegments r !! segID with
      | Some seg =>
          mkSegmentReplica (replicaCollectionID r) (newSegments r)
            (<[segID := add seg]> (normalSegments r))
            (flushedSegments r) (compactedSegments r)
      | None => r
      end
  end.

(** SegmentReplica.refreshFlushedSegStatistics *)
Definition refreshFlushedSegStatistics (segID : Z) (rows : Z) (r : SegmentReplica)
    : SegmentReplica :=
  match flushedSegments r !! segID with
  | Some seg =>
      mkSegmentReplica (replicaCollectionID r) (newSegments r) (normalSegments r)
        (<[segID := setStatistics rows seg]> (flushedSegments r))
        (compactedSegments r)
  | None => r
  end.

(** SegmentReplica.updateSegmentEndPosition *)
Definition updateSegmentEndPosition (segID : Z) (pos : option MsgPosition)
    (r : SegmentReplica) : SegmentReplica :=
  match newSegments r !! segID with
  | Some seg =>
      mkSegmentReplica (replicaCollectionID r)
        (<[segID := setEndPos pos seg]> (newSegments r))
        (normalSegments r) (flushedSegments r) (compactedSegments r)
  | None =>
      match normalSegments r !! segID with
      | Some seg =>
          mkSegmentReplica (replicaCollectionID r) (newSegments r)
            (<[segID := setEndPos pos seg]> (normalSegments r))
            (flushedSegments r) (compactedSegments r)
      | None => r
      end
  end.

(** segmentCheckPoint{seg.numRows, *seg.endPos}: the end position is
    dereferenced, which panics when it is nil. *)
Definition checkPointOf (seg : Segment) : option Segment :=
  match endPos seg with
  | None => None
  | Some pos => Some (setCheckPoint (mkSegmentCheckPoint (numRows seg) (Some pos)) seg)
  end.

(** SegmentReplica.updateSegmentCheckPoint; [None] is the panic. *)
Definition updateSegmentCheckPoint (segID : Z) (r : SegmentReplica) : option SegmentReplica :=
  match newSegments r !! segID with
  | Some seg =>
      seg' ← checkPointOf seg;
      Some (mkSegmentReplica (replicaCollectionID r)
              (<[segID := seg']> (newSegments r))
              (normalSegments r) (flushedSegments r) (compactedSegments r))
  | None =>
      match normalSegments r !! segID with
      | Some seg =>
          seg' ← checkPointOf seg;
          Some (mkSegmentReplica (replicaCollectionID r) (newSegments r)
                  (<[segID := seg']> (normalSegments r))
                  (flushedSegments r) (compactedSegments r))
      | None => Some r
      end
  end.

(** SegmentReplica.listSegmentsCheckPoints: the entries of the new bucket
    are written first, those of the normal bucket over them. *)
Definition listSegmentsCheckPoints (r : SegmentReplica) : gmap Z segmentCheckPoint :=
  (checkPoint <$> normalSegments r) ∪ (checkPoint <$> newSegments r).

(** SegmentReplica.updateSegmentPKRange; what updatePKRange returns is
    dropped. *)
Definition updateSegmentPKRange (segID : Z) (ids : FieldData) (r : SegmentReplica)
    : SegmentReplica :=
  match newSegments r !! segID with
  | Some seg =>
      mkSegmentReplica (replicaCollectionID r)
        (<[segID := (updatePKRange ids seg).1]> (newSegments r))
        (normalSegments r) (flushedSegments r) (compactedSegments r)
  | None =>
      match normalSegments r !! segID with
      | Some seg =>
          mkSegmentReplica (replicaCollectionID r) (newSegments r)
            (<[segID := (updatePKRange ids seg).1]> (normalSegments r))
            (flushedSegments r) (compactedSegments r)
      | None =>
          match flushedSegments r !! segID with
          | Some seg =>
              mkSegmentReplica (replicaCollectionID r) (newSegments r)
                (normalSegments r)
                (<[segID := (updatePKRange ids seg).1]> (flushedSegments r))
                (compactedSegments r)
          | None => r
          end
      end
  end.

(** SegmentReplica.removeSegments: its second loop (the first one only
    counts for a metric). *)
Definition removeSegments (segIDs : list Z) (r : SegmentReplica) : SegmentReplica :=
  foldl (λ r segID,
           mkSegmentReplica (replicaCollectionID r)
             (delete segID (newSegments r))
             (delete segID (normalSegments r))
             (delete segID (flushedSegments r))
             (delete segID (compactedSegments r)))
        r segIDs.

(** The segments of a bucket in the order in which a loop over the map
    meets them. *)
Definition bucketValues (b : gmap Z Segment) : list Segment := (map_to_list b).*2.

(** SegmentReplica.listAllSegmentIDs: the segmentID field of every segment
    of the three buckets. *)
Definition listAllSegmentIDs (r : SegmentReplica) : list Z :=
  (segmentID <$> bucketValues (newSegments r))
  ++ (segmentID <$> bucketValues (normalSegments r))
  ++ (segmentID <$> bucketValues (flushedSegments r)).

(** SegmentReplica.listNotFlushedSegmentIDs *)
Definition listNotFlushedSegmentIDs (r : SegmentReplica) : list Z :=
  (segmentID <$> bucketValues (newSegments r))
  ++ (segmentID <$> bucketValues (normalSegments r)).

(** SegmentReplica.listPartitionSegments *)
Definition listPartitionSegments (partID : Z) (r : SegmentReplica) : list Z :=
  let ofPartition := λ b,
    segmentID <$> filter (λ seg, partitionID seg = partID) (bucketValues b) in
  ofPartition (newSegments r) ++ ofPartition (normalSegments r)
  ++ ofPartition (flushedSegments r).

(** SegmentReplica.listCompactedSegmentIDs: every compacted segment is
    appended to the list of its target. *)
Definition listCompactedSegmentIDs (r : SegmentReplica) : gmap Z (list Z) :=
  foldl (λ (compactedTo2From : gmap Z (list Z)) (e : Z * Segment),
           <[compactedTo e.2 := default [] (compactedTo2From !! compactedTo e.2) ++ [e.1]]>
             compactedTo2From)
        ∅ (map_to_list (compactedSegments r)).

(** SegmentReplica.filterSegments.  common.InvalidPartitionID is declared
    in internal/common, not under src/; it is an argument here. *)
Definition filterSegments (InvalidPartitionID : Z) (chanName : string) (partID : Z)
    (r : SegmentReplica) : list Segment :=
  let isMatched := λ seg : Segment,
    channelName seg = chanName
    ∧ (partID = InvalidPartitionID ∨ partitionID seg = partID) in
  filter isMatched (bucketValues (newSegments r))
  ++ filter isMatched (bucketValues (normalSegments r))
  ++ filter isMatched (bucketValues (flushedSegments r)).

(** SegmentReplica.getCollectionSchema.  The replica keeps the schema once
    it has it; it asks the meta service (not under src/, an argument here:
    its answer for a collection and a timestamp) only while it has none.
    The result is the answer and the schema kept afterwards. *)
Definition getCollectionSchema {Schema : Type}
    (metaService : Z → Z → option Schema + string)
    (collID ts : Z) (replicaCollection : Z) (collSchema : option Schema)
    : (option Schema + replicaError) * option Schema :=
  if bool_decide (collID ≠ replicaCollection)
  then (inr (ErrSchemaCollection replicaCollection collID), collSchema)
  else
    match collSchema with
    | None =>
        match metaService collID ts with
        | inr msg => (inr (ErrMetaService msg), collSchema)
        | inl sch => (inl sch, sch)
        end
    | Some _ => (inl collSchema, collSchema)
    end.

(** Every segment of the three working buckets is stored under its own
    id. *)
Definition wfReplica (r : SegmentReplica) : Prop :=
  ∀ id seg,
    newSegments r !! id = Some seg ∨ normalSegments r !! id = Some seg
    ∨ flushedSegments r !! id = Some seg →
    segmentID seg = id.

(** No id is in two of the three working buckets. *)
Definition disjointBuckets (r : SegmentReplica) : Prop :=
  ∀ id,
    (is_Some (newSegments r !! id) →
       normalSegments r !! id = None ∧ flushedSegments r !! id = None)
    ∧ (is_Some (normalSegments r !! id) → flushedSegments r !! id = None).

Definition replicaInv (r : SegmentReplica) : Prop := wfReplica r ∧ disjointBuckets r.

(** The calls that change the replica (addSegment apart, which reads the
    statistics files of the segment through the chunk manager). *)
Inductive replicaCall :=
  | CallSegmentFlushed (segID : Z)
  | CallListNewSegmentsStartPositions
  | CallRemoveSegments (segIDs : list Z)
  | CallUpdateStatistics (segID rows : Z)
  | CallRefreshFlushedSegStatistics (segID rows : Z)
  | CallUpdateSegmentEndPosition (segID : Z) (pos : option MsgPosition)
  | CallUpdateSegmentCheckPoint (segID : Z)
  | CallUpdateSegmentPKRange (segID : Z) (ids : FieldData)
  | CallMergeFlushedSegments (seg : Segment) (planID : Z) (compactedFrom : list Z).

(** The replica that a call leaves behind; [None] when it panics. *)
Definition call (c : replicaCall) (r : SegmentReplica) : option SegmentReplica :=
  match c with
  | CallSegmentFlushed segID => segmentFlushed segID r
  | CallListNewSegmentsStartPositions => snd <$> listNewSegmentsStartPositions r
  | CallRemoveSegments segIDs => Some (removeSegments segIDs r)
  | CallUpdateStatistics segID rows => Some (updateStatistics segID rows r)
  | CallRefreshFlushedSegStatistics segID rows =>
      Some (refreshFlushedSegStatistics segID rows r)
  | CallUpdateSegmentEndPosition segID pos => Some (updateSegmentEndPosition segID pos r)
  | CallUpdateSegmentCheckPoint segID => updateSegmentCheckPoint segID r
  | CallUpdateSegmentPKRange segID ids => Some (updateSegmentPKRange segID ids r)
  | CallMergeFlushedSegments seg planID compactedFrom =>
      match mergeFlushedSegments seg planID compactedFrom r with
      | (Returned _, r') => Some r'
      | (Panicked, _) => None
      end
  end.

(** What the caller of a call has to see to: the segment that a compaction
    hands over must not carry the id of a segment that is still written
    to. *)
Definition callAllowed (c : replicaCall) (r : SegmentReplica) : Prop :=
  match c with
  | CallMergeFlushedSegments seg _ _ => hasSegment (segmentID seg) false r = false
  | _ => True
  end.

(** ** Coordinator: the other operations of the catalog *)

(** The errors that these operations build themselves with fmt.Errorf,
    and those they pass on from the store. *)
Inductive metaError :=
  | ErrSegmentNotFound (segmentID : Z)
  | ErrSegmentNotExist (segID : Z)
  | ErrOfStore (err : error).

Definition withIsImporting (b : bool) (i : datapbSegmentInfo) : datapbSegmentInfo :=
  mkDatapbSegmentInfo (ID i) (CollectionID i) (PartitionID i) (InsertChannel i)
    (NumOfRows i) (State i) (MaxRowNum i) (SegBinlogs i) (Statslogs i) (Deltalogs i)
    (StartPosition i) (DmlPosition i) (CreatedByCompaction i) (CompactionFrom i)
    (DroppedAt i) b.

(** Modelled from the spec: DataCoordCatalog.DropSegment (internal/metastore
    is not under src/), the atomic removal of the record of one segment.
    The journal keeps what is written, not what is removed. *)
Definition catalogDropSegment (seg : datapbSegmentInfo) (c : Catalog)
    : option error * Catalog :=
  match nextFault c with
  | (Some f, rest) =>
      (Some (ErrStore (faultMsg f)),
       mkCatalog (persisted c) (deletedChannels c) (writes c) rest)
  | (None, rest) =>
      (None,
       mkCatalog (delete (ID seg) (persisted c)) (deletedChannels c) (writes c) rest)
  end.

(** Modelled from the spec: DataCoordCatalog.ListSegments (internal/metastore
    is not under src/): the records of the store, in no particular order,
    or the error of the store. *)
Definition catalogListSegments (c : Catalog)
    : (list datapbSegmentInfo + error) * Catalog :=
  match nextFault c with
  | (Some f, rest) =>
      (inr (ErrStore (faultMsg f)),
       mkCatalog (persisted c) (deletedChannels c) (writes c) rest)
  | (None, rest) =>
      (inl (map_to_list (persisted c)).*2,
       mkCatalog (persisted c) (deletedChannels c) (writes c) rest)
  end.

(** Modelled from the spec: SegmentsInfo.DropSegment (segment_info.go is not
    under src/), which removes the record of an id from the index. *)
Definition SegmentsInfo_DropSegment (segmentID : Z) (segs : gmap Z SegmentInfo)
    : gmap Z SegmentInfo :=
  delete segmentID segs.

(** Modelled from the spec: SegmentsInfo.GetSegments (segment_info.go), the
    records of the index, in the order in which Go happens to go through
    the map. *)
Definition GetSegments (segs : gmap Z SegmentInfo) : list SegmentInfo :=
  (map_to_list segs).*2.

(** Modelled from the spec: SegmentsInfo.SetIsImporting (segment_info.go):
    the indexed record of the id, if there is one, is replaced by a copy
    with the flag. *)
Definition SegmentsInfo_SetIsImporting (segmentID : Z) (isImporting : bool)
    (segs : gmap Z SegmentInfo) : gmap Z SegmentInfo :=
  alter (onInfo (withIsImporting isImporting)) segmentID segs.

(** Modelled from the spec: SegmentsInfo.SetCurrentRows (segment_info.go),
    as SetIsImporting, for the rows current in memory. *)
Definition SegmentsInfo_SetCurrentRows (segmentID : Z) (rows : Z)
    (segs : gmap Z SegmentInfo) : gmap Z SegmentInfo :=
  alter (withCurrRows rows) segmentID segs.

(** The loop of reloadFromKV over the records of the store. *)
Definition reloadSegments (listed : list datapbSegmentInfo) (segs : gmap Z SegmentInfo)
    : gmap Z SegmentInfo :=
  foldl (λ segs segment, SetSegment (ID segment) (NewSegmentInfo segment) segs)
    segs listed.

(** meta.reloadFromKV *)
Definition reloadFromKV (m : meta) : option error * meta :=
  match catalogListSegments (catalog m) with
  | (inr err, c) => (Some err, mkMeta c (segments m))
  | (inl listed, c) => (None, mkMeta c (reloadSegments listed (segments m)))
  end.

(** newMeta: the index is empty before it is loaded from the store; no
    meta is returned when the load fails. *)
Definition newMeta (c : Catalog) : option error * option meta :=
  match reloadFromKV (mkMeta c ∅) with
  | (Some err, _) => (Some err, None)
  | (None, mt) => (None, Some mt)
  end.

(** meta.DropSegment *)
Definition DropSegment (segmentID : Z) (m : meta) : outcome * meta :=
  match GetSegment segmentID (segments m) with
  | None => (Returned None, m)
  | Some segment =>
      match catalogDropSegment (segmentInfo segment) (catalog m) with
      | (Some err, c) => (Returned (Some err), mkMeta c (segments m))
      | (None, c) =>
          (Returned None, mkMeta c (SegmentsInfo_DropSegment segmentID (segments m)))
      end
  end.

(** meta.GetSegment: the record of the id, when it is that of a healthy
    segment. *)
Definition meta_GetSegment (segID : Z) (m : meta) : option SegmentInfo :=
  match GetSegment segID (segments m) with
  | Some segment => if isSegmentHealthy (Some segment) then Some segment else None
  | None => None
  end.

(** meta.GetSegmentUnsafe *)
Definition GetSegmentUnsafe (segID : Z) (m : meta) : option SegmentInfo :=
  GetSegment segID (segments m).

(** meta.UnsetIsImporting *)
Definition UnsetIsImporting (segmentID : Z) (m : meta) : option metaError * meta :=
  match GetSegment segmentID (segments m) with
  | None => (Some (ErrSegmentNotFound segmentID), m)
  | Some curSegInfo =>
      let clonedSegment := onInfo (withIsImporting false) (Clone curSegInfo) in
      if isSegmentHealthy (Some clonedSegment)
      then
        match catalogAlterSegments [segmentInfo clonedSegment] (catalog m) with
        | (Some err, c) => (Some (ErrOfStore err), mkMeta c (segments m))
        | (None, c) =>
            (None, mkMeta c (SegmentsInfo_SetIsImporting segmentID false (segments m)))
        end
      else
        (None, mkMeta (catalog m) (SegmentsInfo_SetIsImporting segmentID false (segments m)))
  end.

(** meta.SetCurrentRows *)
Definition SetCurrentRows (segmentID : Z) (rows : Z) (m : meta) : meta :=
  mkMeta (catalog m) (SegmentsInfo_SetCurrentRows segmentID rows (segments m)).

(** meta.HasSegments: the first id that the index does not know ends the
    loop with an error. *)
Fixpoint HasSegments (segIDs : list Z) (m : meta) : bool * option metaError :=
  match segIDs with
  | [] => (true, None)
  | segID :: rest =>
      if bool_decide (is_Some (segments m !! segID))
      then HasSegments rest m
      else (false, Some (ErrSegmentNotExist segID))
  end.

(** *** The queries *)

Definition ofCollection (collectionID : Z) (segment : SegmentInfo) : Prop :=
  isSegmentHealthy (Some segment) = true
  ∧ CollectionID (segmentInfo segment) = collectionID.

Definition ofPartition (collectionID partitionID : Z) (segment : SegmentInfo) : Prop :=
  isSegmentHealthy (Some segment) = true
  ∧ CollectionID (segmentInfo segment) = collectionID
  ∧ PartitionID (segmentInfo segment) = partitionID.

(** The test of the two queries that count the dropped segments in. *)
Definition existing (segment : SegmentInfo) : Prop :=
  State (segmentInfo segment) ≠ SegmentStateNone
  ∧ State (segmentInfo segment) ≠ NotExist.

(** meta.GetSegmentsByChannel *)
Definition GetSegmentsByChannel (dmlCh : string) (m : meta) : list SegmentInfo :=
  filter (λ segment, ¬ (isSegmentHealthy (Some segment) = false
                        ∨ InsertChannel (segmentInfo segment) ≠ dmlCh))
    (GetSegments (segments m)).

(** meta.GetSegmentsOfCollection *)
Definition GetSegmentsOfCollection (collectionID : Z) (m : meta) : list SegmentInfo :=
  filter (ofCollection collectionID) (GetSegments (segments m)).

(** meta.GetSegmentsIDOfCollection *)
Definition GetSegmentsIDOfCollection (collectionID : Z) (m : meta) : list Z :=
  (λ segment, ID (segmentInfo segment))
    <$> filter (ofCollection collectionID) (GetSegments (segments m)).

(** meta.GetSegmentsIDOfCollectionWithDropped *)
Definition GetSegmentsIDOfCollectionWithDropped (collectionID : Z) (m : meta) : list Z :=
  (λ segment, ID (segmentInfo segment))
    <$> filter (λ segment, existing segment
                           ∧ CollectionID (segmentInfo segment) = collectionID)
          (GetSegments (segments m)).

(** meta.GetSegmentsIDOfPartition *)
Definition GetSegmentsIDOfPartition (collectionID partitionID : Z) (m : meta) : list Z :=
  (λ segment, ID (segmentInfo segment))
    <$> filter (ofPartition collectionID partitionID) (GetSegments (segments m)).

(** meta.GetSegmentsIDOfPartitionWithDropped *)
Definition GetSegmentsIDOfPartitionWithDropped (collectionID partitionID : Z) (m : meta)
    : list Z :=
  (λ segment, ID (segmentInfo segment))
    <$> filter (λ segment, existing segment
                           ∧ CollectionID (segmentInfo segment) = collectionID
                           ∧ PartitionID (segmentInfo segment) = partitionID)
          (GetSegments (segments m)).

(** The loop of the two row counts: the rows of the segments that pass the
    test are added up in an int64. *)
Definition countRows (P : SegmentInfo → Prop) `{!∀ s, Decision (P s)}
    (segs : list SegmentInfo) : Z :=
  foldl (λ ret segment,
           if decide (P segment) then wrapInt64 (ret + NumOfRows (segmentInfo segment))
           else ret)
        0 segs.

(** meta.GetNumRowsOfCollection *)
Definition GetNumRowsOfCollection (collectionID : Z) (m : meta) : Z :=
  countRows (ofCollection collectionID) (GetSegments (segments m)).

(** meta.GetNumRowsOfPartition *)
Definition GetNumRowsOfPartition (collectionID partitionID : Z) (m : meta) : Z :=
  countRows (ofPartition collectionID partitionID) (GetSegments (segments m)).

(** meta.GetUnFlushedSegments *)
Definition GetUnFlushedSegments (m : meta) : list SegmentInfo :=
  filter (λ segment, State (segmentInfo segment) = Growing
                     ∨ State (segmentInfo segment) = Sealed)
    (GetSegments (segments m)).

(** meta.GetFlushingSegments *)
Definition GetFlushingSegments (m : meta) : list SegmentInfo :=
  filter (λ info, State (segmentInfo info) = Flushing) (GetSegments (segments m)).

(** meta.SelectSegments *)
Definition SelectSegments (selector : SegmentInfo → bool) (m : meta) : list SegmentInfo :=
  filter (λ info, selector info = true) (GetSegments (segments m)).

(** *** updateBinlogs *)

(** The first and the third loop of updateBinlogs: the logs of an entry go,
    by path, into the map of its field, which is made when it is new. *)
Definition addLogs (fieldBinlogs : gmap Z (gmap string Binlog)) (f : FieldBinlog)
    : gmap Z (gmap string Binlog) :=
  <[FieldID f := foldl (λ logs p, <[LogPath p := p]> logs)
                   (default ∅ (fieldBinlogs !! FieldID f)) (Binlogs f)]> fieldBinlogs.

(** Its second loop: the paths of an entry are deleted from the map of its
    field, if there is one. *)
Definition dropLogs (fieldBinlogs : gmap Z (gmap string Binlog)) (f : FieldBinlog)
    : gmap Z (gmap string Binlog) :=
  match fieldBinlogs !! FieldID f with
  | None => fieldBinlogs
  | Some logs =>
      <[FieldID f := foldl (λ logs p, delete (LogPath p) logs) logs (Binlogs f)]>
        fieldBinlogs
  end.

(** meta.updateBinlogs *)
Definition updateBinlogs (origin removes adds : list FieldBinlog) : list FieldBinlog :=
  let fieldBinlogs := foldl addLogs (foldl dropLogs (foldl addLogs ∅ origin) removes) adds in
  flat_map (λ e : Z * gmap string Binlog,
              if bool_decide (size e.2 = 0%nat) then []
              else [mkFieldBinlog e.1 (map_to_list e.2).*2])
    (map_to_list fieldBinlogs).

(** *** All the mutations *)

(** The mutations of the catalog, with those that write to the store. *)
Inductive metaCall :=
  | CallRun (op : mutation)
  | CallDropSegment (segmentID : Z)
  | CallUnsetIsImporting (segmentID : Z)
  | CallSetCurrentRows (segmentID rows : Z)
  | CallReloadFromKV
  | CallAlterInMemoryMetaAfterCompaction (segmentCompactTo : SegmentInfo)
      (segmentsCompactFrom : list SegmentInfo).

(** The catalog that a call leaves behind. *)
Definition metaAfter (c : metaCall) (m : meta) : meta :=
  match c with
  | CallRun op => (run op m).2
  | CallDropSegment segmentID => (DropSegment segmentID m).2
  | CallUnsetIsImporting segmentID => (UnsetIsImporting segmentID m).2
  | CallSetCurrentRows segmentID rows => SetCurrentRows segmentID rows m
  | CallReloadFromKV => (reloadFromKV m).2
  | CallAlterInMemoryMetaAfterCompaction segmentCompactTo segmentsCompactFrom =>
      alterInMemoryMetaAfterCompaction segmentCompactTo segmentsCompactFrom m
  end.

(** The rows of the segments of a list that pass a test, added up in the
    integers. *)
Definition rowSum (P : SegmentInfo → Prop) `{!∀ s, Decision (P s)}
    (segs : list SegmentInfo) : Z :=
  foldr (λ segment acc,
           (if decide (P segment) then NumOfRows (segmentInfo segment) else 0) + acc)
        0 segs.

(** Every log of the maps of updateBinlogs is kept under its own path. *)
Definition keyedByPath (fieldBinlogs : gmap Z (gmap string Binlog)) : Prop :=
  ∀ f logs p b, fieldBinlogs !! f = Some logs → logs !! p = Some b → LogPath b = p.

(** The maps hold a log of the path for the field. *)
Definition holdsLog (fieldBinlogs : gmap Z (gmap string Binlog)) (f : Z) (p : string)
    : Prop :=
  ∃ logs, fieldBinlogs !! f = Some logs ∧ is_Some (logs !! p).

(** Every record of the store is kept under its own id, as saveAll puts
    it. *)
Definition wfStore (store : gmap Z datapbSegmentInfo) : Prop :=
  ∀ id i, store !! id = Some i → ID i = id.

(** ** errorutil: the errors of a retried call *)

Definition newline : string := String (ascii_of_nat 10) EmptyString.

(** fmt.Sprintf("attempt #%d:%s\n", index+1, err.Error()) *)
Definition attemptLine (index : nat) (msg : string) : string :=
  "attempt #" +:+ pretty (Z.of_nat index + 1) +:+ ":" +:+ msg +:+ newline.

(** The loop of ErrorList.Error from an index on, as what it writes to the
    builder.  An error of the list is kept as the text of its Error method,
    a nil error as [None]. *)
Fixpoint errorLoop (limit index : nat) (el : list (option string)) : string :=
  match el with
  | [] => EmptyString
  | None :: _ => EmptyString
  | Some msg :: rest =>
      if bool_decide (limit < index)%nat then EmptyString
      else attemptLine index msg +:+ errorLoop limit (S index) rest
  end.

(** ErrorList.Error *)
Definition ErrorList_Error (el : list (option string)) : string :=
  let limit := 10%nat in
  "All attempts results:" +:+ newline +:+ errorLoop limit 0 el.

(** The errors of the list before its first nil. *)
Fixpoint attempted (el : list (option string)) : list string :=
  match el with
  | Some msg :: rest => msg :: attempted rest
  | _ => []
  end.

(** The lines of some attempts, numbered from an index on. *)
Fixpoint attemptLines (index : nat) (msgs : list string) : string :=
  match msgs with
  | [] => EmptyString
  | msg :: rest => attemptLine index msg +:+ attemptLines (S index) rest
  end.

(** ** More sample states *)

(** A replica of collection 1 with the new segment 201, the normal segment
    202 and the flushed segment 101. *)
Definition sampleReplicaOpen : SegmentReplica :=
  mkSegmentReplica 1
    {[201 := setFlags true false (sampleSegment 201 3)]}
    {[202 := setFlags false false (sampleSegment 202 4)]}
    {[101 := sampleSegment 101 5]} ∅.

(** A growing segment of collection 1 with forty rows, not indexed in the
    sample index. *)
Definition sampleNewInfo : SegmentInfo := sampleInfo 7 Growing 40 [] None.

(** * Properties of the data node's replica *)

(** Case analysis on the membership tests of a goal, [x ∈ l] against
    [x ∈ y :: l], as they come up when a loop turn is peeled off. *)
Ltac case_elem_of_cons :=
  repeat match goal with
         | |- context [decide (?x ∈ ?l)] => destruct (decide (x ∈ l))
         end;
  try done;
  try (exfalso;
       match goal with
       | H : ?x ∉ ?x :: _ |- _ => apply H; left
       | H : ?x ∉ _ :: _, H' : ?x ∈ _ |- _ => apply H; right; exact H'
       | H : ?x ∈ ?y :: _, Hne : ?x ≠ ?y |- _ =>
           apply elem_of_cons in H as [?|?]; contradiction
       end).

(** ** The order of primary keys *)

Lemma ascii_compare_N (a b : ascii) :
  Ascii.compare a b = N.compare (N_of_ascii a) (N_of_ascii b).
Proof. reflexivity. Qed.

Lemma string_compare_refl (s : string) : String.compare s s = Eq.
Proof.
  induction s as [|c s IH]; simpl; [done|].
  rewrite ascii_compare_N, N.compare_refl. exact IH.
Qed.

Lemma string_compare_le_trans (a b c : string) :
  String.compare a b ≠ Gt → String.compare b c ≠ Gt → String.compare a c ≠ Gt.
Proof.
  revert b c. induction a as [|x a IH]; intros [|y b] [|z c]; simpl; try done.
  rewrite !ascii_compare_N.
  destruct (N.compare_spec (N_of_ascii x) (N_of_ascii y)) as [Hxy|Hxy|Hxy];
    destruct (N.compare_spec (N_of_ascii y) (N_of_ascii z)) as [Hyz|Hyz|Hyz];
    try done; intros Hab Hbc.
  - rewrite Hxy, Hyz, N.compare_refl. by apply (IH b c).
  - rewrite Hxy. by rewrite (proj2 (N.compare_lt_iff _ _) Hyz).
  - rewrite <- Hyz. by rewrite (proj2 (N.compare_lt_iff _ _) Hxy).
  - assert (N_of_ascii x < N_of_ascii z)%N as Hxz by lia.
    by rewrite (proj2 (N.compare_lt_iff _ _) Hxz).
Qed.

Lemma pkLe_refl (a : primaryKey) : pkLe a a.
Proof.
  destruct a as [x|x]; simpl; [lia|]. by rewrite string_compare_refl.
Qed.

Lemma pkLe_trans (a b c : primaryKey) : pkLe a b → pkLe b c → pkLe a c.
Proof.
  destruct a, b, c; simpl; try done; [lia|]. apply string_compare_le_trans.
Qed.

Lemma GT_spec (a b : primaryKey) :
  sameKind a b → if GT a b then pkLe b a ∧ ¬ pkLe a b else pkLe a b.
Proof.
  destruct a as [x|x], b as [y|y]; simpl; try done; intros _.
  - case_bool_decide; lia.
  - rewrite (String.compare_antisym y x).
    destruct (String.compare x y); simpl; naive_solver.
Qed.

Lemma LT_spec (a b : primaryKey) :
  sameKind a b → if LT a b then pkLe a b ∧ ¬ pkLe b a else pkLe b a.
Proof.
  destruct a as [x|x], b as [y|y]; simpl; try done; intros _.
  - case_bool_decide; lia.
  - rewrite (String.compare_antisym y x).
    destruct (String.compare x y); simpl; naive_solver.
Qed.

Lemma sameKind_sym (a b : primaryKey) : sameKind a b → sameKind b a.
Proof. by destruct a, b. Qed.

(** ** updatePKRange keeps the range of the keys added so far *)

Lemma updatePk_no_error pk s : (updatePk pk s).2 = None.
Proof. reflexivity. Qed.

Lemma updatePk_pkFilter pk s : pkFilter (updatePk pk s).1 = pkFilter s.
Proof. reflexivity. Qed.

Lemma updatePk_range ks pk s :
  oneKind (ks ++ [pk]) → pkRangeOf ks s → pkRangeOf (ks ++ [pk]) (updatePk pk s).1.
Proof.
  intros Hkind Hr. unfold pkRangeOf in *.
  destruct ks as [|k0 ks]; simpl app.
  - destruct Hr as [Hmn Hmx]. exists pk, pk. simpl. rewrite Hmn, Hmx.
    repeat split; try apply list_elem_of_singleton; try done;
      apply list_elem_of_singleton in H as ->; apply pkLe_refl.
  - destruct Hr as (mn & mx & Hmn & Hmx & Hin1 & Hin2 & Hall).
    assert (Hpk : pk ∈ (k0 :: ks) ++ [pk]) by (apply elem_of_app; right; by apply list_elem_of_singleton).
    assert (Hsub : ∀ k, k ∈ k0 :: ks → k ∈ (k0 :: ks) ++ [pk]) by (intros; apply elem_of_app; by left).
    pose proof (GT_spec mn pk (Hkind _ _ (Hsub _ Hin1) Hpk)) as Hgt.
    pose proof (LT_spec mx pk (Hkind _ _ (Hsub _ Hin2) Hpk)) as Hlt.
    simpl. rewrite Hmn, Hmx.
    change (k0 :: ks ++ [pk]) with ((k0 :: ks) ++ [pk]).
    destruct (GT mn pk), (LT mx pk); eexists _, _;
      (split; [reflexivity|]); (split; [reflexivity|]);
      (split; [by auto|]); (split; [by auto|]);
      intros k [Hk|Hk%list_elem_of_singleton]%elem_of_app; subst;
      try destruct (Hall _ Hk); split;
      intuition eauto using pkLe_refl, pkLe_trans.
Qed.

Lemma updatePKRangeLoop_spec {A} (mk : A → primaryKey) (enc : A → list Z) pks :
  ∀ ks s, oneKind (ks ++ (mk <$> pks)) → pkRangeOf ks s →
    ∃ s', updatePKRangeLoop mk enc pks s = (s', None) ∧
          pkFilter s' = pkFilter s ++ (enc <$> pks) ∧
          pkRangeOf (ks ++ (mk <$> pks)) s'.
Proof.
  induction pks as [|pk pks IH]; intros ks s Hkind Hr; simpl.
  - exists s. by rewrite !app_nil_r.
  - rewrite fmap_cons, cons_middle, app_assoc in Hkind.
    destruct (IH (ks ++ [mk pk])
                (setPkFilter (bloomAdd (enc pk) (pkFilter (updatePk (mk pk) s).1))
                   (updatePk (mk pk) s).1)) as (s' & Hrun & Hf & Hr').
    + exact Hkind.
    + assert (pkRangeOf (ks ++ [mk pk]) (updatePk (mk pk) s).1) as Hstep.
      { apply updatePk_range; [|done].
        intros a b Ha Hb. apply Hkind; apply elem_of_app; by left. }
      unfold pkRangeOf in *. by destruct (ks ++ [mk pk]).
    + exists s'. rewrite <- app_assoc in Hr'. split_and!; [exact Hrun| |exact Hr'].
      rewrite Hf. simpl. unfold bloomAdd. by rewrite <- app_assoc.
Qed.

Lemma updatePKRange_spec ids ks s :
  oneKind (ks ++ batchKeys ids) → pkRangeOf ks s →
  ∃ s', updatePKRange ids s = (s', None) ∧
        pkFilter s' = pkFilter s ++ batchItems ids ∧
        pkRangeOf (ks ++ batchKeys ids) s'.
Proof.
  destruct ids as [pks|pks|]; simpl.
  - apply updatePKRangeLoop_spec.
  - apply updatePKRangeLoop_spec.
  - intros _ Hr. exists s. by rewrite !app_nil_r.
Qed.

Lemma updatePKRanges_spec batches :
  ∀ ks s, oneKind (ks ++ concat (batchKeys <$> batches)) → pkRangeOf ks s →
    ∃ s', updatePKRanges batches s = (s', None) ∧
          pkFilter s' = pkFilter s ++ concat (batchItems <$> batches) ∧
          pkRangeOf (ks ++ concat (batchKeys <$> batches)) s'.
Proof.
  induction batches as [|ids batches IH]; intros ks s Hkind Hr; simpl in *.
  - exists s. by rewrite !app_nil_r.
  - rewrite app_assoc in Hkind.
    destruct (updatePKRange_spec ids ks s) as (s1 & Hrun1 & Hf1 & Hr1); [|done|].
    { intros a b Ha Hb. apply Hkind; apply elem_of_app; by left. }
    destruct (IH _ s1 Hkind Hr1) as (s' & Hrun & Hf & Hr').
    exists s'. rewrite Hrun1. rewrite <- app_assoc in Hr'.
    split_and!; [exact Hrun| |exact Hr'].
    by rewrite Hf, Hf1, <- app_assoc.
Qed.

Lemma oneKind_int64 (l : list Z) : oneKind (Int64PrimaryKey <$> l).
Proof.
  intros a b (x & -> & _)%list_elem_of_fmap (y & -> & _)%list_elem_of_fmap. exact I.
Qed.

Lemma oneKind_varchar (l : list string) : oneKind (VarCharPrimaryKey <$> l).
Proof.
  intros a b (x & -> & _)%list_elem_of_fmap (y & -> & _)%list_elem_of_fmap. exact I.
Qed.

(** C10: over any sequence of updatePKRange calls whose keys are of one
    type (int64 or string), no call reports an error, every key of every
    batch is added to the membership filter, and minPK and maxPK are the
    least and the greatest of all keys added so far; a batch of another
    field-data type leaves the segment as it is and reports no error. *)
Theorem C10_updatePKRange_range
    (batches : list FieldData) (ks0 : list primaryKey) (s : Segment) :
  oneKind (ks0 ++ concat (batchKeys <$> batches)) →
  pkRangeOf ks0 s →
  (∃ s', updatePKRanges batches s = (s', None) ∧
         pkFilter s' = pkFilter s ++ concat (batchItems <$> batches) ∧
         (∀ item, item ∈ concat (batchItems <$> batches) →
                  bloomTest item (pkFilter s') = true) ∧
         pkRangeOf (ks0 ++ concat (batchKeys <$> batches)) s') ∧
  updatePKRange OtherFieldData s = (s, None).
Proof.
  intros Hkind Hr. split; [|reflexivity].
  destruct (updatePKRanges_spec batches ks0 s Hkind Hr) as (s' & Hrun & Hf & Hr').
  exists s'. split_and!; [exact Hrun|exact Hf| |exact Hr'].
  intros item Hin. unfold bloomTest. apply bool_decide_eq_true.
  rewrite Hf. apply elem_of_app. by right.
Qed.

(** ** listNewSegmentsStartPositions *)

Lemma listNewLoop_spec (entries : list (Z * Segment)) :
  ∀ result r,
    NoDup entries.*1 →
    (∀ id seg, (id, seg) ∈ entries → newSegments r !! id = Some seg) →
    ∃ r', listNewLoop entries result r = Some (result ++ (entryPosition <$> entries), r') ∧
          replicaCollectionID r' = replicaCollectionID r ∧
          flushedSegments r' = flushedSegments r ∧
          compactedSegments r' = compactedSegments r ∧
          (∀ id, newSegments r' !! id =
                 if decide (id ∈ entries.*1) then None else newSegments r !! id) ∧
          (∀ id, normalSegments r' !! id =
                 match (list_to_map entries : gmap Z Segment) !! id with
                 | Some seg => Some (toNormal seg)
                 | None => normalSegments r !! id
                 end).
Proof.
  induction entries as [|[id seg] rest IH]; intros result r Hnd Hin.
  - exists r. simpl. rewrite app_nil_r. split_and!; try done.
  - simpl in Hnd. apply NoDup_cons in Hnd as [Hfresh Hnd].
    assert (newSegments r !! id = Some seg) as Hid by (apply Hin; left).
    simpl. unfold new2NormalSegment. rewrite Hid.
    match goal with
    | |- context [listNewLoop rest ?res ?r1] =>
        destruct (IH res r1) as (r' & Hrun & Hc & Hfl & Hco & Hnew & Hnorm);
          [exact Hnd| |]
    end.
    { intros id' seg' Hin'. simpl. rewrite lookup_delete_ne.
      - apply Hin. by right.
      - intros ->. apply Hfresh. apply list_elem_of_fmap. by exists (id', seg'). }
    exists r'. rewrite Hrun, <- app_assoc. split_and!; try done.
    + intros k. rewrite Hnew. simpl.
      destruct (decide (k = id)) as [->|Hne].
      * rewrite lookup_delete_eq. case_elem_of_cons.
      * rewrite lookup_delete_ne by done. case_elem_of_cons.
    + intros k. rewrite Hnorm. simpl.
      destruct (decide (k = id)) as [->|Hne].
      * rewrite lookup_insert_eq.
        rewrite (not_elem_of_list_to_map_1 _ _ Hfresh). by rewrite lookup_insert_eq.
      * by rewrite !(lookup_insert_ne _ id k) by done.
Qed.

(** C9: listNewSegmentsStartPositions returns, for every segment of the new
    bucket and for nothing else, its id with its start position; in the same
    call these segments leave the new bucket for the normal one; and a call
    that follows at once returns the empty list and changes nothing. *)
Theorem C9_listNewSegmentsStartPositions (r : SegmentReplica) :
  ∃ result r',
    listNewSegmentsStartPositions r = Some (result, r') ∧
    (∀ pos, pos ∈ result ↔
            ∃ id seg, newSegments r !! id = Some seg ∧
                      pos = mkSegmentStartPosition id (startPos seg)) ∧
    length result = size (newSegments r) ∧
    newSegments r' = ∅ ∧
    (∀ id seg, newSegments r !! id = Some seg →
               normalSegments r' !! id = Some (setFlags false (isFlushed seg) seg)) ∧
    (∀ id, newSegments r !! id = None →
           normalSegments r' !! id = normalSegments r !! id) ∧
    flushedSegments r' = flushedSegments r ∧
    compactedSegments r' = compactedSegments r ∧
    listNewSegmentsStartPositions r' = Some ([], r').
Proof.
  unfold listNewSegmentsStartPositions.
  destruct (listNewLoop_spec (map_to_list (newSegments r)) [] r)
    as (r' & Hrun & Hc & Hfl & Hco & Hnew & Hnorm).
  { apply NoDup_fst_map_to_list. }
  { intros id seg. apply elem_of_map_to_list. }
  assert (newSegments r' = ∅) as Hempty.
  { apply map_eq. intros k. rewrite Hnew, lookup_empty.
    case_decide as Hk; [done|].
    destruct (newSegments r !! k) as [seg|] eqn:E; [|done].
    exfalso. apply Hk. apply list_elem_of_fmap. exists (k, seg).
    split; [done|]. by apply elem_of_map_to_list. }
  exists (entryPosition <$> map_to_list (newSegments r)), r'.
  split_and!; try done.
  - intros pos. rewrite list_elem_of_fmap. split.
    + intros ([id seg] & -> & Hin). exists id, seg.
      split; [by apply elem_of_map_to_list|done].
    + intros (id & seg & Hin & ->). exists (id, seg).
      split; [done|by apply elem_of_map_to_list].
  - by rewrite length_fmap, length_map_to_list.
  - intros id seg Hid. rewrite Hnorm, list_to_map_to_list, Hid. done.
  - intros id Hid. by rewrite Hnorm, list_to_map_to_list, Hid.
  - rewrite Hempty, map_to_list_empty. done.
Qed.

(** ** mergeFlushedSegments *)

Lemma filter_none {A} (P : A → Prop) `{!∀ x, Decision (P x)} (l : list A) :
  (∀ x, x ∈ l → ¬ P x) → filter P l = [].
Proof.
  intros Hnone. destruct (filter P l) as [|x l'] eqn:E; [done|].
  assert (x ∈ filter P l) as [HP Hx]%list_elem_of_filter by (rewrite E; left).
  by destruct (Hnone x Hx).
Qed.

Lemma isFlushedSegment_buckets (ID : Z) (r : SegmentReplica) :
  isFlushedSegment ID r = true ↔
  is_Some (flushedSegments r !! ID) ∧
  newSegments r !! ID = None ∧ normalSegments r !! ID = None.
Proof.
  unfold isFlushedSegment, hasSegment.
  rewrite andb_true_iff, negb_true_iff, !orb_true_iff, !orb_false_iff.
  rewrite !bool_decide_eq_true, !bool_decide_eq_false, <- !eq_None_not_Some.
  split.
  - intros [[[Hn|Hn]|Hf] [[Hn' Hm'] _]]; try done.
    + rewrite Hn' in Hn. by destruct Hn.
    + rewrite Hm' in Hn. by destruct Hn.
  - intros (Hf & Hn & Hm). auto.
Qed.

Lemma inValidSegments_filter (compactedFrom : list Z) (r : SegmentReplica) :
  inValidSegments compactedFrom r =
  filter (λ ID, isFlushedSegment ID r = false) compactedFrom.
Proof.
  unfold inValidSegments. apply list_filter_iff. intros ID.
  unfold isFlushedSegment.
  destruct (hasSegment ID true r), (hasSegment ID false r); simpl;
    split; (done || auto).
Qed.



(** * Properties of the coordinator's catalog *)

(** ** The store *)

Lemma catalogAlterSegments_fails segs c f rest :
  faults c = Some f :: rest →
  catalogAlterSegments segs c =
  (Some (ErrStore (faultMsg f)),
   mkCatalog (persisted c) (deletedChannels c) (writes c) rest).
Proof. intros H. unfold catalogAlterSegments, nextFault. by rewrite H. Qed.

Lemma catalogAlterSegments_error segs c err c' :
  catalogAlterSegments segs c = (Some err, c') →
  ∃ f rest, faults c = Some f :: rest ∧ err = ErrStore (faultMsg f).
Proof.
  unfold catalogAlterSegments, nextFault.
  destruct (faults c) as [|[f|] rest]; intros [= <- <-] || intros [=]. eauto.
Qed.

(** ** SetState *)

(** C7 (amended): SetState on an unknown id returns nil and changes nothing.
    On an indexed segment, whatever its present state (a dropped one
    included), the record with the target state is written to the store if
    and only if the target state is a healthy one; if that write fails its
    error is returned and the index is left as it is; otherwise (written, or
    not to be written) the indexed record gets the target state and nil is
    returned. *)
Theorem C7_SetState_persists_iff_healthy
    (segmentID : Z) (targetState : SegmentState) (m : meta) :
  (segments m !! segmentID = None →
     SetState segmentID targetState m = (Returned None, m)) ∧
  (∀ cur, segments m !! segmentID = Some cur →
     let cloned := onInfo (withState targetState) cur in
     isSegmentHealthy (Some cloned) = healthyState targetState ∧
     (healthyState targetState = true →
        match catalogAlterSegments [segmentInfo cloned] (catalog m) with
        | (Some err, c) =>
            SetState segmentID targetState m =
            (Returned (Some err), mkMeta c (segments m))
        | (None, c) =>
            SetState segmentID targetState m =
            (Returned None, mkMeta c (<[segmentID := cloned]> (segments m)))
        end) ∧
     (healthyState targetState = false →
        SetState segmentID targetState m =
        (Returned None, mkMeta (catalog m) (<[segmentID := cloned]> (segments m))))).
Proof.
  unfold SetState, GetSegment. split.
  - by intros ->.
  - intros cur Hcur. cbv zeta. set (cloned := onInfo (withState targetState) cur).
    rewrite Hcur.
    assert (SegmentsInfo_SetState segmentID targetState (segments m) =
            <[segmentID := cloned]> (segments m)) as ->.
    { unfold SegmentsInfo_SetState. apply map_eq. intros k.
      destruct (decide (k = segmentID)) as [->|Hne].
      - by rewrite lookup_alter_eq, lookup_insert_eq, Hcur.
      - by rewrite lookup_alter_ne, lookup_insert_ne. }
    assert (isSegmentHealthy (Some cloned) = healthyState targetState) as Hh by done.
    unfold Clone. fold cloned. rewrite Hh. split_and!; [done| |].
    + intros ->. by destruct (catalogAlterSegments _ _) as [[err|] c].
    + by intros ->.
Qed.

(** C7, as stated, fails: a dropped segment is not left alone; set to
    Flushed, it is written to the store and changed in the index. *)
Lemma C7_dropped_segment_revived :
  State ∘ segmentInfo <$> segments sampleMetaDropped !! 1 = Some Dropped ∧
  (SetState 1 Flushed sampleMetaDropped).1 = Returned None ∧
  State ∘ segmentInfo <$> segments (SetState 1 Flushed sampleMetaDropped).2 !! 1
    = Some Flushed ∧
  State <$> persisted (catalog (SetState 1 Flushed sampleMetaDropped).2) !! 1
    = Some Flushed ∧
  persisted (catalog sampleMetaDropped) !! 1 = None.
Proof. vm_compute. done. Qed.

(** ** Persistence first *)

Lemma catalogSaveDroppedSegmentsInBatch_error segs c err c' :
  catalogSaveDroppedSegmentsInBatch segs c = (Some err, c') →
  ∃ f rest, faults c = Some f :: rest ∧ err = ErrStore (faultMsg f).
Proof.
  unfold catalogSaveDroppedSegmentsInBatch, nextFault.
  destruct (faults c) as [|[f|] rest]; intros [= <- <-] || intros [=]. eauto.
Qed.

Lemma catalogMarkChannelDeleted_error channel c err c' :
  catalogMarkChannelDeleted channel c = (Some err, c') →
  ∃ f rest, faults c = Some f :: rest ∧ err = ErrStore (faultMsg f).
Proof.
  unfold catalogMarkChannelDeleted, nextFault.
  destruct (faults c) as [|[f|] rest]; intros [= <- <-] || intros [=]. eauto.
Qed.

Lemma AddSegment_error segment m err :
  (AddSegment segment m).1 = Returned (Some err) →
  segments (AddSegment segment m).2 = segments m ∧
  ∃ f rest, faults (catalog m) = Some f :: rest ∧ err = ErrStore (faultMsg f).
Proof.
  unfold AddSegment, catalogAddSegment.
  destruct (catalogAlterSegments _ _) as [[e|] c] eqn:E; simpl; [|done].
  intros [= ->]. split; [done|]. by eapply catalogAlterSegments_error.
Qed.

Lemma SetState_error segmentID targetState m err :
  (SetState segmentID targetState m).1 = Returned (Some err) →
  segments (SetState segmentID targetState m).2 = segments m ∧
  ∃ f rest, faults (catalog m) = Some f :: rest ∧ err = ErrStore (faultMsg f).
Proof.
  unfold SetState.
  destruct (GetSegment _ _) as [cur|]; [|done].
  destruct (isSegmentHealthy _); [|done].
  destruct (catalogAlterSegments _ _) as [[e|] c] eqn:E; simpl; [|done].
  intros [= ->]. split; [done|]. by eapply catalogAlterSegments_error.
Qed.

Lemma UpdateFlushSegmentsInfo_error segmentID flushed dropped
    binlogs statslogs deltalogs checkpoints startPositions now m err :
  let r := UpdateFlushSegmentsInfo segmentID flushed dropped false
             binlogs statslogs deltalogs checkpoints startPositions now m in
  r.1 = Returned (Some err) →
  segments r.2 = segments m ∧
  ∃ f rest, faults (catalog m) = Some f :: rest ∧ err = ErrStore (faultMsg f).
Proof.
  unfold UpdateFlushSegmentsInfo. cbv zeta.
  destruct (GetSegment segmentID (segments m)) as [segment0|] eqn:E0; [|done].
  destruct (negb _); [done|].
  destruct (applyCheckPoints _ _ _) as [mods|]; [|done].
  destruct (catalogAlterSegments _ _) as [[e|] c] eqn:E; simpl; [|done].
  intros [= ->]. split; [done|]. by eapply catalogAlterSegments_error.
Qed.

Lemma UpdateFlushSegmentsInfo_not_returned segmentID flushed dropped
    binlogs statslogs deltalogs checkpoints startPositions now m :
  let r := UpdateFlushSegmentsInfo segmentID flushed dropped false
             binlogs statslogs deltalogs checkpoints startPositions now m in
  r.1 = Panicked → r.2 = m.
Proof.
  unfold UpdateFlushSegmentsInfo. cbv zeta.
  destruct (GetSegment segmentID (segments m)) as [segment0|] eqn:E0; [|done].
  destruct (negb _); [done|].
  destruct (applyCheckPoints _ _ _) as [mods|]; [|by destruct m].
  by destruct (catalogAlterSegments _ _) as [[e|] c].
Qed.

Lemma UpdateDropChannelSegmentInfo_error channel segs2Drop m err :
  (UpdateDropChannelSegmentInfo channel segs2Drop m).1 = Returned (Some err) →
  segments (UpdateDropChannelSegmentInfo channel segs2Drop m).2 = segments m ∧
  ∃ f, Some f ∈ take 2 (faults (catalog m)) ∧ err = ErrStore (faultMsg f).
Proof.
  unfold UpdateDropChannelSegmentInfo, batchSaveDropSegments.
  destruct (catalogSaveDroppedSegmentsInBatch _ _) as [[e|] c] eqn:E; simpl.
  - intros [= ->]. split; [done|].
    apply catalogSaveDroppedSegmentsInBatch_error in E as (f & rest & Hf & ->).
    exists f. rewrite Hf. split; [left|done].
  - destruct (catalogMarkChannelDeleted _ _) as [[e|] c'] eqn:E'; simpl; [|done].
    intros [= ->]. split; [done|].
    apply catalogMarkChannelDeleted_error in E' as (f & rest & Hf & ->).
    exists f. split; [|done].
    revert E Hf. unfold catalogSaveDroppedSegmentsInBatch, nextFault.
    destruct (faults (catalog m)) as [|[f0|] rest0]; intros [= <-]; simpl;
      intros Hf; try done.
    rewrite Hf. right. left.
Qed.

Lemma first_of_two {A} (x : A) (l rest : list A) : l = x :: rest → x ∈ take 2 l.
Proof. intros ->. left. Qed.

(** The paths that persist first: for AddSegment, SetState,
    UpdateDropChannelSegmentInfo, and UpdateFlushSegmentsInfo called
    without the importing flag, an error returned is the error of a failed
    write to the store (the first or, for the drop of a channel, the
    second), and the index is then exactly as before the call; when the
    coming write to the store is due to fail, the operation either returns
    that error with the index unchanged or does not call the store at all;
    and the index differs after the call only when the call returned nil. *)
Lemma persistence_first_without_importing (op : mutation) (m : meta) :
  importingFlag op = false →
  (∀ err, (run op m).1 = Returned (Some err) →
     segments (run op m).2 = segments m ∧
     ∃ f, Some f ∈ take 2 (faults (catalog m)) ∧ err = ErrStore (faultMsg f)) ∧
  (∀ f rest, faults (catalog m) = Some f :: rest →
     ((run op m).1 = Returned (Some (ErrStore (faultMsg f))) ∧
      segments (run op m).2 = segments m) ∨
     catalog (run op m).2 = catalog m) ∧
  (segments (run op m).2 ≠ segments m → (run op m).1 = Returned None).
Proof.
  intros Himp.
  assert (∀ err, (run op m).1 = Returned (Some err) →
     segments (run op m).2 = segments m ∧
     ∃ f, Some f ∈ take 2 (faults (catalog m)) ∧ err = ErrStore (faultMsg f)) as HA.
  { intros err Herr.
    destruct op as [segment|sid st|sid flushed dropped importing binlogs statslogs deltalogs checkpoints startPositions now|channel segs2Drop]; simpl in *.
    - destruct (AddSegment_error _ _ _ Herr) as (? & f & rest & Hf & ->).
      eauto using first_of_two.
    - destruct (SetState_error _ _ _ _ Herr) as (? & f & rest & Hf & ->).
      eauto using first_of_two.
    - subst importing.
      destruct (UpdateFlushSegmentsInfo_error _ _ _ _ _ _ _ _ _ _ _ Herr)
        as (? & f & rest & Hf & ->).
      eauto using first_of_two.
    - by apply UpdateDropChannelSegmentInfo_error. }
  split; [exact HA|]. split.
  - intros f rest Hf.
    destruct op as [segment|sid st|sid flushed dropped importing binlogs statslogs deltalogs checkpoints startPositions now|channel segs2Drop]; simpl in *.
    + left. unfold AddSegment, catalogAddSegment.
      by rewrite (catalogAlterSegments_fails _ _ _ _ Hf).
    + unfold SetState. destruct (GetSegment _ _); [|by right].
      destruct (isSegmentHealthy _); [|by right].
      left. by rewrite (catalogAlterSegments_fails _ _ _ _ Hf).
    + subst importing. unfold UpdateFlushSegmentsInfo. cbv zeta.
      destruct (GetSegment sid (segments m)); [|by right].
      destruct (negb _); [by right|].
      destruct (applyCheckPoints _ _ _); [|by right].
      left. by rewrite (catalogAlterSegments_fails _ _ _ _ Hf).
    + left. unfold UpdateDropChannelSegmentInfo, batchSaveDropSegments,
        catalogSaveDroppedSegmentsInBatch, nextFault. by rewrite Hf.
  - intros Hchanged.
    destruct (run op m).1 as [[err|]|] eqn:Ho; [|done|].
    + destruct (HA err eq_refl) as [Hsame _]. by destruct Hchanged.
    + exfalso. apply Hchanged.
      destruct op as [segment|sid st|sid flushed dropped importing binlogs statslogs deltalogs checkpoints startPositions now|channel segs2Drop]; simpl in *.
      * unfold AddSegment in Ho.
        by destruct (catalogAddSegment _ _) as [[e|] c].
      * unfold SetState in Ho. destruct (GetSegment _ _); [|done].
        destruct (isSegmentHealthy _); [|done].
        by destruct (catalogAlterSegments _ _) as [[e|] c].
      * subst importing.
        by rewrite (UpdateFlushSegmentsInfo_not_returned _ _ _ _ _ _ _ _ _ _ Ho).
      * unfold UpdateDropChannelSegmentInfo in Ho.
        by destruct (batchSaveDropSegments _ _ _).
Qed.

(** C1 fails on the code: with the importing flag, UpdateFlushSegmentsInfo
    sets the row count of the segment in the index before it writes to the
    store.  On the sample index, the growing segment 1 having no rows
    counted and five rows current, and the write to the store failing, the
    call returns the error of the store and the index keeps the new row
    count of five, so that it is not the index of before the call.  The
    same call without the importing flag returns the same error and leaves
    the index as it was. *)
Lemma C1_importing_changes_index_before_write :
  let r := UpdateFlushSegmentsInfo 1 false false true [] [] [] [] [] 0
             (sampleMeta [unavailable]) in
  let r0 := UpdateFlushSegmentsInfo 1 false false false [] [] [] [] [] 0
              (sampleMeta [unavailable]) in
  r.1 = Returned (Some (ErrStore "etcd unavailable")) ∧
  NumOfRows ∘ segmentInfo <$> segments (sampleMeta [unavailable]) !! 1 = Some 0 ∧
  NumOfRows ∘ segmentInfo <$> segments r.2 !! 1 = Some 5 ∧
  segments r.2 ≠ segments (sampleMeta [unavailable]) ∧
  r0.1 = Returned (Some (ErrStore "etcd unavailable")) ∧
  segments r0.2 = segments (sampleMeta [unavailable]).
Proof.
  cbv zeta. split_and!; [by vm_compute..| |by vm_compute|by vm_compute].
  intros Heq.
  assert (NumOfRows ∘ segmentInfo <$>
            segments (UpdateFlushSegmentsInfo 1 false false true [] [] [] [] [] 0
                        (sampleMeta [unavailable])).2 !! 1 = Some 0) as Hrows.
  { rewrite Heq. by vm_compute. }
  vm_compute in Hrows. discriminate Hrows.
Qed.

(** ** Compaction *)

Lemma logsByPath_lookup (l : list Binlog) :
  ∀ (init : gmap string Binlog) p b,
    foldl (λ l d, <[LogPath d := d]> l) init l !! p = Some b →
    (b ∈ l ∧ LogPath b = p) ∨ init !! p = Some b.
Proof.
  induction l as [|d l IH]; intros init p b; simpl; [by right|].
  intros [H|H]%IH.
  - destruct H as [Hb Hp]. left. split; [by right|done].
  - destruct (decide (LogPath d = p)) as [<-|Hne].
    + rewrite lookup_insert_eq in H. injection H as <-. left. split; [left|done].
    + rewrite lookup_insert_ne in H by done. by right.
Qed.

Lemma logsByPath_is_Some (l : list Binlog) :
  ∀ (init : gmap string Binlog) p,
    (is_Some (init !! p) ∨ ∃ b, b ∈ l ∧ LogPath b = p) →
    is_Some (foldl (λ l d, <[LogPath d := d]> l) init l !! p).
Proof.
  induction l as [|d l IH]; intros init p; simpl.
  - intros [H|(b & Hb & _)]; [done|]. by apply elem_of_nil in Hb.
  - intros H. apply IH.
    destruct (decide (LogPath d = p)) as [<-|Hne].
    + left. by rewrite lookup_insert_eq.
    + rewrite lookup_insert_ne by done.
      destruct H as [H|(b & [->|Hb]%elem_of_cons & Hp)]; [by left|done|].
      right. by exists b.
Qed.

Lemma deletePaths_lookup (rs : list Binlog) :
  ∀ (init : gmap string Binlog) p,
    foldl (λ l r, delete (LogPath r) l) init rs !! p =
    if decide (p ∈ LogPath <$> rs) then None else init !! p.
Proof.
  induction rs as [|r rs IH]; intros init p; simpl.
  - done.
  - rewrite IH.
    destruct (decide (p ∈ LogPath <$> rs)) as [H1|H1];
      destruct (decide (p ∈ LogPath r :: _)) as [H2|H2]; try done.
    + exfalso. apply H2. by right.
    + apply elem_of_cons in H2 as [->|?]; [|done]. by rewrite lookup_delete_eq.
    + rewrite lookup_delete_ne; [done|]. intros <-. apply H2. left.
Qed.

Lemma removeLogs_removed (fid : Z) (removes : list FieldBinlog) :
  ∀ (init : gmap string Binlog) p,
    (init !! p = None ∨ hasLog fid p removes) →
    foldl (removeLogs fid) init removes !! p = None.
Proof.
  induction removes as [|r removes IH]; intros init p; simpl.
  - intros [H|(fb & b & Hfb & _)]; [done|]. by apply elem_of_nil in Hfb.
  - intros H. apply IH. unfold removeLogs.
    case_bool_decide as Hfid.
    + rewrite deletePaths_lookup.
      destruct (decide (p ∈ LogPath <$> Binlogs r)) as [Hin|Hnin]; [by left|].
      destruct H as [H|(fb & b & [->|Hfb]%elem_of_cons & Hf & Hb & Hp)]; [by left| |].
      * exfalso. apply Hnin. apply list_elem_of_fmap. by exists b.
      * right. by exists fb, b.
    + destruct H as [H|(fb & b & [->|Hfb]%elem_of_cons & Hf & Hb & Hp)];
        [by left|done|].
      right. by exists fb, b.
Qed.

Lemma removeLogs_kept (fid : Z) (removes : list FieldBinlog) :
  ∀ (init : gmap string Binlog) p,
    ¬ hasLog fid p removes →
    foldl (removeLogs fid) init removes !! p = init !! p.
Proof.
  induction removes as [|r removes IH]; intros init p Hno; simpl; [done|].
  rewrite IH.
  - unfold removeLogs. case_bool_decide as Hfid; [|done].
    rewrite deletePaths_lookup, decide_False; [done|].
    intros (b & -> & Hb)%list_elem_of_fmap. apply Hno.
    exists r, b. split_and!; try done. left.
  - intros (fb & b & Hfb & Hrest). apply Hno. exists fb, b. split; [by right|done].
Qed.

Lemma remainingLogs_lookup (removes : list FieldBinlog) (fbl : FieldBinlog) p b :
  remainingLogs removes fbl !! p = Some b →
  b ∈ Binlogs fbl ∧ LogPath b = p ∧ ¬ hasLog (FieldID fbl) p removes.
Proof.
  unfold remainingLogs. intros Hlook.
  assert (¬ hasLog (FieldID fbl) p removes) as Hno.
  { intros Hhas. rewrite removeLogs_removed in Hlook by (by right). done. }
  rewrite removeLogs_kept in Hlook by done.
  apply logsByPath_lookup in Hlook as [[? ?]|Hempty]; [done|].
  by rewrite lookup_empty in Hempty.
Qed.

Lemma remainingLogs_is_Some (removes : list FieldBinlog) (fbl : FieldBinlog) b :
  b ∈ Binlogs fbl → ¬ hasLog (FieldID fbl) (LogPath b) removes →
  is_Some (remainingLogs removes fbl !! LogPath b).
Proof.
  intros Hb Hno. unfold remainingLogs. rewrite removeLogs_kept by done.
  apply logsByPath_is_Some. right. by exists b.
Qed.

Lemma updateDeltalogs_hasLog (origin removes : list FieldBinlog) f p :
  hasLog f p (updateDeltalogs origin removes) ↔
  hasLog f p origin ∧ ¬ hasLog f p removes.
Proof.
  unfold updateDeltalogs. split.
  - intros (fb & b & Hfb & Hf & Hb & Hp).
    apply list_elem_of_In, in_flat_map in Hfb as (fbl & Hfbl%list_elem_of_In & Hfb).
    case_bool_decide; [|done]. destruct Hfb as [<-|[]]. simpl in *.
    apply list_elem_of_fmap in Hb as ([key b'] & -> & Hkb).
    apply elem_of_map_to_list, remainingLogs_lookup in Hkb as (Hin & Hpath & Hno).
    simpl in *. subst key f. split; [|by rewrite <- Hp].
    exists fbl, b'. by rewrite <- Hp.
  - intros [(fbl & b & Hfbl & Hf & Hb & Hp) Hno]. subst f p.
    destruct (remainingLogs_is_Some removes fbl b Hb Hno) as [b' Hb'].
    pose proof (remainingLogs_lookup _ _ _ _ Hb') as (Hin' & Hp' & _).
    set (binlogs := (map_to_list (remainingLogs removes fbl)).*2).
    assert (b' ∈ binlogs) as Hmem.
    { apply list_elem_of_fmap. exists (LogPath b, b'). split; [done|].
      by apply elem_of_map_to_list. }
    exists (mkFieldBinlog (FieldID fbl) binlogs), b'. split_and!; try done.
    apply list_elem_of_In, in_flat_map. exists fbl.
    split; [by apply list_elem_of_In|].
    fold binlogs. rewrite bool_decide_eq_true_2; [by left|].
    destruct binlogs; [by apply elem_of_nil in Hmem|simpl; lia].
Qed.

Lemma earlierPosition_earliest {A} (f : A → option MsgPosition) (l : list A) :
  ∀ seen cur, earliestOf cur seen →
    earliestOf (foldl (λ cur s, earlierPosition cur (f s)) cur l) (seen ++ (f <$> l)).
Proof.
  induction l as [|s l IH]; intros seen cur Hcur; simpl.
  - by rewrite app_nil_r.
  - rewrite cons_middle, app_assoc. apply IH.
    unfold earlierPosition, earliestOf in *.
    destruct cur as [c|].
    + destruct Hcur as [Hin Hmin]. destruct (f s) as [q|].
      * case_bool_decide as Hlt.
        -- split; [apply elem_of_app; right; left|].
           intros p [Hp|Hp%list_elem_of_singleton]%elem_of_app.
           ++ specialize (Hmin p Hp). lia.
           ++ injection Hp as ->. lia.
        -- split; [apply elem_of_app; by left|].
           intros p [Hp|Hp%list_elem_of_singleton]%elem_of_app; [by apply Hmin|].
           injection Hp as ->. lia.
      * split; [apply elem_of_app; by left|].
        intros p [Hp|Hp%list_elem_of_singleton]%elem_of_app; [by apply Hmin|done].
    + destruct (f s) as [q|].
      * split; [apply elem_of_app; right; left|].
        intros p [Hp|Hp%list_elem_of_singleton]%elem_of_app.
        -- by specialize (Hcur _ Hp).
        -- injection Hp as ->. lia.
      * intros p [Hp|Hp%list_elem_of_singleton]%elem_of_app; [by apply Hcur|done].
Qed.

Lemma GetCompleteCompactionMeta_found compactionLogs result now m first rest :
  foundSources compactionLogs (segments m) = first :: rest →
  GetCompleteCompactionMeta compactionLogs result now m =
  (m, Some (segmentInfo <$> first :: rest, droppedAt now <$> first :: rest,
            NewSegmentInfo
              (compactedTo_info compactionLogs result first
                 (droppedAt now <$> first :: rest)))).
Proof. intros H. unfold GetCompleteCompactionMeta. rewrite H. reflexivity. Qed.

(** C6: GetCompleteCompactionMeta leaves the catalog (store and index) as
    it is.  With no source indexed it panics; otherwise it returns: the
    indexed sources as they are, as the snapshots; the same sources marked
    Dropped with the drop time, as the changed sources; and a new segment in
    state Flushing, with the result's id, row count and logs, whose dml and
    start positions are positions of sources with the least timestamp, whose
    compactionFrom is the list of the ids of the indexed sources, and whose
    deltalogs are those of the result followed by the deltalogs of the
    sources that the plan does not name for the same field. *)
Theorem C6_GetCompleteCompactionMeta
    (compactionLogs : list CompactionSegmentBinlogs) (result : CompactionResult)
    (now : Z) (m : meta) :
  let found := foundSources compactionLogs (segments m) in
  let r := GetCompleteCompactionMeta compactionLogs result now m in
  r.1 = m ∧
  (found = [] → r.2 = None) ∧
  (found ≠ [] →
     ∃ new, r.2 = Some (segmentInfo <$> found, droppedAt now <$> found, new) ∧
       (∀ s, s ∈ droppedAt now <$> found →
             State (segmentInfo s) = Dropped ∧ DroppedAt (segmentInfo s) = now) ∧
       ID (segmentInfo new) = res_SegmentID result ∧
       NumOfRows (segmentInfo new) = res_NumOfRows result ∧
       State (segmentInfo new) = Flushing ∧
       SegBinlogs (segmentInfo new) = res_InsertLogs result ∧
       Statslogs (segmentInfo new) = res_Field2StatslogPaths result ∧
       CompactionFrom (segmentInfo new) = (λ s, ID (segmentInfo s)) <$> found ∧
       earliestOf (DmlPosition (segmentInfo new))
         ((λ s, DmlPosition (segmentInfo s)) <$> found) ∧
       earliestOf (StartPosition (segmentInfo new))
         ((λ s, StartPosition (segmentInfo s)) <$> found) ∧
       (∃ added, Deltalogs (segmentInfo new) = res_Deltalogs result ++ added ∧
          ∀ f p, hasLog f p added ↔
                 hasLog f p (flat_map (λ s, Deltalogs (segmentInfo s)) found) ∧
                 ¬ hasLog f p (flat_map cl_Deltalogs compactionLogs))).
Proof.
  intros found r. subst r found.
  destruct (foundSources compactionLogs (segments m)) as [|first rest] eqn:Hfound.
  { unfold GetCompleteCompactionMeta. rewrite Hfound. by split_and!. }
  rewrite (GetCompleteCompactionMeta_found _ _ _ _ _ _ Hfound).
  split; [done|]. split; [done|]. intros _.
  eexists. split; [reflexivity|].
  unfold NewSegmentInfo, compactedTo_info.
  cbn [segmentInfo ID NumOfRows State SegBinlogs Statslogs Deltalogs
       CompactionFrom DmlPosition StartPosition].
  split_and!; try done.
  - by intros s (s0 & -> & _)%list_elem_of_fmap.
  - by rewrite <- list_fmap_compose.
  - pose proof (earlierPosition_earliest
      (λ s, DmlPosition (segmentInfo s)) (droppedAt now <$> first :: rest) [] None) as H.
    rewrite <- list_fmap_compose in H. apply H. by intros p ?%elem_of_nil.
  - pose proof (earlierPosition_earliest
      (λ s, StartPosition (segmentInfo s)) (droppedAt now <$> first :: rest) [] None) as H.
    rewrite <- list_fmap_compose in H. apply H. by intros p ?%elem_of_nil.
  - eexists. split; [reflexivity|]. intros f p.
    rewrite updateDeltalogs_hasLog.
    assert (∀ l, flat_map (λ s, Deltalogs (segmentInfo s)) (droppedAt now <$> l) =
                 flat_map (λ s, Deltalogs (segmentInfo s)) l) as Hflat.
    { clear. induction l as [|s l IH]; [done|].
      rewrite fmap_cons. cbn [flat_map]. by rewrite IH. }
    by rewrite Hflat.
Qed.

Lemma foundSources_all (compactionLogs : list CompactionSegmentBinlogs)
    (segs : gmap Z SegmentInfo) :
  wfIndex segs →
  (∀ cl, cl ∈ compactionLogs → is_Some (segs !! cl_SegmentID cl)) →
  (λ s, ID (segmentInfo s)) <$> foundSources compactionLogs segs =
    cl_SegmentID <$> compactionLogs ∧
  ∀ s, s ∈ foundSources compactionLogs segs → segs !! ID (segmentInfo s) = Some s.
Proof.
  intros Hwf. unfold foundSources, GetSegment.
  induction compactionLogs as [|cl l IH]; intros Hall.
  - split; [done|]. by intros s ?%elem_of_nil.
  - destruct (Hall cl) as [s Hs]; [left|].
    destruct IH as [IH1 IH2]; [intros; apply Hall; by right|].
    assert (omap (λ cl, segs !! cl_SegmentID cl) (cl :: l) =
            s :: omap (λ cl, segs !! cl_SegmentID cl) l) as ->.
    { cbn. by rewrite Hs. }
    rewrite !fmap_cons, IH1, (Hwf _ _ Hs). split; [done|].
    intros s' [->|Hs']%elem_of_cons; [|by apply IH2].
    by rewrite (Hwf _ _ Hs).
Qed.

Lemma setSegments_lookup (l : list SegmentInfo) :
  ∀ (segs : gmap Z SegmentInfo) id,
    (∃ s, s ∈ l ∧ ID (segmentInfo s) = id ∧
          foldl (λ segs s, SetSegment (ID (segmentInfo s)) s segs) segs l !! id = Some s) ∨
    ((∀ s, s ∈ l → ID (segmentInfo s) ≠ id) ∧
     foldl (λ segs s, SetSegment (ID (segmentInfo s)) s segs) segs l !! id = segs !! id).
Proof.
  induction l as [|s0 l IH]; intros segs id; simpl.
  - right. split; [by intros s ?%elem_of_nil|done].
  - destruct (IH (SetSegment (ID (segmentInfo s0)) s0 segs) id)
      as [(s & Hs & Hid & Hlook)|[Hnone Hlook]].
    + left. exists s. split; [by right|done].
    + rewrite Hlook. unfold SetSegment.
      destruct (decide (ID (segmentInfo s0) = id)) as [Heq|Hne].
      * left. exists s0. rewrite Heq, lookup_insert_eq.
        split; [left|done].
      * right. rewrite lookup_insert_ne by done. split; [|done].
        intros s [->|Hs]%elem_of_cons; [done|by apply Hnone].
Qed.

(** C5: a compaction whose sources are all indexed (each under its own id),
    with a result id that is none of the sources, applied by
    GetCompleteCompactionMeta followed by alterInMemoryMetaAfterCompaction:
    every source is then indexed in state Dropped; with a row count that is
    not positive the result is not put into the index (what is indexed under
    its id stays, and every healthy indexed segment was indexed before, as it
    is); with a positive row count the new segment is indexed under the
    result's id, in state Flushing and with compactionFrom the list of the
    source ids. *)
Theorem C5_compaction_applied
    (compactionLogs : list CompactionSegmentBinlogs) (result : CompactionResult)
    (now : Z) (m : meta) :
  compactionLogs ≠ [] →
  wfIndex (segments m) →
  (∀ cl, cl ∈ compactionLogs → is_Some (segments m !! cl_SegmentID cl)) →
  res_SegmentID result ∉ cl_SegmentID <$> compactionLogs →
  ∃ old mods new,
    GetCompleteCompactionMeta compactionLogs result now m = (m, Some (old, mods, new)) ∧
    let m' := alterInMemoryMetaAfterCompaction new mods m in
    (∀ cl, cl ∈ compactionLogs →
       ∃ s, segments m' !! cl_SegmentID cl = Some s ∧
            State (segmentInfo s) = Dropped) ∧
    (res_NumOfRows result ≤ 0 →
       segments m' !! res_SegmentID result = segments m !! res_SegmentID result ∧
       ∀ id s, segments m' !! id = Some s → isSegmentHealthy (Some s) = true →
               segments m !! id = Some s) ∧
    (0 < res_NumOfRows result →
       segments m' !! res_SegmentID result = Some new ∧
       State (segmentInfo new) = Flushing ∧
       NumOfRows (segmentInfo new) = res_NumOfRows result ∧
       CompactionFrom (segmentInfo new) = cl_SegmentID <$> compactionLogs).
Proof.
  intros Hne Hwf Hall Hfresh.
  destruct (foundSources_all compactionLogs (segments m) Hwf Hall) as [Hids Hfound].
  destruct (foundSources compactionLogs (segments m)) as [|first rest] eqn:Efound.
  { destruct compactionLogs; [done|]. discriminate Hids. }
  rewrite (GetCompleteCompactionMeta_found _ _ _ _ _ _ Efound).
  set (found := first :: rest) in *.
  set (new := NewSegmentInfo _).
  exists (segmentInfo <$> found), (droppedAt now <$> found), new.
  split; [done|]. cbv zeta.
  assert (∀ id,
    (∃ s, s ∈ found ∧ ID (segmentInfo s) = id ∧
          foldl (λ segs s, SetSegment (ID (segmentInfo s)) s segs)
            (segments m) (droppedAt now <$> found) !! id = Some (droppedAt now s)) ∨
    (¬ id ∈ cl_SegmentID <$> compactionLogs ∧
     foldl (λ segs s, SetSegment (ID (segmentInfo s)) s segs)
       (segments m) (droppedAt now <$> found) !! id = segments m !! id)) as Hset.
  { intros id.
    destruct (setSegments_lookup (droppedAt now <$> found) (segments m) id)
      as [(s & Hs & Hid & Hlook)|[Hnone Hlook]].
    - apply list_elem_of_fmap in Hs as (s0 & -> & Hs0). left. by exists s0.
    - right. split; [|done]. rewrite <- Hids.
      intros (s & -> & Hs)%list_elem_of_fmap.
      apply (Hnone (droppedAt now s)); [|done].
      apply list_elem_of_fmap. by exists s. }
  assert (ID (segmentInfo new) = res_SegmentID result) as Hnewid by done.
  unfold alterInMemoryMetaAfterCompaction.
  assert (NumOfRows (segmentInfo new) = res_NumOfRows result) as -> by done.
  split_and!.
  - intros cl Hcl.
    assert (cl_SegmentID cl ∈ cl_SegmentID <$> compactionLogs) as Hin
      by (apply list_elem_of_fmap; by exists cl).
    destruct (Hset (cl_SegmentID cl)) as [(s & Hs & Hid & Hlook)|[Hnot _]]; [|done].
    exists (droppedAt now s). split; [|done].
    case_bool_decide; cbn [segments]; [|done].
    unfold SetSegment at 1. rewrite lookup_insert_ne; [done|].
    rewrite Hnewid. intros Heq. apply Hfresh. by rewrite Heq.
  - intros Hrows. rewrite bool_decide_eq_false_2 by lia. cbn [segments]. split.
    + destruct (Hset (res_SegmentID result)) as [(s & Hs & Hid & Hlook)|[_ Hlook]];
        [|done].
      exfalso. apply Hfresh. rewrite <- Hids, <- Hid.
      apply list_elem_of_fmap. by exists s.
    + intros id s Hlook Hhealthy.
      destruct (Hset id) as [(s0 & Hs0 & Hid & Hlook0)|[_ Hlook0]].
      * rewrite Hlook0 in Hlook. injection Hlook as <-. done.
      * by rewrite <- Hlook0.
  - intros Hrows. rewrite bool_decide_eq_true_2 by lia. cbn [segments].
    unfold SetSegment at 1. rewrite Hnewid, lookup_insert_eq.
    split_and!; try done.
    subst new. unfold NewSegmentInfo, compactedTo_info. simpl CompactionFrom.
    by rewrite <- list_fmap_compose, <- Hids.
Qed.

(** ** The loops of UpdateFlushSegmentsInfo *)

Lemma getClonedSegment_mods segs (mods : gmap Z SegmentInfo) k s :
  mods !! k = Some s → getClonedSegment segs mods k = Some s.
Proof. intros H. unfold getClonedSegment. by rewrite H. Qed.

Lemma getClonedSegment_Some segs (mods : gmap Z SegmentInfo) k s :
  getClonedSegment segs mods k = Some s →
  mods !! k = Some s ∨
  (mods !! k = None ∧ segs !! k = Some s ∧ isSegmentHealthy (Some s) = true).
Proof.
  unfold getClonedSegment, GetSegment, Clone.
  destruct (mods !! k) as [s'|]; [intros [= ->]; by left|].
  destruct (segs !! k) as [s'|]; [|done].
  destruct (isSegmentHealthy (Some s')) eqn:Hh; [|done].
  intros [= ->]. by right.
Qed.

Lemma getClonedSegment_ext segs (mods mods' : gmap Z SegmentInfo) k :
  mods' !! k = mods !! k → getClonedSegment segs mods' k = getClonedSegment segs mods k.
Proof. intros H. unfold getClonedSegment. by rewrite H. Qed.

Lemma applyStartPosition_lookup segs (mods : gmap Z SegmentInfo) pos k :
  applyStartPosition segs mods pos !! k = mods !! k ∨
  ∃ s p, k = sp_SegmentID pos ∧ getClonedSegment segs mods k = Some s ∧
         applyStartPosition segs mods pos !! k =
         Some (onInfo (withStartPosition (Some p)) s).
Proof.
  unfold applyStartPosition.
  destruct (sp_StartPosition pos) as [p|]; [|by left].
  case_bool_decide; [by left|].
  destruct (getClonedSegment segs mods (sp_SegmentID pos)) as [s|] eqn:E; [|by left].
  destruct (decide (k = sp_SegmentID pos)) as [->|Hne].
  - right. exists s, p. by rewrite lookup_insert_eq.
  - left. by rewrite lookup_insert_ne.
Qed.

Lemma applyCheckPoint_lookup segs (mods mods' : gmap Z SegmentInfo) cp k :
  applyCheckPoint segs mods cp = Some mods' →
  mods' !! k = mods !! k ∨
  ∃ s, k = cp_SegmentID cp ∧ getClonedSegment segs mods k = Some s ∧
       mods' !! k = Some (checkpointed cp s) ∧
       (DmlPosition (segmentInfo s) = None ∨
        ∃ d p, DmlPosition (segmentInfo s) = Some d ∧ cp_Position cp = Some p ∧
               Timestamp d < Timestamp p).
Proof.
  unfold applyCheckPoint.
  destruct (getClonedSegment segs mods (cp_SegmentID cp)) as [s|] eqn:E;
    [|intros [= <-]; by left].
  fold (checkpointed cp s).
  destruct (decide (k = cp_SegmentID cp)) as [->|Hne].
  - destruct (DmlPosition (segmentInfo s)) as [d|] eqn:Ed.
    + destruct (cp_Position cp) as [p|] eqn:Ep; [|done].
      case_bool_decide; intros [= <-]; [by left|].
      right. exists s. rewrite lookup_insert_eq. split_and!; try done.
      right. exists d, p. split_and!; try done. lia.
    + intros [= <-]. right. exists s. rewrite lookup_insert_eq.
      split_and!; try done. by left.
  - intros Hres. left.
    destruct (DmlPosition (segmentInfo s)) as [d|].
    + destruct (cp_Position cp) as [p|]; [|done].
      case_bool_decide; injection Hres as <-; [done|].
      by rewrite lookup_insert_ne.
    + injection Hres as <-. by rewrite lookup_insert_ne.
Qed.

(** ** Merging of log lists *)

Lemma logsOf_app f (l1 l2 : list FieldBinlog) :
  logsOf f (l1 ++ l2) = logsOf f l1 ++ logsOf f l2.
Proof. unfold logsOf. apply flat_map_app. Qed.

Lemma logsOf_cons f (fb : FieldBinlog) (l : list FieldBinlog) :
  logsOf f (fb :: l) =
  (if bool_decide (FieldID fb = f) then Binlogs fb else []) ++ logsOf f l.
Proof. reflexivity. Qed.

Lemma mergeFieldBinlog_logsOf f (cur : list FieldBinlog) (tB : FieldBinlog) :
  logsOf f (mergeFieldBinlog cur tB) ≡ₚ logsOf f cur ++ logsOf f [tB].
Proof.
  unfold mergeFieldBinlog, getFieldBinlogs.
  destruct (list_find _ cur) as [[i fb]|] eqn:E.
  - apply list_find_Some in E as (Hi & Hid & _).
    rewrite insert_take_drop by (by eapply lookup_lt_Some).
    rewrite <- (take_drop_middle cur i fb Hi) at 3.
    rewrite !logsOf_app, !logsOf_cons. cbn [FieldID Binlogs].
    rewrite <- Hid. unfold logsOf at 5. cbn [flat_map]. rewrite !app_nil_r.
    case_bool_decide.
    + rewrite <- !app_assoc. apply Permutation_app_head.
      apply Permutation_app_head, Permutation_app_comm.
    + by rewrite app_nil_r.
  - by rewrite logsOf_app.
Qed.

Lemma mergeFieldBinlogs_logsOf f (incoming : list FieldBinlog) :
  ∀ cur, logsOf f (mergeFieldBinlogs cur incoming) ≡ₚ logsOf f cur ++ logsOf f incoming.
Proof.
  unfold mergeFieldBinlogs.
  induction incoming as [|tB l IH]; intros cur; simpl.
  - by rewrite app_nil_r.
  - rewrite IH, mergeFieldBinlog_logsOf. rewrite <- app_assoc.
    apply Permutation_app_head. unfold logsOf. simpl. by rewrite app_nil_r.
Qed.

(** ** UpdateFlushSegmentsInfo, case by case *)

Lemma SetRowCount_lookup (sid k rows : Z) (segs : gmap Z SegmentInfo) :
  SegmentsInfo_SetRowCount sid rows segs !! k =
  if decide (k = sid) then onInfo (withNumOfRows rows) <$> segs !! k else segs !! k.
Proof.
  unfold SegmentsInfo_SetRowCount. case_decide as Hk.
  - subst k. by rewrite lookup_alter_eq.
  - by rewrite lookup_alter_ne.
Qed.

Lemma UpdateFlushSegmentsInfo_cases (sid : Z) (flushed dropped importing : bool)
    (binlogs statslogs deltalogs : list FieldBinlog)
    (checkpoints : list CheckPoint) (startPositions : list SegmentStartPosition)
    (now : Z) (m : meta) (s0 : SegmentInfo) :
  segments m !! sid = Some s0 →
  let segs := if importing
              then SegmentsInfo_SetRowCount sid (currRows s0) (segments m)
              else segments m in
  let segment := if importing then onInfo (withNumOfRows (currRows s0)) s0 else s0 in
  let cloned := flushedClone flushed dropped binlogs statslogs deltalogs now segment in
  let r := UpdateFlushSegmentsInfo sid flushed dropped importing
             binlogs statslogs deltalogs checkpoints startPositions now m in
  segs !! sid = Some segment ∧
  isSegmentHealthy (Some segment) = isSegmentHealthy (Some s0) ∧
  ((isSegmentHealthy (Some s0) = false ∧
    r = (Returned None, mkMeta (catalog m) segs)) ∨
   (isSegmentHealthy (Some s0) = true ∧
    applyCheckPoints segs (foldl (applyStartPosition segs) {[sid := cloned]} startPositions)
      checkpoints = None ∧
    r = (Panicked, mkMeta (catalog m) segs)) ∨
   (isSegmentHealthy (Some s0) = true ∧
    ∃ mods,
      applyCheckPoints segs (foldl (applyStartPosition segs) {[sid := cloned]} startPositions)
        checkpoints = Some mods ∧
      ((∃ err c, catalogAlterSegments (infosOf mods) (catalog m) = (Some err, c) ∧
                 r = (Returned (Some err), mkMeta c segs)) ∨
       (∃ c, catalogAlterSegments (infosOf mods) (catalog m) = (None, c) ∧
             r = (Returned None, mkMeta c (mods ∪ segs)))))).
Proof.
  intros Hs0 segs segment cloned r.
  assert (segs !! sid = Some segment) as Hseg.
  { subst segs segment. destruct importing; [|done].
    by rewrite SetRowCount_lookup, decide_True, Hs0. }
  assert (isSegmentHealthy (Some segment) = isSegmentHealthy (Some s0)) as Hh.
  { subst segment. by destruct importing. }
  split; [done|]. split; [done|].
  subst r. unfold UpdateFlushSegmentsInfo, GetSegment. rewrite Hs0. cbv zeta.
  fold segs. rewrite Hseg, Hh. fold cloned.
  destruct (isSegmentHealthy (Some s0)); simpl; [|by left].
  right. destruct (applyCheckPoints _ _ _) as [mods|]; [|by left].
  right. split; [done|]. exists mods. split; [done|].
  destruct (catalogAlterSegments _ _) as [[err|] c]; [left|right]; eauto.
Qed.

(** With the importing flag, whatever the call returns, the index holds the
    row count set before the write: after a call that did not return nil
    on an indexed segment, the index is the one of before with the rows of
    the segment set to its current rows. *)
Lemma importing_sets_rows_before_write (sid : Z) (flushed dropped : bool)
    (binlogs statslogs deltalogs : list FieldBinlog)
    (checkpoints : list CheckPoint) (startPositions : list SegmentStartPosition)
    (now : Z) (m : meta) (s0 : SegmentInfo) :
  segments m !! sid = Some s0 →
  let r := UpdateFlushSegmentsInfo sid flushed dropped true
             binlogs statslogs deltalogs checkpoints startPositions now m in
  r.1 ≠ Returned None →
  segments r.2 = SegmentsInfo_SetRowCount sid (currRows s0) (segments m).
Proof.
  intros Hs0. cbv zeta.
  destruct (UpdateFlushSegmentsInfo_cases sid flushed dropped true binlogs statslogs
              deltalogs checkpoints startPositions now m s0 Hs0)
    as (_ & _ & [[_ ->]|[(_ & _ & ->)|(_ & mods & _ & Hr)]]); [done..|].
  by destruct Hr as [(err & c & _ & ->)|(c & _ & ->)].
Qed.

Lemma startPositions_keep_logs segs sid (startPositions : list SegmentStartPosition) :
  ∀ (mods : gmap Z SegmentInfo) s,
    mods !! sid = Some s →
    ∃ s', foldl (applyStartPosition segs) mods startPositions !! sid = Some s' ∧
          logsOfSegment s' = logsOfSegment s.
Proof.
  induction startPositions as [|pos l IH]; intros mods s Hs; simpl; [by exists s|].
  destruct (applyStartPosition_lookup segs mods pos sid)
    as [Hsame|(s1 & p & _ & Hget & Hnew)].
  - apply (IH _ s). by rewrite Hsame.
  - rewrite (getClonedSegment_mods _ _ _ _ Hs) in Hget. injection Hget as <-.
    destruct (IH _ _ Hnew) as (s' & Hs' & Hlogs). by exists s'.
Qed.

Lemma checkPoints_keep_logs segs sid (checkpoints : list CheckPoint) :
  ∀ (mods mods' : gmap Z SegmentInfo) s,
    applyCheckPoints segs mods checkpoints = Some mods' →
    mods !! sid = Some s →
    ∃ s', mods' !! sid = Some s' ∧ logsOfSegment s' = logsOfSegment s.
Proof.
  induction checkpoints as [|cp l IH]; intros mods mods' s Hrun Hs; simpl in Hrun.
  - injection Hrun as <-. by exists s.
  - destruct (applyCheckPoint segs mods cp) as [mods1|] eqn:E; [|done].
    destruct (applyCheckPoint_lookup segs mods mods1 cp sid E)
      as [Hsame|(s1 & _ & Hget & Hnew & _)].
    + apply (IH _ _ s Hrun). by rewrite Hsame.
    + rewrite (getClonedSegment_mods _ _ _ _ Hs) in Hget. injection Hget as <-.
      destruct (IH _ _ _ Hrun Hnew) as (s' & Hs' & Hlogs). by exists s'.
Qed.

(** C2 (amended): UpdateFlushSegmentsInfo merges the incoming binlogs and
    deltalogs into those of the segment by field id and without looking at
    the paths: after a call that returned nil on a healthy segment, the logs
    of every field are those it had together with all the incoming ones of
    that field, a path that was there being there once more; the statslogs
    are replaced by the incoming ones when there are some, and kept
    otherwise. *)
Theorem C2_flush_appends_logs
    (sid : Z) (flushed dropped importing : bool)
    (binlogs statslogs deltalogs : list FieldBinlog)
    (checkpoints : list CheckPoint) (startPositions : list SegmentStartPosition)
    (now : Z) (m m' : meta) (s0 : SegmentInfo) :
  segments m !! sid = Some s0 →
  isSegmentHealthy (Some s0) = true →
  UpdateFlushSegmentsInfo sid flushed dropped importing
    binlogs statslogs deltalogs checkpoints startPositions now m = (Returned None, m') →
  ∃ s', segments m' !! sid = Some s' ∧
    SegBinlogs (segmentInfo s') = mergeFieldBinlogs (SegBinlogs (segmentInfo s0)) binlogs ∧
    Deltalogs (segmentInfo s') = mergeFieldBinlogs (Deltalogs (segmentInfo s0)) deltalogs ∧
    Statslogs (segmentInfo s') =
      (if bool_decide (statslogs = []) then Statslogs (segmentInfo s0) else statslogs) ∧
    (∀ f, logsOf f (SegBinlogs (segmentInfo s')) ≡ₚ
          logsOf f (SegBinlogs (segmentInfo s0)) ++ logsOf f binlogs) ∧
    (∀ f, logsOf f (Deltalogs (segmentInfo s')) ≡ₚ
          logsOf f (Deltalogs (segmentInfo s0)) ++ logsOf f deltalogs).
Proof.
  intros Hs0 Hhealthy Hrun.
  destruct (UpdateFlushSegmentsInfo_cases sid flushed dropped importing
              binlogs statslogs deltalogs checkpoints startPositions now m s0 Hs0)
    as (Hseg & _ & [[Hh _]|[(_ & _ & Hr)|(_ & mods & Hcps & Hr)]]).
  { by rewrite Hhealthy in Hh. }
  { by rewrite Hrun in Hr. }
  destruct Hr as [(err & c & _ & Hr)|(c & _ & Hr)]; [by rewrite Hrun in Hr|].
  rewrite Hrun in Hr. injection Hr as ->.
  set (segment := if importing then onInfo (withNumOfRows (currRows s0)) s0 else s0) in *.
  set (cloned := flushedClone flushed dropped binlogs statslogs deltalogs now segment) in *.
  destruct (startPositions_keep_logs
              (if importing
               then SegmentsInfo_SetRowCount sid (currRows s0) (segments m)
               else segments m)
              sid startPositions {[sid := cloned]} cloned)
    as (s1 & Hs1 & Hlogs1); [by rewrite lookup_singleton_eq|].
  destruct (checkPoints_keep_logs _ sid _ _ _ _ Hcps Hs1) as (s' & Hs' & Hlogs').
  exists s'. cbn [segments]. rewrite lookup_union_l' by done. split; [done|].
  rewrite Hlogs1 in Hlogs'. clear Hlogs1 Hs1 Hs' Hcps.
  assert (logsOfSegment cloned =
          (mergeFieldBinlogs (SegBinlogs (segmentInfo s0)) binlogs,
           (if bool_decide (statslogs = []) then Statslogs (segmentInfo s0)
            else statslogs),
           mergeFieldBinlogs (Deltalogs (segmentInfo s0)) deltalogs)) as Hcloned.
  { subst cloned segment.
    destruct statslogs; by destruct flushed, dropped, importing. }
  rewrite Hcloned in Hlogs'. unfold logsOfSegment in Hlogs'.
  injection Hlogs' as Hb Hs Hd. rewrite Hb, Hs, Hd.
  split_and!; try done; intros f; apply mergeFieldBinlogs_logsOf.
Qed.

(** C2, as stated, fails: a path that the segment has already for a field
    is appended when it comes again, and is then in the list twice. *)
Lemma C2_same_path_appended_twice :
  let incoming := [mkFieldBinlog 100 [mkBinlog "log/1/100/a" 8]] in
  let r := UpdateFlushSegmentsInfo 1 false false false incoming [] [] [] [] 0
             (sampleMeta []) in
  SegBinlogs ∘ segmentInfo <$> segments (sampleMeta []) !! 1 = Some incoming ∧
  r.1 = Returned None ∧
  SegBinlogs ∘ segmentInfo <$> segments r.2 !! 1 =
    Some [mkFieldBinlog 100 [mkBinlog "log/1/100/a" 8; mkBinlog "log/1/100/a" 8]] ∧
  ¬ (∀ s fb, segments r.2 !! 1 = Some s → fb ∈ SegBinlogs (segmentInfo s) →
             NoDup (LogPath <$> Binlogs fb)).
Proof.
  cbv zeta. split_and!; [by vm_compute..|].
  intros Hnodup.
  assert (segments (UpdateFlushSegmentsInfo 1 false false false
            [mkFieldBinlog 100 [mkBinlog "log/1/100/a" 8]] [] [] [] [] 0
            (sampleMeta [])).2 !! 1 =
          Some (sampleInfo 1 Growing 0
                  [mkFieldBinlog 100 [mkBinlog "log/1/100/a" 8; mkBinlog "log/1/100/a" 8]]
                  None)) as Hseg by (by vm_compute).
  specialize (Hnodup _ _ Hseg ltac:(left)).
  apply NoDup_cons in Hnodup as [Hnot _]. apply Hnot. left.
Qed.

(** ** UpdateDropChannelSegmentInfo *)

Lemma withState_same (st : SegmentState) (s : SegmentInfo) :
  State (segmentInfo s) = st → onInfo (withState st) s = s.
Proof. destruct s as [[] ? ?]. simpl. by intros ->. Qed.

Lemma dropped_unhealthy (s : SegmentInfo) :
  State (segmentInfo s) = Dropped → isSegmentHealthy (Some s) = false.
Proof. simpl. intros ->. done. Qed.

Lemma mergeDropSegment_Some (d : SegmentInfo) (m : meta) (s : SegmentInfo) :
  mergeDropSegment d m = Some s →
  ∃ s0, segments m !! ID (segmentInfo d) = Some s0 ∧
        isSegmentHealthy (Some s0) = true ∧
        State (segmentInfo s) = Dropped ∧
        ID (segmentInfo s) = ID (segmentInfo s0) ∧
        InsertChannel (segmentInfo s) = InsertChannel (segmentInfo s0).
Proof.
  unfold mergeDropSegment, GetSegment.
  destruct (segments m !! ID (segmentInfo d)) as [s0|]; [|done].
  destruct (isSegmentHealthy (Some s0)) eqn:Hh; [|done]. simpl.
  intros [= <-]. exists s0. split_and!; try done;
    by destruct (StartPosition (segmentInfo d)), (DmlPosition (segmentInfo d)).
Qed.

Lemma mergeDropSegment_None (d : SegmentInfo) (m : meta) :
  (∀ s0, segments m !! ID (segmentInfo d) = Some s0 →
         isSegmentHealthy (Some s0) = false) →
  mergeDropSegment d m = None.
Proof.
  intros H. unfold mergeDropSegment, GetSegment.
  destruct (segments m !! ID (segmentInfo d)) as [s0|]; [|done].
  by rewrite (H s0).
Qed.

Lemma mergeDropped_fold (m : meta) (segs2Drop : list SegmentInfo) :
  ∀ acc : gmap Z SegmentInfo,
    (∀ k s, acc !! k = Some s → mergedFrom m k s) →
    (∀ k s, foldl (mergeDropped m) acc segs2Drop !! k = Some s → mergedFrom m k s) ∧
    (∀ k, is_Some (acc !! k) → is_Some (foldl (mergeDropped m) acc segs2Drop !! k)) ∧
    (∀ d, d ∈ segs2Drop → is_Some (mergeDropSegment d m) →
          is_Some (foldl (mergeDropped m) acc segs2Drop !! ID (segmentInfo d))).
Proof.
  induction segs2Drop as [|d l IH]; intros acc Hacc; simpl.
  - split_and!; try done. by intros d ?%elem_of_nil.
  - destruct (IH (mergeDropped m acc d)) as (IH1 & IH2 & IH3).
    { intros k s. unfold mergeDropped.
      destruct (mergeDropSegment d m) as [s1|] eqn:E; [|by apply Hacc].
      destruct (decide (k = ID (segmentInfo d))) as [->|Hne].
      - rewrite lookup_insert_eq. intros [= <-]. by apply mergeDropSegment_Some.
      - rewrite lookup_insert_ne by done. by apply Hacc. }
    split_and!; [done| |].
    + intros k Hk. apply IH2. unfold mergeDropped.
      destruct (mergeDropSegment d m) as [s1|]; [|done].
      destruct (decide (k = ID (segmentInfo d))) as [->|Hne].
      * by rewrite lookup_insert_eq.
      * by rewrite lookup_insert_ne.
    + intros d' [->|Hd']%elem_of_cons Hsome; [|by apply IH3].
      apply IH2. unfold mergeDropped. destruct Hsome as [s1 ->].
      by rewrite lookup_insert_eq.
Qed.

Lemma dropOfChannel_fold (channel : string) (entries : list (Z * SegmentInfo)) :
  ∀ acc : gmap Z SegmentInfo,
    NoDup entries.*1 →
    (∀ k s, (k, s) ∈ entries → ID (segmentInfo s) = k) →
    ∀ k, foldl (dropOfChannel channel) acc entries !! k =
         match acc !! k with
         | Some s => Some s
         | None =>
             match (list_to_map entries : gmap Z SegmentInfo) !! k with
             | Some s =>
                 if bool_decide (InsertChannel (segmentInfo s) = channel)
                 then Some (onInfo (withState Dropped) s)
                 else None
             | None => None
             end
         end.
Proof.
  induction entries as [|[k0 s0] l IH]; intros acc Hnd Hids k.
  - simpl. rewrite lookup_empty. by destruct (acc !! k).
  - apply NoDup_cons in Hnd as [Hfresh Hnd].
    assert (ID (segmentInfo s0) = k0) as Hk0 by (apply Hids; left).
    simpl. rewrite IH; [|done|intros; apply Hids; by right].
    unfold dropOfChannel. cbn [snd]. rewrite Hk0.
    destruct (decide (k = k0)) as [->|Hne].
    + rewrite lookup_insert_eq.
      rewrite (not_elem_of_list_to_map_1 _ _ Hfresh).
      case_bool_decide as Hch.
      * rewrite bool_decide_eq_false_2 by (by intros ?). by destruct (acc !! k0).
      * rewrite bool_decide_eq_true_2 by (by destruct (decide (InsertChannel (segmentInfo s0) = channel))).
        destruct (acc !! k0) eqn:E; [by rewrite E|]. unfold Clone.
        by rewrite lookup_insert_eq.
    + rewrite (lookup_insert_ne _ k0 k) by done.
      case_bool_decide; [done|].
      destruct (acc !! k0); [done|]. by rewrite lookup_insert_ne.
Qed.

Lemma dropChannelSegments_lookup (channel : string) (segs2Drop : list SegmentInfo)
    (m : meta) (k : Z) :
  wfIndex (segments m) →
  dropChannelSegments channel segs2Drop m !! k =
  match foldl (mergeDropped m) ∅ segs2Drop !! k with
  | Some s => Some s
  | None =>
      match segments m !! k with
      | Some s =>
          if bool_decide (InsertChannel (segmentInfo s) = channel)
          then Some (onInfo (withState Dropped) s)
          else None
      | None => None
      end
  end.
Proof.
  intros Hwf. unfold dropChannelSegments.
  rewrite dropOfChannel_fold.
  - by rewrite list_to_map_to_list.
  - apply NoDup_fst_map_to_list.
  - intros k' s Hin. apply Hwf. by apply elem_of_map_to_list.
Qed.

(** What holds of every segment of the batch. *)
Lemma dropChannelSegments_entry channel segs2Drop m k s :
  wfIndex (segments m) →
  dropChannelSegments channel segs2Drop m !! k = Some s →
  State (segmentInfo s) = Dropped ∧ ID (segmentInfo s) = k ∧
  ∃ s0, segments m !! k = Some s0 ∧
        InsertChannel (segmentInfo s) = InsertChannel (segmentInfo s0).
Proof.
  intros Hwf. rewrite dropChannelSegments_lookup by done.
  destruct (mergeDropped_fold m segs2Drop ∅) as (Hmerged & _ & _).
  { intros k' s'. by rewrite lookup_empty. }
  destruct (foldl (mergeDropped m) ∅ segs2Drop !! k) as [s1|] eqn:E.
  - intros [= <-]. destruct (Hmerged _ _ E) as (s0 & Hs0 & _ & Hst & Hid & Hch).
    split_and!; [done| |by exists s0]. rewrite Hid. by apply Hwf.
  - destruct (segments m !! k) as [s0|] eqn:E0; [|done].
    case_bool_decide; [|done]. intros [= <-].
    split_and!; [done|simpl; by apply Hwf|by exists s0].
Qed.

Lemma dropChannelSegments_covers channel segs2Drop m k s0 :
  wfIndex (segments m) →
  segments m !! k = Some s0 →
  InsertChannel (segmentInfo s0) = channel →
  ∃ s, dropChannelSegments channel segs2Drop m !! k = Some s ∧
       State (segmentInfo s) = Dropped.
Proof.
  intros Hwf Hs0 Hch. rewrite dropChannelSegments_lookup by done.
  destruct (mergeDropped_fold m segs2Drop ∅) as (Hmerged & _ & _).
  { intros k' s'. by rewrite lookup_empty. }
  destruct (foldl (mergeDropped m) ∅ segs2Drop !! k) as [s1|] eqn:E.
  - exists s1. split; [done|]. by destruct (Hmerged _ _ E) as (? & _ & _ & ? & _).
  - rewrite Hs0, bool_decide_eq_true_2 by done. by eexists.
Qed.

Lemma saveAll_lookup_ne (segs : list datapbSegmentInfo) :
  ∀ (store : gmap Z datapbSegmentInfo) k,
    (∀ s, s ∈ segs → ID s ≠ k) → saveAll segs store !! k = store !! k.
Proof.
  unfold saveAll. induction segs as [|x l IH]; intros store k Hne; simpl; [done|].
  rewrite IH by (intros; apply Hne; by right).
  rewrite lookup_insert_ne; [done|]. apply Hne. left.
Qed.

Lemma saveAll_lookup_in (segs : list datapbSegmentInfo) :
  ∀ (store : gmap Z datapbSegmentInfo) s,
    NoDup (ID <$> segs) → s ∈ segs → saveAll segs store !! ID s = Some s.
Proof.
  induction segs as [|x l IH]; intros store s Hnd Hin; [by apply elem_of_nil in Hin|].
  rewrite fmap_cons in Hnd. apply NoDup_cons in Hnd as [Hfresh Hnd].
  change (saveAll (x :: l) store) with (saveAll l (<[ID x := x]> store)).
  apply elem_of_cons in Hin as [->|Hin]; [|by apply IH].
  rewrite saveAll_lookup_ne; [by rewrite lookup_insert_eq|].
  intros s Hs Heq. apply Hfresh. rewrite <- Heq. apply list_elem_of_fmap. by exists s.
Qed.

Lemma saveAll_id (segs : list datapbSegmentInfo) (store : gmap Z datapbSegmentInfo) :
  (∀ s, s ∈ segs → store !! ID s = Some s) → saveAll segs store = store.
Proof.
  unfold saveAll. induction segs as [|x l IH]; intros Hin; simpl; [done|].
  rewrite insert_id by (apply Hin; left). apply IH. intros; apply Hin. by right.
Qed.

Lemma infosOf_elem (mods : gmap Z SegmentInfo) (i : datapbSegmentInfo) :
  i ∈ infosOf mods ↔ ∃ k s, mods !! k = Some s ∧ i = segmentInfo s.
Proof.
  unfold infosOf. rewrite list_elem_of_fmap. split.
  - intros ([k s] & -> & Hin%elem_of_map_to_list). by exists k, s.
  - intros (k & s & Hs & ->). exists (k, s). split; [done|].
    by apply elem_of_map_to_list.
Qed.

Lemma infosOf_ids (mods : gmap Z SegmentInfo) :
  (∀ k s, mods !! k = Some s → ID (segmentInfo s) = k) →
  ID <$> infosOf mods = (map_to_list mods).*1.
Proof.
  intros Hid. unfold infosOf. rewrite <- list_fmap_compose.
  apply list_fmap_ext. intros i [k s] Hin%list_elem_of_lookup_2%elem_of_map_to_list.
  simpl. by apply Hid.
Qed.

Lemma infosOf_persisted (mods : gmap Z SegmentInfo) store k s :
  (∀ k s, mods !! k = Some s → ID (segmentInfo s) = k) →
  mods !! k = Some s →
  saveAll (infosOf mods) store !! k = Some (segmentInfo s).
Proof.
  intros Hid Hs. rewrite <- (Hid _ _ Hs). apply saveAll_lookup_in.
  - rewrite infosOf_ids by done. apply NoDup_fst_map_to_list.
  - apply infosOf_elem. by exists k, s.
Qed.

Lemma UpdateDropChannelSegmentInfo_cases (channel : string)
    (segs2Drop : list SegmentInfo) (m : meta) :
  let mods := dropChannelSegments channel segs2Drop m in
  let infos := infosOf mods in
  let c := catalog m in
  let r := UpdateDropChannelSegmentInfo channel segs2Drop m in
  (∃ f rest,
     r = (Returned (Some (ErrStore (faultMsg f))),
          mkMeta (mkCatalog (saveAll (take (faultDone f) infos) (persisted c))
                    (deletedChannels c)
                    (writes c ++ [WriteSegments (take (faultDone f) infos)]) rest)
            (segments m))) ∨
  (∃ f rest,
     r = (Returned (Some (ErrStore (faultMsg f))),
          mkMeta (mkCatalog (saveAll infos (persisted c)) (deletedChannels c)
                    (writes c ++ [WriteSegments infos]) rest)
            (segments m))) ∨
  (∃ rest,
     r = (Returned None,
          mkMeta (mkCatalog (saveAll infos (persisted c))
                    ({[channel]} ∪ deletedChannels c)
                    ((writes c ++ [WriteSegments infos]) ++ [WriteChannelDeleted channel])
                    rest)
            (mods ∪ segments m))).
Proof.
  intros mods infos c r. subst r.
  unfold UpdateDropChannelSegmentInfo, batchSaveDropSegments,
    catalogSaveDroppedSegmentsInBatch, catalogMarkChannelDeleted, nextFault.
  fold mods. fold infos. fold c.
  destruct (faults c) as [|[f|] [|[f'|] rest]]; simpl; eauto 6.
Qed.

Lemma mergeDropped_fold_none (m : meta) (segs2Drop : list SegmentInfo)
    (acc : gmap Z SegmentInfo) :
  (∀ d, d ∈ segs2Drop → mergeDropSegment d m = None) →
  foldl (mergeDropped m) acc segs2Drop = acc.
Proof.
  induction segs2Drop as [|d l IH]; intros Hnone; simpl; [done|].
  unfold mergeDropped at 2. rewrite (Hnone d) by left.
  apply IH. intros; apply Hnone. by right.
Qed.

Lemma mergeDropSegment_is_Some (d : SegmentInfo) (m : meta) (s0 : SegmentInfo) :
  segments m !! ID (segmentInfo d) = Some s0 →
  isSegmentHealthy (Some s0) = true →
  is_Some (mergeDropSegment d m).
Proof.
  intros Hs0 Hh. unfold mergeDropSegment, GetSegment. rewrite Hs0, Hh. simpl. eauto.
Qed.

(** After a call that went through, a second call with the same arguments
    collects only segments that are indexed, and written, as they are. *)
Lemma second_drop_collects_nothing_new (channel : string)
    (segs2Drop : list SegmentInfo) (m : meta) (c1 : Catalog) :
  wfIndex (segments m) →
  let mods := dropChannelSegments channel segs2Drop m in
  let m1 := mkMeta c1 (mods ∪ segments m) in
  wfIndex (segments m1) ∧
  ∀ k s, dropChannelSegments channel segs2Drop m1 !! k = Some s →
         mods !! k = Some s ∧ segments m1 !! k = Some s.
Proof.
  intros Hwf mods m1.
  assert (wfIndex (segments m1)) as Hwf1.
  { intros k s. subst m1. cbn [segments]. rewrite lookup_union_Some_raw.
    intros [Hs|[_ Hs]]; [|by apply Hwf].
    by destruct (dropChannelSegments_entry _ _ _ _ _ Hwf Hs) as (_ & ? & _). }
  split; [done|]. intros k s.
  rewrite dropChannelSegments_lookup by done.
  rewrite mergeDropped_fold_none, lookup_empty.
  - destruct (segments m1 !! k) as [s1|] eqn:E1; [|done].
    case_bool_decide as Hch; [|done]. intros [= <-].
    subst m1. cbn [segments] in E1. apply lookup_union_Some_raw in E1 as [Hs|[Hnone Hs]].
    + destruct (dropChannelSegments_entry _ _ _ _ _ Hwf Hs) as (Hst & _).
      rewrite (withState_same _ _ Hst). by split.
    + destruct (dropChannelSegments_covers channel segs2Drop m k s1 Hwf Hs Hch)
        as (s' & Hs' & _).
      fold mods in Hs'. by rewrite Hnone in Hs'.
  - intros d Hd. apply mergeDropSegment_None. intros s0.
    subst m1. cbn [segments]. rewrite lookup_union_Some_raw.
    intros [Hs|[Hnone Hs]].
    + destruct (dropChannelSegments_entry _ _ _ _ _ Hwf Hs) as (Hst & _).
      by apply dropped_unhealthy.
    + destruct (isSegmentHealthy (Some s0)) eqn:Hh; [|done]. exfalso.
      destruct (mergeDropped_fold m segs2Drop ∅) as (_ & _ & Hin).
      { intros k' s'. by rewrite lookup_empty. }
      destruct (Hin d Hd (mergeDropSegment_is_Some d m s0 Hs Hh)) as [s1 Hs1].
      subst mods. rewrite dropChannelSegments_lookup, Hs1 in Hnone by done. done.
Qed.

(** C4: UpdateDropChannelSegmentInfo collects one batch that holds every
    indexed segment of the channel, all in state Dropped.  It writes this
    batch and then, only when the whole batch is written, the removal marker
    of the channel: among the writes of a call the marker comes last, after
    the whole batch, and only in a call that returns nil; and when a call
    sets the marker, every segment of the batch is in the store.  After a
    call that returned nil the batch is in the index; and a second call with
    the same arguments leaves the index, the stored segments and the markers
    as they are. *)
Theorem C4_drop_channel (channel : string) (segs2Drop : list SegmentInfo) (m : meta) :
  wfIndex (segments m) →
  let mods := dropChannelSegments channel segs2Drop m in
  let r := UpdateDropChannelSegmentInfo channel segs2Drop m in
  (∀ k s0, segments m !! k = Some s0 → InsertChannel (segmentInfo s0) = channel →
           ∃ s, mods !! k = Some s ∧ State (segmentInfo s) = Dropped) ∧
  (∀ k s, mods !! k = Some s → State (segmentInfo s) = Dropped ∧ ID (segmentInfo s) = k) ∧
  (∃ w, writes (catalog r.2) = writes (catalog m) ++ w ∧
        (WriteChannelDeleted channel ∈ w →
         w = [WriteSegments (infosOf mods); WriteChannelDeleted channel] ∧
         r.1 = Returned None)) ∧
  (deletedChannels (catalog r.2) ≠ deletedChannels (catalog m) →
   ∀ k s, mods !! k = Some s → persisted (catalog r.2) !! k = Some (segmentInfo s)) ∧
  (r.1 = Returned None →
   segments r.2 = mods ∪ segments m ∧
   channel ∈ deletedChannels (catalog r.2) ∧
   (∀ k s, mods !! k = Some s →
           persisted (catalog r.2) !! k = Some (segmentInfo s) ∧
           segments r.2 !! k = Some s) ∧
   let r2 := UpdateDropChannelSegmentInfo channel segs2Drop r.2 in
   segments r2.2 = segments r.2 ∧
   persisted (catalog r2.2) = persisted (catalog r.2) ∧
   deletedChannels (catalog r2.2) = deletedChannels (catalog r.2)).
Proof.
  intros Hwf mods r.
  assert (∀ k s, mods !! k = Some s →
            State (segmentInfo s) = Dropped ∧ ID (segmentInfo s) = k) as Hentry.
  { intros k s Hs. by destruct (dropChannelSegments_entry _ _ _ _ _ Hwf Hs) as (? & ? & _). }
  assert (∀ k s, mods !! k = Some s → ID (segmentInfo s) = k) as Hids
    by (intros k s Hs; by destruct (Hentry k s Hs)).
  split; [intros k s0; by apply dropChannelSegments_covers|].
  split; [done|].
  destruct (UpdateDropChannelSegmentInfo_cases channel segs2Drop m)
    as [(f & rest & Hr)|[(f & rest & Hr)|(rest & Hr)]];
    fold r in Hr; fold mods in Hr; rewrite Hr; cbn [fst snd catalog writes
      deletedChannels persisted segments].
  - split_and!; [|done|done].
    eexists. split; [reflexivity|].
    intros Hin%list_elem_of_singleton. discriminate Hin.
  - split_and!; [|done|done].
    eexists. split; [reflexivity|].
    intros Hin%list_elem_of_singleton. discriminate Hin.
  - split_and!.
    + eexists. split; [by rewrite <- app_assoc|]. done.
    + intros _ k s Hs. by apply infosOf_persisted.
    + intros _.
      assert (∀ k s, mods !! k = Some s →
                saveAll (infosOf mods) (persisted (catalog m)) !! k =
                  Some (segmentInfo s)) as Hstored
        by (intros k s Hs; by apply infosOf_persisted).
      split; [done|]. split; [apply elem_of_union; left; by apply elem_of_singleton|].
      split.
      { intros k s Hs. split; [by apply Hstored|]. by rewrite lookup_union_l'. }
      set (c1 := mkCatalog _ _ _ rest).
      destruct (second_drop_collects_nothing_new channel segs2Drop m c1 Hwf)
        as [Hwf1 Hsecond].
      fold mods in Hsecond, Hwf1.
      set (m1 := mkMeta c1 (mods ∪ segments m)) in *.
      set (mods2 := dropChannelSegments channel segs2Drop m1) in *.
      assert (∀ n, saveAll (take n (infosOf mods2)) (persisted c1) = persisted c1)
        as Hsame.
      { intros n. apply saveAll_id. intros i Hi%(subseteq_take n).
        apply infosOf_elem in Hi as (k & s & Hs2 & ->).
        destruct (Hsecond k s Hs2) as [Hs _].
        rewrite (Hids k s Hs). subst c1. cbn [persisted]. by apply Hstored. }
      assert (saveAll (infosOf mods2) (persisted c1) = persisted c1) as Hsame'.
      { pose proof (Hsame (length (infosOf mods2))) as Hall.
        by rewrite firstn_all in Hall. }
      destruct (UpdateDropChannelSegmentInfo_cases channel segs2Drop m1)
        as [(f & rest' & Hr2)|[(f & rest' & Hr2)|(rest' & Hr2)]];
        fold mods2 in Hr2; cbv zeta; rewrite Hr2;
        cbn [fst snd catalog deletedChannels persisted segments];
        change (catalog m1) with c1; change (segments m1) with (mods ∪ segments m).
      * by rewrite Hsame.
      * by rewrite Hsame'.
      * rewrite Hsame'. split_and!; [|done|subst c1; cbn [deletedChannels]].
        2: { apply set_eq. intros x. rewrite !elem_of_union. tauto. }
        apply map_eq. intros k. rewrite lookup_union.
        destruct (mods2 !! k) as [s|] eqn:E; [|by destruct ((mods ∪ segments m) !! k)].
        destruct (Hsecond k s E) as [_ Hk]. change (segments m1) with (mods ∪ segments m) in Hk.
        by rewrite Hk.
Qed.

(** ** Checkpoints *)

Lemma applyCheckPoint_cases segs (mods mods1 : gmap Z SegmentInfo) cp :
  applyCheckPoint segs mods cp = Some mods1 →
  (getClonedSegment segs mods (cp_SegmentID cp) = None ∧ mods1 = mods) ∨
  (∃ s d p, getClonedSegment segs mods (cp_SegmentID cp) = Some s ∧
            DmlPosition (segmentInfo s) = Some d ∧ cp_Position cp = Some p ∧
            Timestamp p ≤ Timestamp d ∧ mods1 = mods) ∨
  (∃ s, getClonedSegment segs mods (cp_SegmentID cp) = Some s ∧
        mods1 = <[cp_SegmentID cp := checkpointed cp s]> mods ∧
        (DmlPosition (segmentInfo s) = None ∨
         ∃ d p, DmlPosition (segmentInfo s) = Some d ∧ cp_Position cp = Some p ∧
                Timestamp d < Timestamp p)).
Proof.
  unfold applyCheckPoint.
  destruct (getClonedSegment segs mods (cp_SegmentID cp)) as [s|];
    [|intros [= <-]; by left].
  fold (checkpointed cp s). intros Hrun. right.
  destruct (DmlPosition (segmentInfo s)) as [d|] eqn:Ed.
  - destruct (cp_Position cp) as [p|] eqn:Ep; [|done].
    case_bool_decide; injection Hrun as <-.
    + left. by exists s, d, p.
    + right. exists s. split_and!; try done. right. exists d, p.
      split_and!; try done. lia.
  - injection Hrun as <-. right. exists s. split_and!; try done. by left.
Qed.

Lemma getClonedSegment_insert_ne segs (mods : gmap Z SegmentInfo) k k' s :
  k ≠ k' →
  getClonedSegment segs (<[k' := s]> mods) k = getClonedSegment segs mods k.
Proof. intros Hne. apply getClonedSegment_ext. by rewrite lookup_insert_ne. Qed.

Lemma getClonedSegment_insert_eq segs (mods : gmap Z SegmentInfo) k s :
  getClonedSegment segs (<[k := s]> mods) k = Some s.
Proof. apply getClonedSegment_mods. by rewrite lookup_insert_eq. Qed.

(** A checkpoint that went through the loop is stale for what its segment
    has afterwards, and stays so through the later turns. *)
Lemma applyCheckPoint_stale segs (mods mods1 : gmap Z SegmentInfo) cp :
  applyCheckPoint segs mods cp = Some mods1 →
  (∀ s, getClonedSegment segs mods1 (cp_SegmentID cp) = Some s →
        staleFor (DmlPosition (segmentInfo s)) (cpKey cp).2) ∧
  (∀ key : Z * option Z,
     (∀ s, getClonedSegment segs mods key.1 = Some s →
           staleFor (DmlPosition (segmentInfo s)) key.2) →
     (∀ s, getClonedSegment segs mods1 key.1 = Some s →
           staleFor (DmlPosition (segmentInfo s)) key.2)).
Proof.
  intros Hrun. unfold cpKey. cbn [snd].
  destruct (applyCheckPoint_cases _ _ _ _ Hrun)
    as [[Hnone ->]|[(s & d & p & Hget & Hd & Hp & Hle & ->)|(s & Hget & -> & Hwhy)]].
  - split; [|done]. intros s Hs. by rewrite Hnone in Hs.
  - split; [|done]. intros s' Hs'. rewrite Hget in Hs'. injection Hs' as <-.
    by rewrite Hd, Hp.
  - split.
    + intros s' Hs'. rewrite getClonedSegment_insert_eq in Hs'. injection Hs' as <-.
      simpl. destruct (cp_Position cp); simpl; [lia|done].
    + intros [k t] Hold s'. cbn [fst snd] in *.
      destruct (decide (k = cp_SegmentID cp)) as [->|Hne].
      * rewrite getClonedSegment_insert_eq. intros [= <-]. simpl.
        specialize (Hold s Hget).
        destruct Hwhy as [Hd|(d & p & Hd & Hp & Hlt)].
        -- rewrite Hd in Hold. destruct t; [done|].
           by destruct (cp_Position cp).
        -- rewrite Hd in Hold. rewrite Hp. destruct t; simpl in *; [lia|done].
      * rewrite getClonedSegment_insert_ne by done. apply Hold.
Qed.

Lemma applyCheckPoints_stale segs (checkpoints : list CheckPoint) :
  ∀ (mods mods' : gmap Z SegmentInfo) (seen : list (Z * option Z)),
    applyCheckPoints segs mods checkpoints = Some mods' →
    (∀ key s, key ∈ seen → getClonedSegment segs mods key.1 = Some s →
              staleFor (DmlPosition (segmentInfo s)) key.2) →
    ∀ key s, key ∈ seen ++ (cpKey <$> checkpoints) →
             getClonedSegment segs mods' key.1 = Some s →
             staleFor (DmlPosition (segmentInfo s)) key.2.
Proof.
  induction checkpoints as [|cp l IH]; intros mods mods' seen Hrun Hseen; simpl in Hrun.
  - injection Hrun as <-. rewrite app_nil_r. exact Hseen.
  - destruct (applyCheckPoint segs mods cp) as [mods1|] eqn:E; [|done].
    destruct (applyCheckPoint_stale _ _ _ _ E) as [Hnew Hkeep].
    rewrite fmap_cons, cons_middle, app_assoc.
    apply (IH mods1 mods' (seen ++ [cpKey cp]) Hrun).
    intros key s [Hin|Hin%list_elem_of_singleton]%elem_of_app.
    + apply Hkeep. intros s'. by apply Hseen.
    + subst key. apply Hnew.
Qed.

(** The turns of the loops keep [keepsDml] when every checkpoint is stale
    for what the index has. *)
Lemma getClonedSegment_keepsDml segs (mods : gmap Z SegmentInfo) k s :
  keepsDml segs mods →
  getClonedSegment segs mods k = Some s →
  ∃ s2, segs !! k = Some s2 ∧
        DmlPosition (segmentInfo s) = DmlPosition (segmentInfo s2) ∧
        isSegmentHealthy (Some s2) = true.
Proof.
  intros Hinv [Hs|(_ & Hs & Hh)]%getClonedSegment_Some; [by apply Hinv|].
  by exists s.
Qed.

Lemma applyStartPosition_keepsDml segs (mods : gmap Z SegmentInfo) pos :
  keepsDml segs mods → keepsDml segs (applyStartPosition segs mods pos).
Proof.
  intros Hinv k s Hs.
  destruct (applyStartPosition_lookup segs mods pos k)
    as [Hsame|(s1 & p & _ & Hget & Hnew)].
  - apply Hinv. by rewrite <- Hsame.
  - rewrite Hnew in Hs. injection Hs as <-.
    by apply (getClonedSegment_keepsDml segs mods k s1).
Qed.

Lemma startPositions_keepsDml segs (startPositions : list SegmentStartPosition) :
  ∀ mods : gmap Z SegmentInfo,
    keepsDml segs mods → keepsDml segs (foldl (applyStartPosition segs) mods startPositions).
Proof.
  induction startPositions as [|pos l IH]; intros mods Hinv; simpl; [done|].
  by apply IH, applyStartPosition_keepsDml.
Qed.

Lemma applyCheckPoints_keepsDml segs (checkpoints : list CheckPoint) :
  ∀ mods mods' : gmap Z SegmentInfo,
    applyCheckPoints segs mods checkpoints = Some mods' →
    (∀ cp s2, cp ∈ checkpoints → segs !! cp_SegmentID cp = Some s2 →
              isSegmentHealthy (Some s2) = true →
              staleFor (DmlPosition (segmentInfo s2)) (cpKey cp).2) →
    keepsDml segs mods → keepsDml segs mods'.
Proof.
  induction checkpoints as [|cp l IH]; intros mods mods' Hrun Hstale Hinv;
    simpl in Hrun.
  - by injection Hrun as <-.
  - destruct (applyCheckPoint segs mods cp) as [mods1|] eqn:E; [|done].
    apply (IH mods1 mods' Hrun); [intros; apply Hstale; [by right|done..]|].
    destruct (applyCheckPoint_cases _ _ _ _ E)
      as [[_ ->]|[(s & d & p & _ & _ & _ & _ & ->)|(s & Hget & -> & Hwhy)]];
      [done..|].
    destruct (getClonedSegment_keepsDml _ _ _ _ Hinv Hget) as (s2 & Hs2 & Hdml & Hh).
    specialize (Hstale cp s2 ltac:(left) Hs2 Hh).
    unfold cpKey in Hstale. cbn [snd] in Hstale. rewrite <- Hdml in Hstale.
    intros k s'. destruct (decide (k = cp_SegmentID cp)) as [->|Hne].
    + rewrite lookup_insert_eq. intros [= <-]. exists s2.
      split_and!; [done| |done]. simpl. rewrite <- Hdml.
      destruct Hwhy as [Hd|(d & p & Hd & Hp & Hlt)].
      * rewrite Hd in *. by destruct (cp_Position cp).
      * rewrite Hd, Hp in Hstale. simpl in Hstale. lia.
    + rewrite lookup_insert_ne by done. apply Hinv.
Qed.

Lemma keepsDml_union (segs mods : gmap Z SegmentInfo) k :
  keepsDml segs mods → dmlOf ((mods ∪ segs) !! k) = dmlOf (segs !! k).
Proof.
  intros Hinv. rewrite lookup_union.
  destruct (mods !! k) as [s|] eqn:E; [|by destruct (segs !! k)].
  destruct (Hinv k s E) as (s2 & -> & Hdml & _). simpl. by rewrite Hdml.
Qed.

Lemma SetRowCount_dmlOf (sid rows k : Z) (segs : gmap Z SegmentInfo) :
  dmlOf (SegmentsInfo_SetRowCount sid rows segs !! k) = dmlOf (segs !! k).
Proof.
  rewrite SetRowCount_lookup. case_decide; [|done]. by destruct (segs !! k).
Qed.

Lemma flushedClone_dml flushed dropped binlogs statslogs deltalogs now s :
  DmlPosition (segmentInfo (flushedClone flushed dropped binlogs statslogs deltalogs now s))
  = DmlPosition (segmentInfo s).
Proof. unfold flushedClone. by destruct flushed, dropped. Qed.

Lemma rowCount_dmlOf (b : bool) (sid rows k : Z) (segs : gmap Z SegmentInfo) :
  dmlOf ((if b then SegmentsInfo_SetRowCount sid rows segs else segs) !! k) =
  dmlOf (segs !! k).
Proof. destruct b; [apply SetRowCount_dmlOf|done]. Qed.

Lemma rowCount_lookup (b : bool) (sid rows k : Z) (segs : gmap Z SegmentInfo) s2 :
  (if b then SegmentsInfo_SetRowCount sid rows segs else segs) !! k = Some s2 →
  ∃ s1, segs !! k = Some s1 ∧
        DmlPosition (segmentInfo s2) = DmlPosition (segmentInfo s1) ∧
        isSegmentHealthy (Some s2) = isSegmentHealthy (Some s1).
Proof.
  destruct b; [|by exists s2].
  rewrite SetRowCount_lookup. case_decide; [|by exists s2].
  destruct (segs !! k) as [s1|]; [|done]. intros [= <-]. by exists s1.
Qed.

(** After a call that went through its loops, every checkpoint of the call
    is stale for what the index has. *)
Lemma flushed_checkpoints_stale segs (mods0 mods1 : gmap Z SegmentInfo)
    (checkpoints : list CheckPoint) key s1 :
  applyCheckPoints segs mods0 checkpoints = Some mods1 →
  key ∈ cpKey <$> checkpoints →
  (mods1 ∪ segs) !! key.1 = Some s1 →
  isSegmentHealthy (Some s1) = true →
  staleFor (DmlPosition (segmentInfo s1)) key.2.
Proof.
  intros Hrun Hkey Hs1 Hh.
  apply (applyCheckPoints_stale segs checkpoints mods0 mods1 [] Hrun); [|done|].
  { by intros ? ? ?%elem_of_nil. }
  apply lookup_union_Some_raw in Hs1 as [Hs1|[Hnone Hs1]].
  - by apply getClonedSegment_mods.
  - unfold getClonedSegment, GetSegment, Clone. by rewrite Hnone, Hs1, Hh.
Qed.

(** The second of two calls leaves the stored checkpoints as they are, when
    it goes through its loops on an index whose checkpoints its own are
    stale for. *)
Lemma second_flush_keeps_dml (sid : Z) (flushed dropped importing : bool)
    (binlogs statslogs deltalogs : list FieldBinlog)
    (checkpoints : list CheckPoint) (startPositions : list SegmentStartPosition)
    (now : Z) (m : meta) :
  (∀ cp s, cp ∈ checkpoints → segments m !! cp_SegmentID cp = Some s →
           isSegmentHealthy (Some s) = true →
           staleFor (DmlPosition (segmentInfo s)) (cpKey cp).2) →
  ∀ k, dmlOf (segments (UpdateFlushSegmentsInfo sid flushed dropped importing
                          binlogs statslogs deltalogs checkpoints startPositions
                          now m).2 !! k) =
       dmlOf (segments m !! k).
Proof.
  intros Hstale k.
  destruct (segments m !! sid) as [s0|] eqn:Hs0.
  2: { unfold UpdateFlushSegmentsInfo, GetSegment. rewrite Hs0. by destruct importing. }
  destruct (UpdateFlushSegmentsInfo_cases sid flushed dropped importing
              binlogs statslogs deltalogs checkpoints startPositions now m s0 Hs0)
    as (Hseg & Hh & [[_ ->]|[(_ & _ & ->)|(Hhealthy & mods & Hcps & Hr)]]);
    [apply rowCount_dmlOf..|].
  set (segs := if importing
               then SegmentsInfo_SetRowCount sid (currRows s0) (segments m)
               else segments m) in *.
  destruct Hr as [(err & c & _ & ->)|(c & _ & ->)]; cbn [snd segments];
    [apply rowCount_dmlOf|].
  rewrite keepsDml_union; [apply rowCount_dmlOf|].
  apply (applyCheckPoints_keepsDml segs checkpoints _ mods Hcps).
  - intros cp s2 Hcp Hs2 Hh2.
    apply rowCount_lookup in Hs2 as (s1 & Hs1 & -> & Hh1).
    apply Hstale; [done..|]. by rewrite <- Hh1.
  - apply startPositions_keepsDml. intros k' s'.
    rewrite lookup_singleton_Some. intros [<- <-].
    eexists. split; [exact Hseg|]. rewrite flushedClone_dml. split; [done|].
    by rewrite Hh.
Qed.

Lemma getClonedSegment_advances cps segs (mods : gmap Z SegmentInfo) k s' :
  advancesDml cps segs mods →
  getClonedSegment segs mods k = Some s' →
  ∃ s, segs !! k = Some s ∧ advancedFrom cps k s s'.
Proof.
  intros Hinv [Hs|(_ & Hs & _)]%getClonedSegment_Some; [by apply Hinv|].
  exists s'. split; [done|by left].
Qed.

Lemma startPositions_advances cps segs (startPositions : list SegmentStartPosition) :
  ∀ mods : gmap Z SegmentInfo,
    advancesDml cps segs mods →
    advancesDml cps segs (foldl (applyStartPosition segs) mods startPositions).
Proof.
  induction startPositions as [|pos l IH]; intros mods Hinv; simpl; [done|].
  apply IH. intros k s' Hs'.
  destruct (applyStartPosition_lookup segs mods pos k)
    as [Hsame|(s1 & p & _ & Hget & Hnew)].
  - apply Hinv. by rewrite <- Hsame.
  - rewrite Hnew in Hs'. injection Hs' as <-.
    by apply (getClonedSegment_advances cps segs mods k s1).
Qed.

Lemma newerThan_trans (d d1 pos : option MsgPosition) :
  d1 = d ∨ newerThan d d1 → newerThan d1 pos → newerThan d pos.
Proof.
  intros [->|[->|(d0 & p1 & -> & -> & Hlt1)]] Hnew; [done|by left|].
  destruct Hnew as [?|(d0' & p & [= <-] & -> & Hlt2)]; [done|].
  right. exists d0, p. split_and!; try done. lia.
Qed.

Lemma applyCheckPoints_advances cps segs (checkpoints : list CheckPoint) :
  ∀ mods mods' : gmap Z SegmentInfo,
    applyCheckPoints segs mods checkpoints = Some mods' →
    (∀ cp, cp ∈ checkpoints → cp ∈ cps) →
    advancesDml cps segs mods → advancesDml cps segs mods'.
Proof.
  induction checkpoints as [|cp l IH]; intros mods mods' Hrun Hsub Hinv;
    simpl in Hrun.
  - by injection Hrun as <-.
  - destruct (applyCheckPoint segs mods cp) as [mods1|] eqn:E; [|done].
    apply (IH mods1 mods' Hrun); [intros; apply Hsub; by right|].
    destruct (applyCheckPoint_cases _ _ _ _ E)
      as [[_ ->]|[(s & d & p & _ & _ & _ & _ & ->)|(s1 & Hget & -> & Hwhy)]];
      [done..|].
    destruct (getClonedSegment_advances _ _ _ _ _ Hinv Hget) as (s & Hs & Hadv).
    intros k s'. destruct (decide (k = cp_SegmentID cp)) as [->|Hne].
    + rewrite lookup_insert_eq. intros [= <-]. exists s. split; [done|].
      right. exists cp. split_and!; [apply Hsub; left|done|done|].
      apply (newerThan_trans _ (DmlPosition (segmentInfo s1))); [|exact Hwhy].
      destruct Hadv as [Heq|(cp1 & _ & _ & Heq & Hnew)]; [by left|].
      right. by rewrite Heq.
    + rewrite lookup_insert_ne by done. apply Hinv.
Qed.

Lemma flush_advances (sid : Z) (flushed dropped importing : bool)
    (binlogs statslogs deltalogs : list FieldBinlog)
    (checkpoints : list CheckPoint) (startPositions : list SegmentStartPosition)
    (now : Z) (m : meta) k s' :
  segments (UpdateFlushSegmentsInfo sid flushed dropped importing
              binlogs statslogs deltalogs checkpoints startPositions now m).2 !! k
    = Some s' →
  ∃ s, segments m !! k = Some s ∧ advancedFrom checkpoints k s s'.
Proof.
  assert (∀ (b : bool) rows s1,
            (if b then SegmentsInfo_SetRowCount sid rows (segments m)
             else segments m) !! k = Some s1 →
            ∃ s, segments m !! k = Some s ∧
                 DmlPosition (segmentInfo s1) = DmlPosition (segmentInfo s)) as Hrows.
  { intros b rows s1 (s & Hs & Hd & _)%rowCount_lookup. by exists s. }
  destruct (segments m !! sid) as [s0|] eqn:Hs0.
  2: { unfold UpdateFlushSegmentsInfo, GetSegment. rewrite Hs0.
       destruct importing; intros Hs'; exists s'; (split; [done|by left]). }
  destruct (UpdateFlushSegmentsInfo_cases sid flushed dropped importing
              binlogs statslogs deltalogs checkpoints startPositions now m s0 Hs0)
    as (Hseg & Hh & [[_ ->]|[(_ & _ & ->)|(Hhealthy & mods & Hcps & Hr)]]).
  1,2: cbn [snd segments]; intros (s & Hs & Hd)%Hrows; exists s;
       (split; [done|by left]).
  destruct Hr as [(err & c & _ & ->)|(c & _ & ->)]; cbn [snd segments].
  { intros (s & Hs & Hd)%Hrows. exists s. split; [done|by left]. }
  set (segs := if importing
               then SegmentsInfo_SetRowCount sid (currRows s0) (segments m)
               else segments m) in *.
  assert (advancesDml checkpoints segs mods) as Hadv.
  { apply (applyCheckPoints_advances checkpoints segs checkpoints _ mods Hcps); [done|].
    apply startPositions_advances. intros k' s1.
    rewrite lookup_singleton_Some. intros [<- <-].
    eexists. split; [exact Hseg|]. left. apply flushedClone_dml. }
  rewrite lookup_union_Some_raw. intros [Hs'|[_ Hs']].
  - destruct (Hadv k s' Hs') as (s1 & Hs1 & Hfrom).
    apply Hrows in Hs1 as (s & Hs & Hd). exists s. split; [done|].
    unfold advancedFrom in *. by rewrite <- Hd.
  - apply Hrows in Hs' as (s & Hs & Hd). exists s. split; [done|by left].
Qed.

(** C3: in the loop of UpdateFlushSegmentsInfo over the checkpoints, a
    checkpoint of a segment that has a stored position is applied when its
    timestamp is strictly greater than the stored one, and is passed over
    without an error when it is older or equal (a segment without stored
    position takes the checkpoint); so after a call the stored checkpoint of
    a segment is the one it had, or the position of a checkpoint of the call
    that is strictly newer; and after a call that returned nil, a
    second call for the same segment whose checkpoints have the same
    segments and timestamps, whatever its other arguments, leaves the stored
    checkpoint of every segment as it is. *)
Theorem C3_stale_checkpoint_ignored
    (sid : Z) (flushed dropped importing : bool)
    (binlogs statslogs deltalogs : list FieldBinlog)
    (checkpoints : list CheckPoint) (startPositions : list SegmentStartPosition)
    (now : Z) (m : meta) :
  let r1 := UpdateFlushSegmentsInfo sid flushed dropped importing
              binlogs statslogs deltalogs checkpoints startPositions now m in
  r1.1 = Returned None →
  (∀ segs (mods : gmap Z SegmentInfo) cp s d p,
     getClonedSegment segs mods (cp_SegmentID cp) = Some s →
     DmlPosition (segmentInfo s) = Some d → cp_Position cp = Some p →
     applyCheckPoint segs mods cp =
     if bool_decide (Timestamp d < Timestamp p)
     then Some (<[cp_SegmentID cp := checkpointed cp s]> mods)
     else Some mods) ∧
  (∀ segs (mods : gmap Z SegmentInfo) cp s,
     getClonedSegment segs mods (cp_SegmentID cp) = Some s →
     DmlPosition (segmentInfo s) = None →
     applyCheckPoint segs mods cp =
     Some (<[cp_SegmentID cp := checkpointed cp s]> mods)) ∧
  (∀ k s', segments r1.2 !! k = Some s' →
     ∃ s, segments m !! k = Some s ∧ advancedFrom checkpoints k s s') ∧
  (∀ flushed2 dropped2 importing2 binlogs2 statslogs2 deltalogs2
     checkpoints2 startPositions2 now2,
     cpKey <$> checkpoints2 = cpKey <$> checkpoints →
     let r2 := UpdateFlushSegmentsInfo sid flushed2 dropped2 importing2
                 binlogs2 statslogs2 deltalogs2 checkpoints2 startPositions2
                 now2 r1.2 in
     ∀ k, dmlOf (segments r2.2 !! k) = dmlOf (segments r1.2 !! k)).
Proof.
  intros r1 Hret. split; [|split; [|split]].
  3: { intros k s'. apply flush_advances. }
  - intros segs mods cp s d p Hget Hd Hp. unfold applyCheckPoint, checkpointed.
    rewrite Hget, Hd, Hp.
    repeat case_bool_decide; (done || lia).
  - intros segs mods cp s Hget Hd. unfold applyCheckPoint. by rewrite Hget, Hd.
  - intros flushed2 dropped2 importing2 binlogs2 statslogs2 deltalogs2
      checkpoints2 startPositions2 now2 Hkeys r2 k.
    subst r2.
    destruct (segments m !! sid) as [s0|] eqn:Hs0.
    2: { assert (r1.2 = m ∧ segments r1.2 !! sid = None) as [Hm Hnone].
         { subst r1. unfold UpdateFlushSegmentsInfo, GetSegment. rewrite Hs0.
           by destruct importing. }
         unfold UpdateFlushSegmentsInfo at 1, GetSegment. rewrite Hnone.
         by destruct importing2. }
    destruct (UpdateFlushSegmentsInfo_cases sid flushed dropped importing
                binlogs statslogs deltalogs checkpoints startPositions now m s0 Hs0)
      as (Hseg & Hh & [[Hunhealthy Hr]|[(_ & _ & Hr)|(Hhealthy & mods & Hcps & Hr)]]);
      fold r1 in Hr.
    + (* the segment is not healthy: the second call returns at once too *)
      rewrite Hr. cbn [snd].
      match goal with |- context [UpdateFlushSegmentsInfo _ _ _ _ _ _ _ _ _ _ ?m1] =>
        destruct (UpdateFlushSegmentsInfo_cases sid flushed2 dropped2 importing2
                    binlogs2 statslogs2 deltalogs2 checkpoints2 startPositions2 now2
                    m1 _ Hseg)
          as (_ & _ & [[_ ->]|[(Hh2 & _)|(Hh2 & _)]])
      end.
      * apply rowCount_dmlOf.
      * by rewrite Hh, Hunhealthy in Hh2.
      * by rewrite Hh, Hunhealthy in Hh2.
    + by rewrite Hr in Hret.
    + destruct Hr as [(err & c & _ & Hr)|(c & _ & Hr)]; [by rewrite Hr in Hret|].
      rewrite Hr. cbn [snd]. apply second_flush_keeps_dml.
      intros cp2 s1 Hcp2 Hs1 Hh1. cbn [segments] in Hs1.
      apply (flushed_checkpoints_stale _ _ _ _ (cpKey cp2) s1 Hcps); [|done..].
      rewrite <- Hkeys. apply list_elem_of_fmap. by exists cp2.
Qed.

(** ** The index keeps every segment under its own id *)

Lemma getClonedSegment_wf segs (mods : gmap Z SegmentInfo) k s :
  wfIndex segs → wfIndex mods →
  getClonedSegment segs mods k = Some s → ID (segmentInfo s) = k.
Proof.
  intros Hsegs Hmods [Hs|(_ & Hs & _)]%getClonedSegment_Some;
    [by apply Hmods|by apply Hsegs].
Qed.

Lemma startPositions_wf segs (startPositions : list SegmentStartPosition) :
  ∀ mods : gmap Z SegmentInfo,
    wfIndex segs → wfIndex mods →
    wfIndex (foldl (applyStartPosition segs) mods startPositions).
Proof.
  induction startPositions as [|pos l IH]; intros mods Hsegs Hmods; simpl; [done|].
  apply IH; [done|]. intros k s Hs.
  destruct (applyStartPosition_lookup segs mods pos k)
    as [Hsame|(s1 & p & _ & Hget & Hnew)].
  - apply Hmods. by rewrite <- Hsame.
  - rewrite Hnew in Hs. injection Hs as <-. simpl.
    by apply (getClonedSegment_wf segs mods).
Qed.

Lemma applyCheckPoints_wf segs (checkpoints : list CheckPoint) :
  ∀ mods mods' : gmap Z SegmentInfo,
    applyCheckPoints segs mods checkpoints = Some mods' →
    wfIndex segs → wfIndex mods → wfIndex mods'.
Proof.
  induction checkpoints as [|cp l IH]; intros mods mods' Hrun Hsegs Hmods;
    simpl in Hrun.
  - by injection Hrun as <-.
  - destruct (applyCheckPoint segs mods cp) as [mods1|] eqn:E; [|done].
    apply (IH mods1 mods' Hrun Hsegs). intros k s Hs.
    destruct (applyCheckPoint_lookup segs mods mods1 cp k E)
      as [Hsame|(s1 & _ & Hget & Hnew & _)].
    + apply Hmods. by rewrite <- Hsame.
    + rewrite Hnew in Hs. injection Hs as <-. simpl.
      by apply (getClonedSegment_wf segs mods).
Qed.

Lemma wfIndex_union (segs mods : gmap Z SegmentInfo) :
  wfIndex mods → wfIndex segs → wfIndex (mods ∪ segs).
Proof.
  intros Hmods Hsegs k s [Hs|[_ Hs]]%lookup_union_Some_raw;
    [by apply Hmods|by apply Hsegs].
Qed.

Lemma wfIndex_alter (f : datapbSegmentInfo → datapbSegmentInfo) k
    (segs : gmap Z SegmentInfo) :
  (∀ i, ID (f i) = ID i) → wfIndex segs → wfIndex (alter (onInfo f) k segs).
Proof.
  intros Hf Hwf k' s. destruct (decide (k' = k)) as [->|Hne].
  - rewrite lookup_alter_eq. destruct (segs !! k) as [s0|] eqn:E; [|done].
    intros [= <-]. simpl. rewrite Hf. by apply Hwf.
  - rewrite lookup_alter_ne by done. apply Hwf.
Qed.

(** Every mutation of the catalog leaves each segment indexed under its own
    id. *)
Lemma wfIndex_run (op : mutation) (m : meta) :
  wfIndex (segments m) → wfIndex (segments (run op m).2).
Proof.
  intros Hwf.
  destruct op as [segment|sid st|sid flushed dropped importing binlogs statslogs
                  deltalogs checkpoints startPositions now|channel segs2Drop];
    simpl.
  - unfold AddSegment. destruct (catalogAddSegment _ _) as [[e|] c]; [done|].
    cbn [snd segments]. unfold SetSegment. intros k s.
    rewrite lookup_insert_Some. intros [[<- <-]|[_ Hs]]; [done|by apply Hwf].
  - unfold SetState, GetSegment. destruct (segments m !! sid); [|done].
    assert (wfIndex (SegmentsInfo_SetState sid st (segments m))) as Hset
      by (by apply wfIndex_alter).
    destruct (isSegmentHealthy _); [|done].
    by destruct (catalogAlterSegments _ _) as [[e|] c].
  - destruct (segments m !! sid) as [s0|] eqn:Hs0.
    2: { unfold UpdateFlushSegmentsInfo, GetSegment. rewrite Hs0.
         by destruct importing. }
    assert (wfIndex (if importing
                     then SegmentsInfo_SetRowCount sid (currRows s0) (segments m)
                     else segments m)) as Hsegs.
    { destruct importing; [|done]. by apply wfIndex_alter. }
    destruct (UpdateFlushSegmentsInfo_cases sid flushed dropped importing
                binlogs statslogs deltalogs checkpoints startPositions now m s0 Hs0)
      as (Hseg & _ & [[_ ->]|[(_ & _ & ->)|(_ & mods & Hcps & Hr)]]); [done..|].
    destruct Hr as [(err & c & _ & ->)|(c & _ & ->)]; [done|].
    cbn [snd segments]. apply wfIndex_union; [|done].
    apply (applyCheckPoints_wf _ _ _ _ Hcps Hsegs).
    apply startPositions_wf; [done|]. intros k s.
    rewrite lookup_singleton_Some. intros [<- <-].
    rewrite <- (Hsegs _ _ Hseg). unfold flushedClone. by destruct flushed, dropped.
  - destruct (UpdateDropChannelSegmentInfo_cases channel segs2Drop m)
      as [(f & rest & ->)|[(f & rest & ->)|(rest & ->)]]; [done..|].
    cbn [snd segments]. apply wfIndex_union; [|done]. intros k s Hs.
    by destruct (dropChannelSegments_entry _ _ _ _ _ Hwf Hs) as (_ & ? & _).
Qed.

(** * The statements at sample inputs *)

(** The sample index holds every segment under its own id. *)
Lemma sampleSegments_wf : wfIndex sampleSegments.
Proof.
  intros id s. unfold sampleSegments.
  rewrite !lookup_insert_Some, lookup_empty.
  intros [[<- <-]|[_ [[<- <-]|[_ [[<- <-]|[_ ?]]]]]]; done.
Qed.

(** C10 on three batches of integer keys and one of another kind. *)
Lemma C10_updatePKRange_range_witness :
  ∃ s', updatePKRanges
          [Int64FieldData [20; 10; 30]; OtherFieldData; Int64FieldData [5]]
          (sampleSegment 101 5) = (s', None) ∧
        pkRangeOf (Int64PrimaryKey <$> [20; 10; 30; 5]) s'.
Proof.
  destruct (C10_updatePKRange_range
              [Int64FieldData [20; 10; 30]; OtherFieldData; Int64FieldData [5]]
              [] (sampleSegment 101 5)) as [(s' & Hrun & _ & _ & Hr) _].
  - exact (oneKind_int64 [20; 10; 30; 5]).
  - split; reflexivity.
  - exists s'. split; [exact Hrun|exact Hr].
Defined.


(** C5 on the sample index: the segments 2 and 3 compacted into segment 9
    with fifty rows. *)
Lemma C5_compaction_applied_witness :
  let logs := [mkCompactionSegmentBinlogs 2 []; mkCompactionSegmentBinlogs 3 []] in
  let result := mkCompactionResult 9 50 [] [] [] in
  ∃ old mods new,
    GetCompleteCompactionMeta logs result 77 (sampleMeta []) =
      (sampleMeta [], Some (old, mods, new)) ∧
    CompactionFrom (segmentInfo new) = [2; 3] ∧
    segments (alterInMemoryMetaAfterCompaction new mods (sampleMeta [])) !! 9 = Some new.
Proof.
  intros logs result.
  destruct (C5_compaction_applied logs result 77 (sampleMeta []))
    as (old & mods & new & Hrun & _ & _ & Hpos).
  - discriminate.
  - exact sampleSegments_wf.
  - intros cl [->|[->|H%elem_of_nil]%elem_of_cons]%elem_of_cons;
      [vm_compute; eauto..|destruct H].
  - intros [H|[H|H%elem_of_nil]%elem_of_cons]%elem_of_cons;
      [discriminate H..|destruct H].
  - destruct Hpos as (Hnew & _ & _ & Hfrom); [simpl; lia|].
    exists old, mods, new. split; [exact Hrun|]. split; [exact Hfrom|exact Hnew].
Defined.

(** The sample index with a store that fails: SetState returns the error
    and the index is as before. *)
Example persistence_first_sample :
  (run (DoSetState 2 Sealed) (sampleMeta [unavailable])).1 =
    Returned (Some (ErrStore "etcd unavailable")) ∧
  segments (run (DoSetState 2 Sealed) (sampleMeta [unavailable])).2 =
    segments (sampleMeta [unavailable]).
Proof.
  destruct (persistence_first_without_importing (DoSetState 2 Sealed)
              (sampleMeta [unavailable])) as (_ & Hfail & _).
  - reflexivity.
  - destruct (Hfail (mkFault "etcd unavailable" 0) [] eq_refl) as [H|H].
    + exact H.
    + vm_compute in H. discriminate H.
Qed.

(** C2 on the sample index: a new path for a field that segment 1 has. *)
Lemma C2_flush_appends_logs_witness :
  let incoming := [mkFieldBinlog 100 [mkBinlog "log/1/100/b" 8]] in
  ∃ s', segments (UpdateFlushSegmentsInfo 1 true false false incoming [] [] [] [] 0
                    (sampleMeta [])).2 !! 1 = Some s' ∧
        SegBinlogs (segmentInfo s') =
          [mkFieldBinlog 100 [mkBinlog "log/1/100/a" 8; mkBinlog "log/1/100/b" 8]].
Proof.
  intros incoming.
  destruct (C2_flush_appends_logs 1 true false false incoming [] [] [] [] 0
              (sampleMeta [])
              (UpdateFlushSegmentsInfo 1 true false false incoming [] [] [] [] 0
                 (sampleMeta [])).2
              (sampleInfo 1 Growing 0 [mkFieldBinlog 100 [mkBinlog "log/1/100/a" 8]] None))
    as (s' & Hs' & Hb & _).
  - vm_compute. reflexivity.
  - vm_compute. reflexivity.
  - vm_compute. reflexivity.
  - exists s'. split; [exact Hs'|]. rewrite Hb. vm_compute. reflexivity.
Defined.

(** C3 on the sample index: a checkpoint of timestamp 9 for segment 2,
    stored at 7, and a second call with another checkpoint of timestamp 9. *)
Lemma C3_stale_checkpoint_ignored_witness :
  let cps := [mkCheckPoint 2 (Some (samplePosition 9)) 25] in
  let cps2 := [mkCheckPoint 2 (Some (mkMsgPosition "by-dev-dml-0" [7] 9)) 99] in
  let r1 := UpdateFlushSegmentsInfo 1 false false false [] [] [] cps [] 0 (sampleMeta []) in
  let r2 := UpdateFlushSegmentsInfo 1 false false false [] [] [] cps2 [] 5 r1.2 in
  dmlOf (segments (sampleMeta []) !! 2) = Some (Some (samplePosition 7)) ∧
  dmlOf (segments r1.2 !! 2) = Some (Some (samplePosition 9)) ∧
  dmlOf (segments r2.2 !! 2) = dmlOf (segments r1.2 !! 2).
Proof.
  intros cps cps2 r1 r2.
  split; [vm_compute; reflexivity|]. split; [vm_compute; reflexivity|].
  destruct (C3_stale_checkpoint_ignored 1 false false false [] [] [] cps [] 0
              (sampleMeta [])) as (_ & _ & _ & Htwice).
  - vm_compute. reflexivity.
  - apply (Htwice false false false [] [] [] cps2 [] 5). reflexivity.
Defined.

(** C4 on the sample index: the batch for the sample channel holds segment
    2, dropped. *)
Lemma C4_drop_channel_witness :
  ∃ s, dropChannelSegments "by-dev-dml-0" [] (sampleMeta []) !! 2 = Some s ∧
       State (segmentInfo s) = Dropped.
Proof.
  destruct (C4_drop_channel "by-dev-dml-0" [] (sampleMeta [])) as (Hbatch & _).
  - exact sampleSegments_wf.
  - apply (Hbatch 2 (sampleInfo 2 Flushed 20
                       [mkFieldBinlog 100 [mkBinlog "log/2/100/a" 8]]
                       (Some (samplePosition 7)))).
    + vm_compute. reflexivity.
    + reflexivity.
Defined.

(** mergeFlushedSegments with an id twice in compactedFrom: the second turn
    of the loop finds the segment gone from the flushed bucket. *)
Example mergeFlushedSegments_repeated_id :
  (mergeFlushedSegments (sampleSegment 200 12) 7 [101; 101] sampleReplica).1 = Panicked.
Proof. vm_compute. reflexivity. Qed.

(** The drop of a channel at the sample index, and a second call. *)
Example drop_channel_sample :
  let r := UpdateDropChannelSegmentInfo "by-dev-dml-0" [] (sampleMeta []) in
  r.1 = Returned None ∧
  State ∘ segmentInfo <$> segments r.2 !! 1 = Some Dropped ∧
  State <$> persisted (catalog r.2) !! 3 = Some Dropped ∧
  (UpdateDropChannelSegmentInfo "by-dev-dml-0" [] r.2).1 = Returned None.
Proof. vm_compute. done. Qed.

(** ** Data node: the other operations of the replica *)

Lemma wrapInt64_add_l (x y : Z) : wrapInt64 (wrapInt64 x + y) = wrapInt64 (x + y).
Proof.
  unfold wrapInt64. f_equal.
  replace ((x + 2 ^ 63) `mod` 2 ^ 64 - 2 ^ 63 + y + 2 ^ 63)
    with ((x + 2 ^ 63) `mod` 2 ^ 64 + y) by lia.
  rewrite Zplus_mod_idemp_l. f_equal. lia.
Qed.

Lemma wrapInt64_add_r (x y : Z) : wrapInt64 (x + wrapInt64 y) = wrapInt64 (x + y).
Proof. rewrite (Z.add_comm x), wrapInt64_add_l. f_equal. lia. Qed.

Lemma wrapInt64_id (z : Z) : - 2 ^ 63 ≤ z < 2 ^ 63 → wrapInt64 z = z.
Proof. intros Hz. unfold wrapInt64. rewrite Z.mod_small; lia. Qed.

(** X1 (segmentFlushed, with new2FlushedSegment and normal2FlushedSegment):
    the call never panics; afterwards the id is in neither the new nor the
    normal bucket, the other ids of all buckets are as before, and the
    flushed bucket holds the copy of the segment with the flushed flag set.
    When the id was in both buckets, the copy of the normal bucket is the
    one kept.  An unknown id changes nothing. *)
Theorem X1_segmentFlushed_moves (segID : Z) (r : SegmentReplica) :
  ∃ r', segmentFlushed segID r = Some r'
    ∧ replicaCollectionID r' = replicaCollectionID r
    ∧ newSegments r' = delete segID (newSegments r)
    ∧ normalSegments r' = delete segID (normalSegments r)
    ∧ compactedSegments r' = compactedSegments r
    ∧ flushedSegments r' =
        match normalSegments r !! segID, newSegments r !! segID with
        | Some seg, _ => <[segID := setFlags (isNew seg) true seg]> (flushedSegments r)
        | None, Some seg => <[segID := setFlags false true seg]> (flushedSegments r)
        | None, None => flushedSegments r
        end
    ∧ hasSegment segID false r' = false
    ∧ hasSegment segID true r' = hasSegment segID true r.
Proof.
  unfold segmentFlushed, new2FlushedSegment, normal2FlushedSegment, hasSegment.
  destruct (newSegments r !! segID) as [sn|] eqn:Hn;
    destruct (normalSegments r !! segID) as [sm|] eqn:Hm; cbn;
    rewrite ?Hn, ?Hm; cbn; rewrite ?Hn, ?Hm; cbn.
  - eexists. split; [done|]. cbn. rewrite insert_insert_eq, !lookup_delete_eq, lookup_insert_eq.
    done.
  - eexists. split; [done|]. cbn.
    rewrite (delete_id (normalSegments r)), !lookup_delete_eq, lookup_insert_eq, Hm by done.
    done.
  - eexists. split; [done|]. cbn.
    rewrite (delete_id (newSegments r)), !lookup_delete_eq, lookup_insert_eq, Hn by done.
    done.
  - eexists. split; [done|].
    rewrite !delete_id, Hn, Hm by done. by destruct r.
Qed.

Lemma removeSegments_lookup (segIDs : list Z) (id : Z) :
  ∀ r,
    let r' := removeSegments segIDs r in
    let after := λ (old : option Segment), if decide (id ∈ segIDs) then None else old in
    newSegments r' !! id = after (newSegments r !! id)
    ∧ normalSegments r' !! id = after (normalSegments r !! id)
    ∧ flushedSegments r' !! id = after (flushedSegments r !! id)
    ∧ compactedSegments r' !! id = after (compactedSegments r !! id)
    ∧ replicaCollectionID r' = replicaCollectionID r.
Proof.
  unfold removeSegments.
  induction segIDs as [|x l IH]; intros r; cbn zeta.
  - cbn. rewrite decide_False by set_solver. done.
  - cbn [foldl]. specialize (IH (mkSegmentReplica (replicaCollectionID r)
       (delete x (newSegments r)) (delete x (normalSegments r))
       (delete x (flushedSegments r)) (delete x (compactedSegments r)))).
    cbn zeta in IH. cbn [newSegments normalSegments flushedSegments compactedSegments
      replicaCollectionID] in IH.
    destruct IH as (H1 & H2 & H3 & H4 & H5).
    rewrite H1, H2, H3, H4, H5.
    destruct (decide (id ∈ l)) as [Hl|Hl].
    + destruct (decide (id ∈ x :: _)) as [_|Hn]; [done|].
      exfalso. apply Hn. by constructor.
    + destruct (decide (id = x)) as [->|Hx].
      * destruct (decide (x ∈ x :: _)) as [_|Hn]; [|exfalso; apply Hn; by constructor].
        by rewrite !lookup_delete_eq.
      * destruct (decide (id ∈ x :: _)) as [Hc|_].
        { by inversion Hc; subst. }
        by rewrite !lookup_delete_ne.
Qed.

(** X2 (removeSegments): afterwards none of the given ids is in any of the
    four buckets, so hasSegment answers false for them, and every other id
    is in each bucket with the segment it had there before. *)
Theorem X2_removeSegments (segIDs : list Z) (r : SegmentReplica) (id : Z) :
  let r' := removeSegments segIDs r in
  (id ∈ segIDs →
     newSegments r' !! id = None ∧ normalSegments r' !! id = None
     ∧ flushedSegments r' !! id = None ∧ compactedSegments r' !! id = None
     ∧ hasSegment id true r' = false)
  ∧ (¬ id ∈ segIDs →
     newSegments r' !! id = newSegments r !! id
     ∧ normalSegments r' !! id = normalSegments r !! id
     ∧ flushedSegments r' !! id = flushedSegments r !! id
     ∧ compactedSegments r' !! id = compactedSegments r !! id
     ∧ hasSegment id true r' = hasSegment id true r).
Proof.
  cbn zeta. pose proof (removeSegments_lookup segIDs id r) as H.
  cbn zeta in H. destruct H as (H1 & H2 & H3 & H4 & _).
  unfold hasSegment. rewrite H1, H2, H3, H4.
  split; intros Hin.
  - destruct (decide (id ∈ segIDs)); [|done]. by cbn.
  - by destruct (decide (id ∈ segIDs)).
Qed.

(** X3 (hasSegment, getCollectionAndPartitionID, getChannelName,
    getSegmentStatisticsUpdates): the three lookups succeed on exactly the
    ids for which hasSegment, counting the flushed bucket, answers true;
    they then read one and the same segment, that of the new bucket before
    that of the normal one before that of the flushed one; on any other id
    each returns its error. *)
Theorem X3_lookups_agree_with_hasSegment (segID : Z) (r : SegmentReplica) :
  if hasSegment segID true r
  then ∃ seg, findSegment segID r = Some seg
         ∧ getCollectionAndPartitionID segID r = inl (collectionID seg, partitionID seg)
         ∧ getChannelName segID r = inl (channelName seg)
         ∧ getSegmentStatisticsUpdates segID r = inl (mkSegmentStats segID (numRows seg))
  else findSegment segID r = None
       ∧ getCollectionAndPartitionID segID r = inr (ErrCannotFindSegment segID)
       ∧ getChannelName segID r = inr (ErrCannotFindSegment segID)
       ∧ getSegmentStatisticsUpdates segID r = inr (ErrNoSegment segID).
Proof.
  unfold hasSegment, findSegment, getCollectionAndPartitionID, getChannelName,
    getSegmentStatisticsUpdates.
  destruct (newSegments r !! segID) as [sn|]; cbn; [by eexists|].
  destruct (normalSegments r !! segID) as [sm|]; cbn; [by eexists|].
  destruct (flushedSegments r !! segID) as [sf|]; cbn; [by eexists|done].
Qed.

(** X4 (updateStatistics): two updates of one segment are one update by the
    sum of the two row counts, the sum taken as Go takes it on int64
    (modulo 2^64). *)
Theorem X4_updateStatistics_adds (segID a b : Z) (r : SegmentReplica) :
  updateStatistics segID b (updateStatistics segID a r)
  = updateStatistics segID (wrapInt64 (a + b)) r.
Proof.
  unfold updateStatistics.
  destruct (newSegments r !! segID) as [sn|] eqn:Hn; cbn.
  - rewrite lookup_insert_eq, insert_insert_eq. cbn.
    rewrite wrapInt64_add_l, wrapInt64_add_r, Z.add_assoc. done.
  - destruct (normalSegments r !! segID) as [sm|] eqn:Hm; cbn.
    + rewrite Hn, lookup_insert_eq, insert_insert_eq. cbn.
      rewrite wrapInt64_add_l, wrapInt64_add_r, Z.add_assoc. done.
    + by rewrite Hn, Hm.
Qed.

(** X5 (updateStatistics, getSegmentStatisticsUpdates): for a segment of
    the new or the normal bucket, the row count read after an update is the
    count read before plus the rows given (exactly so when the sum fits
    int64); a segment that is only in the flushed bucket, and an unknown
    id, are left as they are: the replica does not change at all. *)
Theorem X5_updateStatistics_read_back (segID rows : Z) (r : SegmentReplica) :
  if hasSegment segID false r
  then ∃ old,
         getSegmentStatisticsUpdates segID r = inl (mkSegmentStats segID old)
         ∧ getSegmentStatisticsUpdates segID (updateStatistics segID rows r)
           = inl (mkSegmentStats segID (wrapInt64 (old + rows)))
         ∧ (- 2 ^ 63 ≤ old + rows < 2 ^ 63 →
            getSegmentStatisticsUpdates segID (updateStatistics segID rows r)
            = inl (mkSegmentStats segID (old + rows)))
  else updateStatistics segID rows r = r.
Proof.
  unfold hasSegment, getSegmentStatisticsUpdates, updateStatistics.
  destruct (newSegments r !! segID) as [sn|] eqn:Hn; cbn.
  - exists (numRows sn). rewrite lookup_insert_eq. cbn.
    split; [done|]. split; [done|]. intros Hfit. by rewrite wrapInt64_id.
  - destruct (normalSegments r !! segID) as [sm|] eqn:Hm; cbn; [|done].
    exists (numRows sm). rewrite Hn, lookup_insert_eq. cbn.
    split; [done|]. split; [done|]. intros Hfit. by rewrite wrapInt64_id.
Qed.

(** X6 (refreshFlushedSegStatistics): the count given replaces the count of
    the segment of the flushed bucket (it is not added to it, and a second
    refresh overrides the first); the new and the normal bucket are never
    touched, and an id that is not in the flushed bucket changes nothing.
    For a segment that is only in the flushed bucket the count given is the
    one read back. *)
Theorem X6_refreshFlushedSegStatistics (segID a b : Z) (r : SegmentReplica) :
  let r' := refreshFlushedSegStatistics segID a r in
  newSegments r' = newSegments r
  ∧ normalSegments r' = normalSegments r
  ∧ refreshFlushedSegStatistics segID b r' = refreshFlushedSegStatistics segID b r
  ∧ (flushedSegments r !! segID = None → r' = r)
  ∧ (hasSegment segID false r = false → is_Some (flushedSegments r !! segID) →
     getSegmentStatisticsUpdates segID r' = inl (mkSegmentStats segID a)).
Proof.
  cbn zeta. unfold refreshFlushedSegStatistics, hasSegment, getSegmentStatisticsUpdates.
  destruct (flushedSegments r !! segID) as [sf|] eqn:Hf; cbn.
  - rewrite lookup_insert_eq, insert_insert_eq. cbn.
    split; [done|]. split; [done|]. split; [done|]. split; [done|].
    intros Hno _.
    destruct (newSegments r !! segID); [done|].
    destruct (normalSegments r !! segID); [done|]. done.
  - rewrite Hf. split; [done|]. split; [done|]. split; [done|]. split; [done|].
    intros _ [? ?]. done.
Qed.

(** X7 (updateSegmentEndPosition, updateSegmentCheckPoint,
    listSegmentsCheckPoints): for a segment that is in the new or in the
    normal bucket (not in both), setting the end position and then taking
    the check point lists, for that segment, its rows with that position;
    when the end position set is nil, taking the check point panics.  The
    rows are those that getSegmentStatisticsUpdates reports. *)
Theorem X7_checkpoint_after_end_position
    (segID : Z) (r : SegmentReplica) (rows : Z)
    (Hhas : hasSegment segID false r = true)
    (Hone : is_Some (newSegments r !! segID) → normalSegments r !! segID = None)
    (Hrows : getSegmentStatisticsUpdates segID r = inl (mkSegmentStats segID rows)) :
  updateSegmentCheckPoint segID (updateSegmentEndPosition segID None r) = None
  ∧ ∀ pos, ∃ r',
      updateSegmentCheckPoint segID (updateSegmentEndPosition segID (Some pos) r) = Some r'
      ∧ listSegmentsCheckPoints r' !! segID = Some (mkSegmentCheckPoint rows (Some pos)).
Proof.
  revert Hhas Hone Hrows.
  unfold hasSegment, getSegmentStatisticsUpdates, updateSegmentCheckPoint,
    updateSegmentEndPosition, listSegmentsCheckPoints.
  destruct (newSegments r !! segID) as [sn|] eqn:Hn; cbn.
  - intros _ Hone [= <-]. split; [by rewrite lookup_insert_eq|].
    intros pos. rewrite lookup_insert_eq. cbn. eexists. split; [done|]. cbn.
    rewrite lookup_union_r by (rewrite lookup_fmap, Hone; eauto).
    by rewrite lookup_fmap, lookup_insert_eq.
  - destruct (normalSegments r !! segID) as [sm|] eqn:Hm; cbn; [|done].
    intros _ _ [= <-]. rewrite Hn. split; [by rewrite lookup_insert_eq|].
    intros pos. rewrite lookup_insert_eq. cbn. eexists. split; [done|]. cbn.
    erewrite lookup_union_Some_l; [done|].
    by rewrite lookup_fmap, lookup_insert_eq.
Qed.

Lemma elem_of_bucketValues (b : gmap Z Segment) (seg : Segment) :
  seg ∈ bucketValues b ↔ ∃ id, b !! id = Some seg.
Proof.
  unfold bucketValues. rewrite list_elem_of_fmap. split.
  - intros ([id s] & -> & Hin). exists id. by apply elem_of_map_to_list.
  - intros [id Hid]. exists (id, seg). split; [done|]. by apply elem_of_map_to_list.
Qed.

Lemma elem_of_bucket_ids (b : gmap Z Segment) (id : Z) :
  (∀ k seg, b !! k = Some seg → segmentID seg = k) →
  id ∈ segmentID <$> bucketValues b ↔ is_Some (b !! id).
Proof.
  intros Hwf. rewrite list_elem_of_fmap. split.
  - intros (seg & -> & [k Hk]%elem_of_bucketValues).
    rewrite (Hwf k seg Hk). eauto.
  - intros [seg Hseg]. exists seg. split; [by rewrite (Hwf id seg Hseg)|].
    apply elem_of_bucketValues. eauto.
Qed.

Lemma bucket_ids_keys (b : gmap Z Segment) :
  (∀ k seg, b !! k = Some seg → segmentID seg = k) →
  segmentID <$> bucketValues b = (map_to_list b).*1.
Proof.
  intros Hwf. unfold bucketValues. rewrite <- list_fmap_compose.
  apply Forall_fmap_ext, Forall_forall. intros [k seg] Hin%elem_of_map_to_list.
  cbn. by apply Hwf.
Qed.

Lemma elem_of_keys (b : gmap Z Segment) (id : Z) :
  id ∈ (map_to_list b).*1 ↔ is_Some (b !! id).
Proof.
  rewrite list_elem_of_fmap. split.
  - intros ([k seg] & -> & Hin%elem_of_map_to_list). eauto.
  - intros [seg Hseg]. exists (id, seg). split; [done|]. by apply elem_of_map_to_list.
Qed.

(** X8 (listAllSegmentIDs, listNotFlushedSegmentIDs, listPartitionSegments,
    hasSegment): in a replica whose segments are stored under their own
    ids, listAllSegmentIDs lists the ids that hasSegment knows with the
    flushed bucket counted, listNotFlushedSegmentIDs those it knows without,
    and listPartitionSegments the ids with a segment of that partition in
    one of the three buckets; compacted segments are in none of the lists.
    When in addition no id is in two buckets, no id is listed twice. *)
Theorem X8_listed_ids (r : SegmentReplica) (Hwf : wfReplica r) :
  (∀ id, id ∈ listAllSegmentIDs r ↔ hasSegment id true r = true)
  ∧ (∀ id, id ∈ listNotFlushedSegmentIDs r ↔ hasSegment id false r = true)
  ∧ (∀ id partID, id ∈ listPartitionSegments partID r ↔
       ∃ seg, (newSegments r !! id = Some seg ∨ normalSegments r !! id = Some seg
               ∨ flushedSegments r !! id = Some seg)
              ∧ partitionID seg = partID)
  ∧ length (listAllSegmentIDs r)
    = (size (newSegments r) + size (normalSegments r) + size (flushedSegments r))%nat
  ∧ (disjointBuckets r → NoDup (listAllSegmentIDs r)).
Proof.
  assert (∀ k seg, newSegments r !! k = Some seg → segmentID seg = k) as Hn
    by (intros k seg H; apply Hwf; auto).
  assert (∀ k seg, normalSegments r !! k = Some seg → segmentID seg = k) as Hm
    by (intros k seg H; apply Hwf; auto).
  assert (∀ k seg, flushedSegments r !! k = Some seg → segmentID seg = k) as Hf
    by (intros k seg H; apply Hwf; auto).
  unfold listAllSegmentIDs, listNotFlushedSegmentIDs, listPartitionSegments, hasSegment.
  split_and!.
  - intros id. rewrite !elem_of_app, !elem_of_bucket_ids by done.
    rewrite !orb_true_iff, !bool_decide_eq_true. tauto.
  - intros id. rewrite !elem_of_app, !elem_of_bucket_ids by done.
    rewrite orb_false_r, !orb_true_iff, !bool_decide_eq_true. tauto.
  - intros id partID. rewrite !elem_of_app, !list_elem_of_fmap. split.
    + intros [H|[H|H]]; destruct H as (seg & -> & [Hp [k Hk]%elem_of_bucketValues]%list_elem_of_filter);
        exists seg; (split; [|done]).
      * left. by rewrite <- (Hn k seg Hk) in Hk.
      * right; left. by rewrite <- (Hm k seg Hk) in Hk.
      * right; right. by rewrite <- (Hf k seg Hk) in Hk.
    + intros (seg & [H|[H|H]] & Hp); [left|right; left|right; right];
        exists seg; (split; [symmetry; by apply Hwf; auto|]);
        apply list_elem_of_filter; (split; [done|]); apply elem_of_bucketValues; eauto.
  - rewrite !length_app, !length_fmap. unfold bucketValues.
    rewrite !length_fmap, !length_map_to_list. lia.
  - intros Hdis. rewrite !bucket_ids_keys by done.
    apply NoDup_app. split; [apply NoDup_fst_map_to_list|]. split.
    + intros id Hin%elem_of_keys [Hin'%elem_of_keys|Hin'%elem_of_keys]%elem_of_app.
      * destruct (Hdis id) as [H1 _]. destruct (H1 Hin) as [H2 _].
        rewrite H2 in Hin'. by destruct Hin'.
      * destruct (Hdis id) as [H1 _]. destruct (H1 Hin) as [_ H2].
        rewrite H2 in Hin'. by destruct Hin'.
    + apply NoDup_app. split; [apply NoDup_fst_map_to_list|].
      split; [|apply NoDup_fst_map_to_list].
      intros id Hin%elem_of_keys Hin'%elem_of_keys.
      destruct (Hdis id) as [_ H1]. rewrite (H1 Hin) in Hin'. by destruct Hin'.
Qed.

Lemma compactedLoop_spec (entries : list (Z * Segment)) :
  ∀ (acc : gmap Z (list Z)) (to id : Z),
    let result :=
      foldl (λ (compactedTo2From : gmap Z (list Z)) (e : Z * Segment),
               <[compactedTo e.2 := default [] (compactedTo2From !! compactedTo e.2) ++ [e.1]]>
                 compactedTo2From)
            acc entries in
    (id ∈ default [] (result !! to) ↔
       id ∈ default [] (acc !! to)
       ∨ ∃ seg, (id, seg) ∈ entries ∧ compactedTo seg = to)
    ∧ ((∀ k, acc !! k ≠ Some []) → result !! to ≠ Some []).
Proof.
  induction entries as [|[k seg] rest IH]; intros acc to id; cbn zeta.
  - cbn. split; [|by auto]. split; [by left|]. intros [H|(seg & H%elem_of_nil & _)]; done.
  - cbn [foldl]. cbn [fst snd].
    specialize (IH (<[compactedTo seg := default [] (acc !! compactedTo seg) ++ [k]]> acc)
                  to id). cbn zeta in IH. destruct IH as [IH1 IH2]. split.
    + rewrite IH1. destruct (decide (compactedTo seg = to)) as [<-|Hne].
      * rewrite lookup_insert_eq. cbn. rewrite elem_of_app, list_elem_of_singleton. split.
        -- intros [[H| ->]|(s & Hin & Hto)]; [by left|right..].
           ++ exists seg. split; [left|done].
           ++ exists s. split; [by right|done].
        -- intros [H|(s & Hin & Hto)]; [by left; left|].
           apply elem_of_cons in Hin as [[= -> ->]|Hin]; [left; by right|].
           right. by exists s.
      * rewrite lookup_insert_ne by done. split.
        -- intros [H|(s & Hin & Hto)]; [by left|]. right. exists s. split; [by right|done].
        -- intros [H|(s & Hin & Hto)]; [by left|].
           apply elem_of_cons in Hin as [[= -> ->]|Hin]; [done|]. right. by exists s.
    + intros Hacc. apply IH2. intros k'.
      destruct (decide (compactedTo seg = k')) as [<-|Hne].
      * rewrite lookup_insert_eq. intros [= H]. by apply app_nil in H as [_ ?].
      * rewrite lookup_insert_ne by done. apply Hacc.
Qed.

(** X9 (listCompactedSegmentIDs): the list that the result keeps for a
    target id holds exactly the ids of the segments of the compacted bucket
    whose compactedTo is that target; no target is listed with an empty
    list. *)
Theorem X9_listCompactedSegmentIDs (r : SegmentReplica) (to : Z) :
  (∀ id, id ∈ default [] (listCompactedSegmentIDs r !! to) ↔
         ∃ seg, compactedSegments r !! id = Some seg ∧ compactedTo seg = to)
  ∧ listCompactedSegmentIDs r !! to ≠ Some [].
Proof.
  unfold listCompactedSegmentIDs. split.
  - intros id.
    destruct (compactedLoop_spec (map_to_list (compactedSegments r)) ∅ to id) as [H _].
    cbn zeta in H. rewrite H, lookup_empty. cbn. split.
    + intros [H0%elem_of_nil|(seg & Hin%elem_of_map_to_list & Hto)]; [done|]. eauto.
    + intros (seg & Hin & Hto). right. exists seg. split; [|done].
      by apply elem_of_map_to_list.
  - destruct (compactedLoop_spec (map_to_list (compactedSegments r)) ∅ to 0) as [_ H].
    apply H. intros k. by rewrite lookup_empty.
Qed.

Lemma moveCompacted_moved (to : Z) (compactedFrom : list Z) :
  ∀ r r', moveCompacted to compactedFrom r = (true, r') →
    replicaCollectionID r' = replicaCollectionID r
    ∧ newSegments r' = newSegments r
    ∧ normalSegments r' = normalSegments r
    ∧ (∀ id, flushedSegments r' !! id =
             if decide (id ∈ compactedFrom) then None else flushedSegments r !! id)
    ∧ (∀ id, if decide (id ∈ compactedFrom)
             then ∃ s, compactedSegments r' !! id = Some s ∧ compactedTo s = to
             else compactedSegments r' !! id = compactedSegments r !! id).
Proof.
  induction compactedFrom as [|ID rest IH]; intros r r'; cbn.
  - intros [= <-]. split_and!; try done.
  - destruct (flushedSegments r !! ID) as [s|] eqn:Hs; [|done].
    intros Hrun. apply IH in Hrun as (Hc & Hn & Hm & Hf & Hmoved). cbn in *.
    split_and!; try done.
    + intros id. rewrite Hf. destruct (decide (id = ID)) as [->|Hne].
      * rewrite lookup_delete_eq. case_elem_of_cons.
      * rewrite lookup_delete_ne by done. case_elem_of_cons.
    + intros id. specialize (Hmoved id).
      destruct (decide (id ∈ rest)) as [Hr|Hr].
      * destruct (decide (id ∈ ID :: _)) as [_|Hbad]; [done|].
        exfalso. apply Hbad. by right.
      * destruct (decide (id = ID)) as [->|Hne].
        -- destruct (decide (ID ∈ ID :: _)) as [_|Hbad]; [|exfalso; apply Hbad; left].
           rewrite Hmoved, lookup_insert_eq. by eexists.
        -- destruct (decide (id ∈ ID :: _)) as [Hc'|_].
           { by apply elem_of_cons in Hc' as [?|?]. }
           by rewrite Hmoved, lookup_insert_ne.
Qed.

Lemma mergeFlushedSegments_returned (seg : Segment) (planID : Z)
    (compactedFrom : list Z) (r r' : SegmentReplica) :
  mergeFlushedSegments seg planID compactedFrom r = (Returned None, r') →
  (∀ ID, ID ∈ compactedFrom → isFlushedSegment ID r = true)
  ∧ ∃ r1, moveCompacted (segmentID seg) compactedFrom r = (true, r1)
          ∧ r' = if bool_decide (0 < numRows seg)
                 then mkSegmentReplica (replicaCollectionID r1) (newSegments r1)
                        (normalSegments r1)
                        (<[segmentID seg := setFlags false true seg]> (flushedSegments r1))
                        (compactedSegments r1)
                 else r1.
Proof.
  unfold mergeFlushedSegments. case_bool_decide; [done|].
  case_bool_decide as Hlen; [done|].
  destruct (moveCompacted (segmentID seg) compactedFrom r) as [[] r1] eqn:Hmove;
    [|by case_bool_decide].
  intros Hrun. split.
  - intros ID HID. destruct (isFlushedSegment ID r) eqn:Hfl; [done|].
    exfalso. apply Hlen. rewrite inValidSegments_filter.
    assert (ID ∈ filter (λ ID, isFlushedSegment ID r = false) compactedFrom) as Hin
      by (by apply list_elem_of_filter).
    destruct (filter _ compactedFrom); [by apply elem_of_nil in Hin|cbn; lia].
  - exists r1. split; [done|]. case_bool_decide; by injection Hrun as <-.
Qed.

(** X10 (mergeFlushedSegments, then listCompactedSegmentIDs and hasSegment):
    after a merge that returned no error, listCompactedSegmentIDs reports
    every id of compactedFrom under the id of the new segment, and
    hasSegment no longer knows these ids, the one case apart in which the
    new segment carries the id of one of its sources and has rows. *)
Theorem X10_merge_then_lists (seg : Segment) (planID : Z) (compactedFrom : list Z)
    (r r' : SegmentReplica)
    (Hrun : mergeFlushedSegments seg planID compactedFrom r = (Returned None, r')) :
  ∀ ID, ID ∈ compactedFrom →
    ID ∈ default [] (listCompactedSegmentIDs r' !! segmentID seg)
    ∧ hasSegment ID false r' = false
    ∧ hasSegment ID true r' = bool_decide (ID = segmentID seg ∧ 0 < numRows seg).
Proof.
  apply mergeFlushedSegments_returned in Hrun as (Hok & r1 & Hmove & Hr').
  apply moveCompacted_moved in Hmove as (_ & Hn & Hm & Hf & Hc).
  intros ID HID.
  destruct (proj1 (isFlushedSegment_buckets ID r) (Hok ID HID)) as (_ & Hnew & Hnorm).
  assert (newSegments r' = newSegments r) as Hn' by (subst r'; by case_bool_decide).
  assert (normalSegments r' = normalSegments r) as Hm' by (subst r'; by case_bool_decide).
  assert (compactedSegments r' = compactedSegments r1) as Hc'
    by (subst r'; by case_bool_decide).
  split; [|split].
  - unfold listCompactedSegmentIDs.
    destruct (compactedLoop_spec (map_to_list (compactedSegments r')) ∅ (segmentID seg) ID)
      as [H _].
    cbn zeta in H. apply H. right. specialize (Hc ID).
    rewrite decide_True in Hc by done. destruct Hc as (s & Hs & Hto).
    exists s. split; [|done]. apply elem_of_map_to_list. by rewrite Hc'.
  - unfold hasSegment. by rewrite Hn', Hm', Hnew, Hnorm.
  - unfold hasSegment. rewrite Hn', Hm', Hnew, Hnorm. cbn. subst r'.
    case_bool_decide as Hrows; cbn.
    + destruct (decide (ID = segmentID seg)) as [->|Hne].
      * rewrite lookup_insert_eq. rewrite bool_decide_eq_true_2 by done.
        symmetry. by apply bool_decide_eq_true_2.
      * rewrite lookup_insert_ne, Hf, decide_True by done.
        symmetry. apply bool_decide_eq_false_2. by intros [? _].
    + rewrite Hf, decide_True by done.
      symmetry. apply bool_decide_eq_false_2. by intros [_ ?].
Qed.

Lemma updatePKRangeLoop_segmentID {A} (mk : A → primaryKey) (enc : A → list Z) pks :
  ∀ s, segmentID (updatePKRangeLoop mk enc pks s).1 = segmentID s.
Proof.
  induction pks as [|pk pks IH]; intros s; [done|].
  cbn. by rewrite IH.
Qed.

Lemma updatePKRange_segmentID (ids : FieldData) (s : Segment) :
  segmentID (updatePKRange ids s).1 = segmentID s.
Proof. destruct ids; cbn; [apply updatePKRangeLoop_segmentID..|done]. Qed.

(** A replica whose buckets hold fewer segments, under the ids they had,
    is as well formed as the one it comes from. *)
Lemma replicaInv_sub (r r' : SegmentReplica) :
  replicaInv r →
  (∀ id s', newSegments r' !! id = Some s' →
     ∃ s, newSegments r !! id = Some s ∧ segmentID s' = segmentID s) →
  (∀ id s', normalSegments r' !! id = Some s' →
     ∃ s, normalSegments r !! id = Some s ∧ segmentID s' = segmentID s) →
  (∀ id s', flushedSegments r' !! id = Some s' →
     ∃ s, flushedSegments r !! id = Some s ∧ segmentID s' = segmentID s) →
  replicaInv r'.
Proof.
  intros [Hwf Hdis] Hn Hm Hf. split.
  - intros id s' [H|[H|H]]; [apply Hn in H|apply Hm in H|apply Hf in H];
      destruct H as (s & Hs & ->); apply Hwf; auto.
  - intros id. destruct (Hdis id) as [H1 H2]. split.
    + intros [s' (s & Hs & _)%Hn]. destruct H1 as [H1 H1']; [eauto|]. split.
      * destruct (normalSegments r' !! id) as [x|] eqn:Hx; [|done].
        apply Hm in Hx as (? & Hx & _). congruence.
      * destruct (flushedSegments r' !! id) as [x|] eqn:Hx; [|done].
        apply Hf in Hx as (? & Hx & _). congruence.
    + intros [s' (s & Hs & _)%Hm].
      destruct (flushedSegments r' !! id) as [x|] eqn:Hx; [|done].
      apply Hf in Hx as (? & Hx & _). rewrite H2 in Hx; [done|eauto].
Qed.

Ltac same_bucket :=
  let H := fresh "H" in
  intros ? ? H; cbn in H;
  try (apply lookup_insert_Some in H as [[<- <-]|[_ H]]);
  eauto using updatePKRange_segmentID.

Lemma replicaInv_updates (c : replicaCall) (r r' : SegmentReplica) :
  match c with
  | CallUpdateStatistics _ _ | CallRefreshFlushedSegStatistics _ _
  | CallUpdateSegmentEndPosition _ _ | CallUpdateSegmentCheckPoint _
  | CallUpdateSegmentPKRange _ _ | CallRemoveSegments _ => True
  | _ => False
  end →
  replicaInv r → call c r = Some r' → replicaInv r'.
Proof.
  intros Hc Hinv Hrun. destruct c; try done; cbn in Hrun.
  - injection Hrun as <-. apply (replicaInv_sub r); [done|..];
      intros id s' Hs';
      destruct (removeSegments_lookup segIDs id r) as (H1 & H2 & H3 & _);
      cbn zeta in *; rewrite ?H1, ?H2, ?H3 in Hs';
      destruct (decide (id ∈ segIDs)); try done; eauto.
  - injection Hrun as <-. unfold updateStatistics.
    destruct (newSegments r !! segID) eqn:Hn;
      [|destruct (normalSegments r !! segID) eqn:Hm; [|done]];
      (apply (replicaInv_sub r); [done|..]); same_bucket.
  - injection Hrun as <-. unfold refreshFlushedSegStatistics.
    destruct (flushedSegments r !! segID) eqn:Hf; [|done].
    apply (replicaInv_sub r); [done|..]; same_bucket.
  - injection Hrun as <-. unfold updateSegmentEndPosition.
    destruct (newSegments r !! segID) eqn:Hn;
      [|destruct (normalSegments r !! segID) eqn:Hm; [|done]];
      (apply (replicaInv_sub r); [done|..]); same_bucket.
  - unfold updateSegmentCheckPoint, checkPointOf in Hrun.
    destruct (newSegments r !! segID) as [sn|] eqn:Hn;
      [|destruct (normalSegments r !! segID) as [sn|] eqn:Hm; [|by injection Hrun as <-]];
      (destruct (endPos sn); [|done]); cbn in Hrun; injection Hrun as <-;
      (apply (replicaInv_sub r); [done|..]); same_bucket.
  - injection Hrun as <-. unfold updateSegmentPKRange.
    destruct (newSegments r !! segID) eqn:Hn;
      [|destruct (normalSegments r !! segID) eqn:Hm;
        [|destruct (flushedSegments r !! segID) eqn:Hf; [|done]]];
      (apply (replicaInv_sub r); [done|..]); same_bucket.
Qed.

Lemma replicaInv_segmentFlushed (segID : Z) (r r' : SegmentReplica) :
  replicaInv r → segmentFlushed segID r = Some r' → replicaInv r'.
Proof.
  intros [Hwf Hdis].
  unfold segmentFlushed, new2FlushedSegment, normal2FlushedSegment.
  destruct (Hdis segID) as [Hd1 Hd2].
  destruct (newSegments r !! segID) as [sn|] eqn:Hn; cbn.
  - destruct Hd1 as [Hm Hf]; [eauto|]. rewrite Hm. cbn. intros [= <-]. split.
    + intros id s. cbn. intros [H|[H|H]].
      * apply lookup_delete_Some in H as [_ H]. apply Hwf; auto.
      * apply Hwf; auto.
      * apply lookup_insert_Some in H as [[<- <-]|[_ H]]; [|apply Hwf; auto].
        cbn. apply Hwf; auto.
    + intros id. cbn. destruct (Hdis id) as [H1 H2]. split.
      * intros [s [Hne Hs]%lookup_delete_Some].
        rewrite lookup_insert_ne by done. apply H1. eauto.
      * intros Hs. destruct (decide (segID = id)) as [<-|Hne].
        -- rewrite Hm in Hs. by destruct Hs.
        -- rewrite lookup_insert_ne by done. by apply H2.
  - destruct (normalSegments r !! segID) as [sm|] eqn:Hm; cbn; [|by intros [= <-]].
    intros [= <-]. split.
    + intros id s. cbn. intros [H|[H|H]].
      * apply Hwf; auto.
      * apply lookup_delete_Some in H as [_ H]. apply Hwf; auto.
      * apply lookup_insert_Some in H as [[<- <-]|[_ H]]; [|apply Hwf; auto].
        cbn. apply Hwf; auto.
    + intros id. cbn. destruct (Hdis id) as [H1 H2]. split.
      * intros Hs. destruct (decide (segID = id)) as [<-|Hne].
        -- rewrite Hn in Hs. by destruct Hs.
        -- rewrite lookup_delete_ne, lookup_insert_ne by done. by apply H1.
      * intros [s [Hne Hs]%lookup_delete_Some].
        rewrite lookup_insert_ne by done. apply H2. eauto.
Qed.

Lemma replicaInv_listNew (r r' : SegmentReplica) (result : list SegmentStartPosition) :
  replicaInv r → listNewSegmentsStartPositions r = Some (result, r') → replicaInv r'.
Proof.
  intros [Hwf Hdis]. unfold listNewSegmentsStartPositions.
  destruct (listNewLoop_spec (map_to_list (newSegments r)) [] r)
    as (r1 & Hrun & _ & Hfl & _ & Hnew & Hnorm).
  { apply NoDup_fst_map_to_list. }
  { intros id seg. apply elem_of_map_to_list. }
  rewrite Hrun. intros [= _ <-].
  assert (∀ id, newSegments r1 !! id = None) as Hempty.
  { intros id. rewrite Hnew. case_decide as Hk; [done|].
    destruct (newSegments r !! id) as [seg|] eqn:E; [|done].
    exfalso. apply Hk, elem_of_keys. eauto. }
  assert (∀ id s, normalSegments r1 !! id = Some s →
            ∃ s0, (newSegments r !! id = Some s0 ∨ normalSegments r !! id = Some s0)
                  ∧ segmentID s = segmentID s0) as Hfrom.
  { intros id s. rewrite Hnorm, list_to_map_to_list.
    destruct (newSegments r !! id) as [seg|] eqn:E.
    - intros [= <-]. exists seg. auto.
    - intros H. exists s. auto. }
  split.
  - intros id s [H|[H|H]].
    + by rewrite Hempty in H.
    + apply Hfrom in H as (s0 & [H|H] & ->); apply Hwf; auto.
    + rewrite Hfl in H. apply Hwf; auto.
  - intros id. split.
    + rewrite Hempty. by intros [? ?].
    + intros [s (s0 & [H|H] & _)%Hfrom]; rewrite Hfl; destruct (Hdis id) as [H1 H2].
      * apply H1. eauto.
      * apply H2. eauto.
Qed.

Lemma replicaInv_merge (seg : Segment) (planID : Z) (compactedFrom : list Z)
    (r r' : SegmentReplica) (err : option error) :
  replicaInv r → hasSegment (segmentID seg) false r = false →
  mergeFlushedSegments seg planID compactedFrom r = (Returned err, r') → replicaInv r'.
Proof.
  intros Hinv Hfree. unfold mergeFlushedSegments.
  case_bool_decide as Hcol; [by intros [= _ <-]|].
  case_bool_decide as Hlen; [by intros [= _ <-]|].
  destruct (moveCompacted (segmentID seg) compactedFrom r) as [[] r1] eqn:Hmove; [|done].
  apply moveCompacted_moved in Hmove as (_ & Hn & Hm & Hf & _).
  assert (replicaInv r1) as [Hwf1 Hdis1].
  { apply (replicaInv_sub r); [done|..]; intros id s'.
    - rewrite Hn. eauto.
    - rewrite Hm. eauto.
    - rewrite Hf. case_decide; [done|eauto]. }
  case_bool_decide as Hrows; intros [= _ <-]; [|done].
  unfold hasSegment in Hfree. rewrite orb_false_r in Hfree.
  apply orb_false_iff in Hfree as [Hfn Hfm].
  apply bool_decide_eq_false, eq_None_not_Some in Hfn, Hfm.
  split.
  - intros id s. cbn. intros [H|[H|H]]; [apply Hwf1; auto..|].
    apply lookup_insert_Some in H as [[<- <-]|[_ H]]; [done|apply Hwf1; auto].
  - intros id. cbn. destruct (Hdis1 id) as [H1 H2].
    destruct (decide (segmentID seg = id)) as [<-|Hne].
    + rewrite Hn, Hm, Hfn, Hfm. split; by intros [? ?].
    + rewrite lookup_insert_ne by done. done.
Qed.

(** X11 (segmentFlushed, listNewSegmentsStartPositions, removeSegments,
    updateStatistics, refreshFlushedSegStatistics, updateSegmentEndPosition,
    updateSegmentCheckPoint, updateSegmentPKRange, mergeFlushedSegments):
    a segment belongs to one working set at a time.  When every segment of
    the new, normal and flushed buckets is stored under its own id and no
    id is in two of these buckets, the same holds after each of these
    calls, whatever it returns, provided the segment handed to
    mergeFlushedSegments does not carry the id of a new or normal
    segment. *)
Theorem X11_one_bucket_at_a_time (c : replicaCall) (r r' : SegmentReplica)
    (Hinv : replicaInv r) (Hallowed : callAllowed c r) (Hrun : call c r = Some r') :
  replicaInv r'.
Proof.
  destruct c as [segID| | | | | | | |seg planID compactedFrom];
    try (refine (replicaInv_updates _ r r' _ Hinv Hrun); exact I); cbn in Hrun.
  - by apply (replicaInv_segmentFlushed segID r).
  - destruct (listNewSegmentsStartPositions r) as [[result r1]|] eqn:Hl; [|done].
    injection Hrun as <-. by apply (replicaInv_listNew r r1 result).
  - destruct (mergeFlushedSegments seg planID compactedFrom r) as [[err|] r1] eqn:Hm;
      [|done].
    injection Hrun as <-. by apply (replicaInv_merge seg planID compactedFrom r r1 err).
Qed.

(** X12 (updateSegmentPKRange, with Segment.updatePKRange): the batch goes
    to the one segment that the lookups of the replica find under the id
    (new bucket first, then normal, then flushed).  Afterwards that segment
    has the encodings of the keys of the batch added to its filter, and its
    minPK and maxPK are the least and the greatest key seen so far; the
    segments found under the other ids are the same as before. *)
Theorem X12_updateSegmentPKRange
    (segID : Z) (ids : FieldData) (r : SegmentReplica) (seg : Segment)
    (ks : list primaryKey)
    (Hfind : findSegment segID r = Some seg)
    (Hkind : oneKind (ks ++ batchKeys ids))
    (Hrange : pkRangeOf ks seg) :
  let r' := updateSegmentPKRange segID ids r in
  (∃ seg', findSegment segID r' = Some seg'
           ∧ pkFilter seg' = pkFilter seg ++ batchItems ids
           ∧ pkRangeOf (ks ++ batchKeys ids) seg'
           ∧ segmentID seg' = segmentID seg)
  ∧ ∀ id, id ≠ segID → findSegment id r' = findSegment id r.
Proof.
  destruct (updatePKRange_spec ids ks seg Hkind Hrange) as (seg' & Hrun & Hf & Hr).
  pose proof (updatePKRange_segmentID ids seg) as Hid. rewrite Hrun in Hid.
  cbn zeta. revert Hfind. unfold findSegment, updateSegmentPKRange.
  destruct (newSegments r !! segID) as [sn|] eqn:Hn.
  { intros [= ->]. cbn. rewrite lookup_insert_eq, Hrun. split; [by exists seg'|].
    intros id Hne. by rewrite lookup_insert_ne. }
  destruct (normalSegments r !! segID) as [sm|] eqn:Hm.
  { intros [= ->]. cbn. rewrite Hn, lookup_insert_eq, Hrun. split; [by exists seg'|].
    intros id Hne. by rewrite lookup_insert_ne. }
  intros Hfl. rewrite Hfl. cbn. rewrite Hn, Hm, lookup_insert_eq, Hrun.
  split; [by exists seg'|].
  intros id Hne. by rewrite lookup_insert_ne.
Qed.

(** X13 (getCollectionSchema): once a call has returned a schema, every
    later call for the collection returns that same schema, whatever
    timestamp it asks for and whatever the meta service would answer by
    then: the replica keeps the first schema and does not ask again. *)
Theorem X13_schema_kept {Schema : Type}
    (metaService metaService' : Z → Z → option Schema + string)
    (collID ts ts' replicaCollection : Z) (collSchema : option Schema) (sch : Schema)
    (Hfirst : (getCollectionSchema metaService collID ts replicaCollection collSchema).1
              = inl (Some sch)) :
  getCollectionSchema metaService' collID ts' replicaCollection
    (getCollectionSchema metaService collID ts replicaCollection collSchema).2
  = (inl (Some sch), Some sch).
Proof.
  revert Hfirst. unfold getCollectionSchema.
  case_bool_decide as Hcol; [done|].
  destruct collSchema as [kept|]; cbn.
  - by intros [= ->].
  - destruct (metaService collID ts) as [answer|msg]; cbn; [|done].
    by intros [= ->].
Qed.

(** X14 (filterSegments): the result holds the segments of the new, normal
    and flushed buckets that are on the channel and, unless the partition
    asked for is the invalid one, in the partition; segments of the
    compacted bucket are not considered. *)
Theorem X14_filterSegments (InvalidPartitionID : Z) (chanName : string) (partID : Z)
    (r : SegmentReplica) (seg : Segment) :
  seg ∈ filterSegments InvalidPartitionID chanName partID r ↔
  (∃ id, newSegments r !! id = Some seg ∨ normalSegments r !! id = Some seg
         ∨ flushedSegments r !! id = Some seg)
  ∧ channelName seg = chanName
  ∧ (partID = InvalidPartitionID ∨ partitionID seg = partID).
Proof.
  unfold filterSegments. rewrite !elem_of_app, !list_elem_of_filter, !elem_of_bucketValues.
  split.
  - intros [[H [id Hid]]|[[H [id Hid]]|[H [id Hid]]]]; (split; [exists id; auto|done]).
  - intros [[id [Hid|[Hid|Hid]]] H]; [left|right; left|right; right]; eauto.
Qed.

(** ** Coordinator: the other operations of the catalog *)

Lemma alter_insert_Some {A} (f : A → A) (k : Z) (x : A) (segs : gmap Z A) :
  segs !! k = Some x → alter f k segs = <[k := f x]> segs.
Proof.
  intros Hk. apply map_eq. intros i. destruct (decide (i = k)) as [->|Hne].
  - by rewrite lookup_alter_eq, lookup_insert_eq, Hk.
  - by rewrite lookup_alter_ne, lookup_insert_ne.
Qed.

(** X15 (DropSegment): the call does not panic.  When it returns nil the
    index no longer has the id, whether it had it or not, and every other
    id is as before; when the id was indexed under the id of its record,
    that record has been removed from the store as well.  When it returns
    an error, this is the error of the store, and the index and the records
    of the store are as before. *)
Theorem X15_DropSegment (segmentID : Z) (m : meta) :
  let out := DropSegment segmentID m in
  out.1 ≠ Panicked
  ∧ (out.1 = Returned None →
       GetSegmentUnsafe segmentID out.2 = None
       ∧ (∀ k, k ≠ segmentID → segments out.2 !! k = segments m !! k)
       ∧ (segments m !! segmentID = None → out.2 = m)
       ∧ (∀ s, segments m !! segmentID = Some s → ID (segmentInfo s) = segmentID →
            persisted (catalog out.2) = delete segmentID (persisted (catalog m))))
  ∧ (∀ err, out.1 = Returned (Some err) →
       segments out.2 = segments m
       ∧ persisted (catalog out.2) = persisted (catalog m)
       ∧ is_Some (segments m !! segmentID)
       ∧ ∃ f rest, faults (catalog m) = Some f :: rest ∧ err = ErrStore (faultMsg f)).
Proof.
  cbn zeta. unfold DropSegment, GetSegmentUnsafe, GetSegment, catalogDropSegment,
    SegmentsInfo_DropSegment, nextFault.
  destruct (segments m !! segmentID) as [s|] eqn:Hs.
  - destruct (faults (catalog m)) as [|[f|] rest]; cbn.
    + split; [done|]. split; [|done]. intros _. rewrite lookup_delete_eq.
      split; [done|]. split; [by intros; rewrite lookup_delete_ne|].
      split; [done|]. by intros ? [= <-] ->.
    + split; [done|]. split; [done|]. intros err [= <-]. eauto 10.
    + split; [done|]. split; [|done]. intros _. rewrite lookup_delete_eq.
      split; [done|]. split; [by intros; rewrite lookup_delete_ne|].
      split; [done|]. by intros ? [= <-] ->.
  - cbn. rewrite Hs. split; [done|]. split; [|done]. done.
Qed.

(** X16 (AddSegment, then DropSegment): adding a segment whose id is new to
    the index and to the store, and dropping it again, both without error,
    gives back the index and the stored records as they were. *)
Theorem X16_add_then_drop (segment : SegmentInfo) (m : meta)
    (Hnew : segments m !! ID (segmentInfo segment) = None)
    (Hstore : persisted (catalog m) !! ID (segmentInfo segment) = None)
    (Hadd : (AddSegment segment m).1 = Returned None)
    (Hdrop : (DropSegment (ID (segmentInfo segment)) (AddSegment segment m).2).1
             = Returned None) :
  let m' := (DropSegment (ID (segmentInfo segment)) (AddSegment segment m).2).2 in
  segments m' = segments m ∧ persisted (catalog m') = persisted (catalog m).
Proof.
  revert Hadd Hdrop. cbn zeta.
  unfold AddSegment, catalogAddSegment, catalogAlterSegments, nextFault.
  destruct (faults (catalog m)) as [|[f|] rest]; cbn; try done;
    intros _; unfold DropSegment, GetSegment, SetSegment; cbn;
    rewrite lookup_insert_eq; unfold catalogDropSegment, nextFault; cbn.
  - intros _. unfold SegmentsInfo_DropSegment.
    by rewrite !delete_insert_eq, !delete_id.
  - destruct rest as [|[f|] rest']; cbn; try done; intros _;
      unfold SegmentsInfo_DropSegment; by rewrite !delete_insert_eq, !delete_id.
Qed.

(** X17 (GetSegment, GetSegmentUnsafe, HasSegments, after SetState): GetSegment
    returns the record of an id exactly when GetSegmentUnsafe returns it and
    its state is a healthy one.  Setting an indexed segment to Dropped
    returns nil without asking the store; afterwards GetSegment no longer
    returns the segment, while GetSegmentUnsafe returns it in state Dropped
    and HasSegments still counts it. *)
Theorem X17_GetSegment_healthy_only (segID : Z) (m : meta) :
  (∀ s, meta_GetSegment segID m = Some s ↔
        GetSegmentUnsafe segID m = Some s
        ∧ healthyState (State (segmentInfo s)) = true)
  ∧ ∀ s, segments m !! segID = Some s →
      let out := SetState segID Dropped m in
      out.1 = Returned None
      ∧ catalog out.2 = catalog m
      ∧ meta_GetSegment segID out.2 = None
      ∧ GetSegmentUnsafe segID out.2 = Some (onInfo (withState Dropped) s)
      ∧ HasSegments [segID] out.2 = (true, None).
Proof.
  split.
  - intros s. unfold meta_GetSegment, GetSegmentUnsafe, GetSegment.
    destruct (segments m !! segID) as [s0|]; [|by split; [|intros [? _]]].
    change (isSegmentHealthy (Some s0)) with (healthyState (State (segmentInfo s0))).
    destruct (healthyState (State (segmentInfo s0))) eqn:Hh; split.
    + by intros [= <-].
    + by intros [? _].
    + done.
    + intros [[= <-] H]. congruence.
  - intros s Hs. cbn zeta.
    assert (isSegmentHealthy (Some (onInfo (withState Dropped) (Clone s))) = false) as Hh
      by (by vm_compute).
    unfold SetState, meta_GetSegment, GetSegmentUnsafe, GetSegment.
    rewrite Hs. cbv zeta. rewrite Hh. cbn.
    unfold SegmentsInfo_SetState. rewrite lookup_alter_eq, Hs. cbn. done.
Qed.

(** X18 (HasSegments): the answer is (true, nil) exactly when the index has
    every id of the list, whatever the state of the segments; otherwise it
    is false with the error of the first id of the list that the index does
    not have. *)
Theorem X18_HasSegments (segIDs : list Z) (m : meta) :
  (HasSegments segIDs m = (true, None) ↔
     ∀ id, id ∈ segIDs → is_Some (segments m !! id))
  ∧ (∀ ok, HasSegments segIDs m ≠ (ok, None) ∨ ok = true)
  ∧ (∀ ok err, HasSegments segIDs m = (ok, Some err) →
       ok = false
       ∧ ∃ before id after,
           segIDs = before ++ id :: after
           ∧ err = ErrSegmentNotExist id
           ∧ segments m !! id = None
           ∧ ∀ k, k ∈ before → is_Some (segments m !! k)).
Proof.
  induction segIDs as [|segID rest (IH1 & IH2 & IH3)]; cbn.
  - split; [|split].
    + split; [by intros _ id H%elem_of_nil|done].
    + intros ok. destruct ok; [by right|by left].
    + done.
  - case_bool_decide as Hin.
    + split; [|split].
      * rewrite IH1. split.
        -- intros H id [->|Hid]%elem_of_cons; [done|by apply H].
        -- intros H id Hid. apply H. by right.
      * done.
      * intros ok err (-> & before & id & after & -> & -> & Hid & Hbefore)%IH3.
        split; [done|]. exists (segID :: before), id, after. split_and!; try done.
        intros k [->|Hk]%elem_of_cons; [done|by apply Hbefore].
    + apply eq_None_not_Some in Hin. split; [|split].
      * split; [done|]. intros H. destruct (H segID) as [? Hs]; [left|]. congruence.
      * intros ok. by left.
      * intros ok err [= <- <-]. split; [done|].
        exists [], segID, rest. split_and!; try done. by intros k H%elem_of_nil.
Qed.

(** X19 (UnsetIsImporting): on an id that the index does not have, the call
    returns its own error and changes nothing (where SetState returns nil).
    Whenever it returns an error, the index and the records of the store
    are as before.  When it returns nil, the indexed record is the old one
    with the importing flag off, the other ids are as before, and, the
    segment being a healthy one, the store holds that same record; the
    store is not asked for a segment that is not healthy. *)
Theorem X19_UnsetIsImporting (segmentID : Z) (m : meta) :
  let out := UnsetIsImporting segmentID m in
  (segments m !! segmentID = None ↔ out.1 = Some (ErrSegmentNotFound segmentID))
  ∧ (∀ err, out.1 = Some err →
       segments out.2 = segments m
       ∧ persisted (catalog out.2) = persisted (catalog m))
  ∧ (out.1 = None →
       ∃ cur, segments m !! segmentID = Some cur
         ∧ segments out.2 = <[segmentID := onInfo (withIsImporting false) cur]> (segments m)
         ∧ (if isSegmentHealthy (Some cur)
            then persisted (catalog out.2) !! ID (segmentInfo cur)
                 = Some (withIsImporting false (segmentInfo cur))
            else catalog out.2 = catalog m)).
Proof.
  cbn zeta. unfold UnsetIsImporting, GetSegment.
  destruct (segments m !! segmentID) as [cur|] eqn:Hcur; [|done].
  unfold Clone, SegmentsInfo_SetIsImporting. rewrite (alter_insert_Some _ _ cur) by done.
  change (isSegmentHealthy (Some (onInfo (withIsImporting false) cur)))
    with (isSegmentHealthy (Some cur)).
  destruct (isSegmentHealthy (Some cur)) eqn:Hh.
  - unfold catalogAlterSegments, nextFault.
    destruct (faults (catalog m)) as [|[f|] rest]; cbn [fst snd segments catalog persisted].
    + split; [done|]. split; [done|]. intros _. exists cur. rewrite Hh.
      split; [done|]. split; [done|]. cbn. by rewrite lookup_insert_eq.
    + split; [done|]. split; [|done]. by intros err _.
    + split; [done|]. split; [done|]. intros _. exists cur. rewrite Hh.
      split; [done|]. split; [done|]. cbn. by rewrite lookup_insert_eq.
  - cbn [fst snd segments catalog persisted].
    split; [done|]. split; [done|]. intros _. exists cur. by rewrite Hh.
Qed.

Lemma elem_of_GetSegments (segs : gmap Z SegmentInfo) (s : SegmentInfo) :
  s ∈ GetSegments segs ↔ ∃ k, segs !! k = Some s.
Proof.
  unfold GetSegments. rewrite list_elem_of_fmap. split.
  - intros ([k s'] & -> & Hin). exists k. by apply elem_of_map_to_list.
  - intros [k Hk]. exists (k, s). split; [done|]. by apply elem_of_map_to_list.
Qed.

Lemma UpdateDropChannelSegmentInfo_returned (channel : string)
    (segs2Drop : list SegmentInfo) (m : meta) :
  (UpdateDropChannelSegmentInfo channel segs2Drop m).1 = Returned None →
  segments (UpdateDropChannelSegmentInfo channel segs2Drop m).2
  = dropChannelSegments channel segs2Drop m ∪ segments m.
Proof.
  unfold UpdateDropChannelSegmentInfo, batchSaveDropSegments.
  destruct (catalogSaveDroppedSegmentsInBatch _ _) as [[e|] c]; [done|].
  by destruct (catalogMarkChannelDeleted _ _) as [[e|] c'].
Qed.

(** X20 (UpdateDropChannelSegmentInfo, then GetSegmentsByChannel): after a
    drop of a channel that returned nil, GetSegmentsByChannel finds no
    segment on that channel; and on no channel does it find a segment that
    it did not find before the drop. *)
Theorem X20_no_segment_left_on_dropped_channel
    (channel : string) (segs2Drop : list SegmentInfo) (m : meta)
    (Hwf : wfIndex (segments m))
    (Hrun : (UpdateDropChannelSegmentInfo channel segs2Drop m).1 = Returned None) :
  let m' := (UpdateDropChannelSegmentInfo channel segs2Drop m).2 in
  GetSegmentsByChannel channel m' = []
  ∧ ∀ dmlCh s, s ∈ GetSegmentsByChannel dmlCh m' → s ∈ GetSegmentsByChannel dmlCh m.
Proof.
  cbn zeta. unfold GetSegmentsByChannel.
  rewrite (UpdateDropChannelSegmentInfo_returned _ _ _ Hrun).
  assert (∀ k s, (dropChannelSegments channel segs2Drop m ∪ segments m) !! k = Some s →
            isSegmentHealthy (Some s) = true →
            dropChannelSegments channel segs2Drop m !! k = None
            ∧ segments m !! k = Some s) as Hold.
  { intros k s Hk Hh. apply lookup_union_Some_raw in Hk as [Hk|[Hno Hk]]; [|done].
    apply dropChannelSegments_entry in Hk as [Hst _]; [|done].
    apply dropped_unhealthy in Hst. congruence. }
  split.
  - apply filter_none. intros s [k Hk]%elem_of_GetSegments Hs. apply Hs.
    destruct (isSegmentHealthy (Some s)) eqn:Hh; [|by left]. right. intros Hch.
    destruct (Hold k s Hk Hh) as [Hno Hs0].
    destruct (dropChannelSegments_covers channel segs2Drop m k s Hwf Hs0 Hch)
      as (s1 & Hs1 & _).
    congruence.
  - intros dmlCh s [Hs [k Hk]%elem_of_GetSegments]%list_elem_of_filter.
    apply list_elem_of_filter. split; [done|]. apply elem_of_GetSegments.
    exists k. apply Hold; [done|].
    destruct (isSegmentHealthy (Some s)); [done|]. exfalso. apply Hs. by left.
Qed.

Lemma wrapInt64_idemp (z : Z) : wrapInt64 (wrapInt64 z) = wrapInt64 z.
Proof.
  transitivity (wrapInt64 (wrapInt64 z + 0)); [f_equal; lia|].
  rewrite wrapInt64_add_l. f_equal. lia.
Qed.

Lemma countRows_loop (P : SegmentInfo → Prop) `{!∀ s, Decision (P s)}
    (segs : list SegmentInfo) :
  ∀ ret, wrapInt64 ret = ret →
    foldl (λ ret segment,
             if decide (P segment) then wrapInt64 (ret + NumOfRows (segmentInfo segment))
             else ret) ret segs
    = wrapInt64 (ret + rowSum P segs).
Proof.
  induction segs as [|s l IH]; intros ret Hret; cbn.
  - by rewrite Z.add_0_r.
  - destruct (decide (P s)).
    + rewrite IH by apply wrapInt64_idemp. rewrite wrapInt64_add_l. f_equal.
      unfold rowSum. lia.
    + rewrite IH by done. f_equal.
Qed.

Lemma countRows_sum (P : SegmentInfo → Prop) `{!∀ s, Decision (P s)}
    (segs : list SegmentInfo) :
  countRows P segs = wrapInt64 (rowSum P segs).
Proof. unfold countRows. by rewrite countRows_loop. Qed.

Lemma rowSum_perm (P : SegmentInfo → Prop) `{!∀ s, Decision (P s)}
    (l l' : list SegmentInfo) :
  l ≡ₚ l' → rowSum P l = rowSum P l'.
Proof.
  induction 1 as [|x l l' _ IH|x y l|l l' l'' _ IH1 _ IH2]; cbn; [done| |lia|].
  - unfold rowSum in IH. by rewrite IH.
  - by rewrite IH1.
Qed.

(** X21 (GetNumRowsOfCollection, GetNumRowsOfPartition): the count does not
    depend on the order in which the loop meets the segments of the map; it
    is the sum of the rows of the segments of the collection (of the
    partition) among the healthy ones, reduced to an int64 as Go does;
    segments that are not healthy do not count. *)
Theorem X21_row_counts (collectionID partitionID : Z) (m : meta) :
  let healthy := filter (λ s, isSegmentHealthy (Some s) = true) (GetSegments (segments m)) in
  (∀ (P : SegmentInfo → Prop) (HP : ∀ s, Decision (P s)) l l',
     l ≡ₚ l' → @countRows P HP l = @countRows P HP l')
  ∧ GetNumRowsOfCollection collectionID m
    = wrapInt64 (rowSum (λ s, CollectionID (segmentInfo s) = collectionID) healthy)
  ∧ GetNumRowsOfPartition collectionID partitionID m
    = wrapInt64 (rowSum (λ s, CollectionID (segmentInfo s) = collectionID
                              ∧ PartitionID (segmentInfo s) = partitionID) healthy).
Proof.
  assert (∀ (P Q : SegmentInfo → Prop) (HP : ∀ s, Decision (P s))
            (HQ : ∀ s, Decision (Q s)) l,
            (∀ s, P s ↔ isSegmentHealthy (Some s) = true ∧ Q s) →
            @rowSum P HP l
            = @rowSum Q HQ (filter (λ s, isSegmentHealthy (Some s) = true) l))
    as Hfilter.
  { intros P Q HP HQ l Hh. unfold rowSum. induction l as [|s l IH]; [done|].
    rewrite filter_cons. cbn [foldr]. rewrite IH.
    destruct (decide (isSegmentHealthy (Some s) = true)) as [Hs|Hs]; cbn [foldr].
    - destruct (decide (P s)) as [Hp|Hp], (decide (Q s)) as [Hq|Hq]; try done.
      + by apply Hh in Hp as [_ ?].
      + exfalso. apply Hp, Hh. done.
    - destruct (decide (P s)) as [Hp|Hp]; [|done]. by apply Hh in Hp as [? _]. }
  cbn zeta. split; [|split].
  - intros P HP l l' Hperm. rewrite !countRows_sum. f_equal. by apply rowSum_perm.
  - unfold GetNumRowsOfCollection. rewrite countRows_sum. f_equal. by apply Hfilter.
  - unfold GetNumRowsOfPartition. rewrite countRows_sum. f_equal. by apply Hfilter.
Qed.

Lemma GetSegments_insert (id : Z) (s : SegmentInfo) (segs : gmap Z SegmentInfo) :
  segs !! id = None → GetSegments (<[id := s]> segs) ≡ₚ s :: GetSegments segs.
Proof.
  intros Hid. unfold GetSegments. by rewrite map_to_list_insert.
Qed.

(** X22 (AddSegment, then GetNumRowsOfCollection): adding a segment under
    an id that is new to the index raises the count of its collection by
    its rows when it is a healthy one, and leaves the count of every other
    collection, and the count for a segment that is not healthy, as it
    was. *)
Theorem X22_count_after_add (segment : SegmentInfo) (collectionID : Z) (m : meta)
    (Hnew : segments m !! ID (segmentInfo segment) = None)
    (Hadd : (AddSegment segment m).1 = Returned None) :
  GetNumRowsOfCollection collectionID (AddSegment segment m).2
  = if decide (ofCollection collectionID segment)
    then wrapInt64 (GetNumRowsOfCollection collectionID m + NumOfRows (segmentInfo segment))
    else GetNumRowsOfCollection collectionID m.
Proof.
  revert Hadd. unfold AddSegment.
  destruct (catalogAddSegment _ _) as [[e|] c]; [done|]. intros _.
  unfold GetNumRowsOfCollection, SetSegment. cbn [snd segments].
  rewrite !countRows_sum, (rowSum_perm _ _ _ (GetSegments_insert _ segment _ Hnew)).
  change (rowSum (ofCollection collectionID) (segment :: GetSegments (segments m)))
    with ((if decide (ofCollection collectionID segment)
           then NumOfRows (segmentInfo segment) else 0)
          + rowSum (ofCollection collectionID) (GetSegments (segments m))).
  destruct (decide (ofCollection collectionID segment)).
  - rewrite wrapInt64_add_l. f_equal. lia.
  - f_equal.
Qed.

(** *** updateBinlogs *)

Lemma insertPaths_is_Some (l : list Binlog) (init : gmap string Binlog) (p : string) :
  is_Some (foldl (λ logs d, <[LogPath d := d]> logs) init l !! p) ↔
  is_Some (init !! p) ∨ ∃ b, b ∈ l ∧ LogPath b = p.
Proof.
  split; [|apply logsByPath_is_Some].
  intros [b [[Hb Hp]|H]%logsByPath_lookup]; [right|left]; eauto.
Qed.

Lemma addLogs_holds fieldBinlogs (fb : FieldBinlog) (f : Z) (p : string) :
  holdsLog (addLogs fieldBinlogs fb) f p ↔
  holdsLog fieldBinlogs f p ∨ (FieldID fb = f ∧ ∃ b, b ∈ Binlogs fb ∧ LogPath b = p).
Proof.
  unfold addLogs, holdsLog. destruct (decide (FieldID fb = f)) as [<-|Hne].
  - rewrite lookup_insert_eq. split.
    + intros (logs & [= <-] & [H|H]%insertPaths_is_Some); [left|by right].
      destruct (fieldBinlogs !! FieldID fb) as [logs|]; cbn in H; [by exists logs|].
      rewrite lookup_empty in H. by destruct H.
    + intros [(logs & Hl & Hp)|[_ H]]; eexists; (split; [done|]);
        apply insertPaths_is_Some; [left; by rewrite Hl|by right].
  - rewrite lookup_insert_ne by done. split; [by left|]. by intros [H|[? _]].
Qed.

Lemma addLogs_keyed fieldBinlogs (fb : FieldBinlog) :
  keyedByPath fieldBinlogs → keyedByPath (addLogs fieldBinlogs fb).
Proof.
  intros HM f logs p b. unfold addLogs.
  destruct (decide (FieldID fb = f)) as [<-|Hne].
  - rewrite lookup_insert_eq. intros [= <-] [[_ ?]|H]%logsByPath_lookup; [done|].
    destruct (fieldBinlogs !! FieldID fb) as [logs|] eqn:E; cbn in H.
    + by apply (HM _ _ _ _ E).
    + by rewrite lookup_empty in H.
  - rewrite lookup_insert_ne by done. apply HM.
Qed.

Lemma dropLogs_holds fieldBinlogs (fb : FieldBinlog) (f : Z) (p : string) :
  holdsLog (dropLogs fieldBinlogs fb) f p ↔
  holdsLog fieldBinlogs f p ∧ ¬ (FieldID fb = f ∧ p ∈ LogPath <$> Binlogs fb).
Proof.
  unfold dropLogs, holdsLog.
  destruct (fieldBinlogs !! FieldID fb) as [logs0|] eqn:E.
  - destruct (decide (FieldID fb = f)) as [<-|Hne].
    + rewrite lookup_insert_eq, E. split.
      * intros (logs & [= <-] & H). rewrite deletePaths_lookup in H.
        destruct (decide (p ∈ _)) as [|Hno]; [by destruct H|].
        split; [eauto|]. by intros [_ ?].
      * intros [(logs & [= <-] & H) Hno]. eexists. split; [done|].
        rewrite deletePaths_lookup, decide_False; [done|]. intros ?. by apply Hno.
    + rewrite lookup_insert_ne by done. split; [|by intros [? _]].
      intros H. split; [done|]. by intros [? _].
  - split; [|by intros [? _]]. intros H. split; [done|].
    intros [<- _]. destruct H as (logs & Hl & _). congruence.
Qed.

Lemma dropLogs_keyed fieldBinlogs (fb : FieldBinlog) :
  keyedByPath fieldBinlogs → keyedByPath (dropLogs fieldBinlogs fb).
Proof.
  intros HM f logs p b. unfold dropLogs.
  destruct (fieldBinlogs !! FieldID fb) as [logs0|] eqn:E; [|apply HM].
  destruct (decide (FieldID fb = f)) as [<-|Hne].
  - rewrite lookup_insert_eq. intros [= <-]. rewrite deletePaths_lookup.
    destruct (decide (p ∈ _)); [done|]. by apply (HM _ _ _ _ E).
  - rewrite lookup_insert_ne by done. apply HM.
Qed.

Lemma addLogs_fold (l : list FieldBinlog) :
  ∀ fieldBinlogs, keyedByPath fieldBinlogs →
    keyedByPath (foldl addLogs fieldBinlogs l)
    ∧ ∀ f p, holdsLog (foldl addLogs fieldBinlogs l) f p ↔
             holdsLog fieldBinlogs f p ∨ hasLog f p l.
Proof.
  induction l as [|a l IH]; intros M HM; cbn.
  - split; [done|]. intros f p. split; [by left|].
    by intros [H|(fb & b & H%elem_of_nil & _)].
  - destruct (IH (addLogs M a)) as [Hk Hh]; [by apply addLogs_keyed|].
    split; [done|]. intros f p. rewrite Hh, addLogs_holds. unfold hasLog. split.
    + intros [[H|[Hf (b & Hb & Hp)]]|(fb & b & Hfb & Hrest)]; [by left|right..].
      * exists a, b. split; [left|done].
      * exists fb, b. split; [by right|done].
    + intros [H|(fb & b & [->|Hfb]%elem_of_cons & Hf & Hb & Hp)].
      * by left; left.
      * left; right. eauto.
      * right. by exists fb, b.
Qed.

Lemma dropLogs_fold (l : list FieldBinlog) :
  ∀ fieldBinlogs, keyedByPath fieldBinlogs →
    keyedByPath (foldl dropLogs fieldBinlogs l)
    ∧ ∀ f p, holdsLog (foldl dropLogs fieldBinlogs l) f p ↔
             holdsLog fieldBinlogs f p ∧ ¬ hasLog f p l.
Proof.
  induction l as [|a l IH]; intros M HM; cbn.
  - split; [done|]. intros f p. split; [|by intros [? _]].
    intros H. split; [done|]. by intros (fb & b & H'%elem_of_nil & _).
  - destruct (IH (dropLogs M a)) as [Hk Hh]; [by apply dropLogs_keyed|].
    split; [done|]. intros f p. rewrite Hh, dropLogs_holds. unfold hasLog. split.
    + intros [[H Ha] Hl]. split; [done|].
      intros (fb & b & [->|Hfb]%elem_of_cons & Hf & Hb & Hp).
      * apply Ha. split; [done|]. apply list_elem_of_fmap. by exists b.
      * apply Hl. by exists fb, b.
    + intros [H Hno]. split; [split; [done|]|].
      * intros [Hf (b & -> & Hb)%list_elem_of_fmap]. apply Hno.
        exists a, b. split; [left|done].
      * intros (fb & b & Hfb & Hrest). apply Hno. exists fb, b. split; [by right|done].
Qed.

Lemma fieldEntries_elem (fieldBinlogs : gmap Z (gmap string Binlog)) (fb : FieldBinlog) :
  fb ∈ flat_map (λ e : Z * gmap string Binlog,
                   if bool_decide (size e.2 = 0%nat) then []
                   else [mkFieldBinlog e.1 (map_to_list e.2).*2])
         (map_to_list fieldBinlogs) ↔
  ∃ logs, fieldBinlogs !! FieldID fb = Some logs ∧ size logs ≠ 0%nat
          ∧ Binlogs fb = (map_to_list logs).*2.
Proof.
  rewrite list_elem_of_In, in_flat_map. split.
  - intros ([f logs] & Hin%list_elem_of_In%elem_of_map_to_list & Hfb). cbn in Hfb.
    case_bool_decide; [done|]. destruct Hfb as [<-|[]]. by exists logs.
  - intros (logs & Hl & Hsize & Hb). exists (FieldID fb, logs).
    split; [by apply list_elem_of_In, elem_of_map_to_list|]. cbn.
    rewrite bool_decide_eq_false_2 by done. left. destruct fb. cbn in *. by subst.
Qed.

Lemma fieldEntries_NoDup (entries : list (Z * gmap string Binlog)) :
  NoDup entries.*1 →
  NoDup (FieldID <$> flat_map (λ e : Z * gmap string Binlog,
                                 if bool_decide (size e.2 = 0%nat) then []
                                 else [mkFieldBinlog e.1 (map_to_list e.2).*2]) entries)
  ∧ ∀ f, f ∈ FieldID <$> flat_map (λ e : Z * gmap string Binlog,
                                     if bool_decide (size e.2 = 0%nat) then []
                                     else [mkFieldBinlog e.1 (map_to_list e.2).*2]) entries →
         f ∈ entries.*1.
Proof.
  induction entries as [|[f logs] l IH]; cbn.
  - intros _. split; [constructor|done].
  - intros [Hfresh Hnd]%NoDup_cons. destruct (IH Hnd) as [IH1 IH2].
    case_bool_decide; cbn.
    + split; [done|]. intros f' Hf'. right. by apply IH2.
    + split.
      * apply NoDup_cons. split; [|done]. intros Hin. by apply Hfresh, IH2.
      * intros f' [->|Hf']%elem_of_cons; [left|right; by apply IH2].
Qed.

(** X23 (updateBinlogs): the result names a path for a field exactly when
    origin does and removes does not, or adds does.  Other than the merge
    of UpdateFlushSegmentsInfo, it keeps the logs by field and path: no
    field has two entries in the result, no entry is empty, and no entry
    names a path twice. *)
Theorem X23_updateBinlogs (origin removes adds : list FieldBinlog) :
  let res := updateBinlogs origin removes adds in
  (∀ f p, hasLog f p res ↔
          (hasLog f p origin ∧ ¬ hasLog f p removes) ∨ hasLog f p adds)
  ∧ NoDup (FieldID <$> res)
  ∧ ∀ fb, fb ∈ res → Binlogs fb ≠ [] ∧ NoDup (LogPath <$> Binlogs fb).
Proof.
  cbn zeta. unfold updateBinlogs.
  set (M := foldl addLogs (foldl dropLogs (foldl addLogs ∅ origin) removes) adds).
  assert (keyedByPath M ∧ ∀ f p, holdsLog M f p ↔
            (hasLog f p origin ∧ ¬ hasLog f p removes) ∨ hasLog f p adds) as [HM Hh].
  { destruct (addLogs_fold origin ∅) as [H1 H1'].
    { intros f logs p b. by rewrite lookup_empty. }
    destruct (dropLogs_fold removes _ H1) as [H2 H2'].
    destruct (addLogs_fold adds _ H2) as [H3 H3'].
    split; [done|]. intros f p. unfold M. rewrite H3', H2', H1'.
    assert (¬ holdsLog (∅ : gmap Z (gmap string Binlog)) f p) as Hempty.
    { intros (logs & Hl & _). by rewrite lookup_empty in Hl. }
    tauto. }
  split; [|split].
  - intros f p. rewrite <- Hh. split.
    + intros (fb & b & (logs & Hl & _ & Hb)%fieldEntries_elem & <- & Hin & <-).
      rewrite Hb in Hin. apply list_elem_of_fmap in Hin as ([key b'] & -> & Hin).
      apply elem_of_map_to_list in Hin. cbn. exists logs. split; [done|].
      rewrite (HM _ _ _ _ Hl Hin). eauto.
    + intros (logs & Hl & [b Hb]).
      exists (mkFieldBinlog f (map_to_list logs).*2), b. split_and!; try done.
      * apply fieldEntries_elem. exists logs. split_and!; try done.
        intros Hsize%map_size_empty_iff. subst logs. by rewrite lookup_empty in Hb.
      * cbn. apply list_elem_of_fmap. exists (p, b). split; [done|].
        by apply elem_of_map_to_list.
      * by apply (HM _ _ _ _ Hl Hb).
  - apply fieldEntries_NoDup, NoDup_fst_map_to_list.
  - intros fb (logs & Hl & Hsize & ->)%fieldEntries_elem. split.
    + intros Hnil. apply Hsize. apply (f_equal length) in Hnil.
      by rewrite length_fmap, length_map_to_list in Hnil.
    + assert (LogPath <$> (map_to_list logs).*2 = (map_to_list logs).*1) as ->.
      { rewrite <- list_fmap_compose. apply Forall_fmap_ext, Forall_forall.
        intros [p b] Hin%elem_of_map_to_list. cbn. by apply (HM _ _ _ _ Hl). }
      apply NoDup_fst_map_to_list.
Qed.

(** X24 (updateDeltalogs): the result goes through origin entry by entry
    and in its order, so a field with two entries in origin can have two in
    the result; every entry of the result comes from one of origin, is not
    empty, names no path twice, and holds only logs of that entry whose
    path removes does not name for the field. *)
Theorem X24_updateDeltalogs_entries (origin removes : list FieldBinlog) :
  let res := updateDeltalogs origin removes in
  (FieldID <$> res) `sublist_of` (FieldID <$> origin)
  ∧ ∀ fb, fb ∈ res →
      Binlogs fb ≠ []
      ∧ NoDup (LogPath <$> Binlogs fb)
      ∧ ∃ fbl, fbl ∈ origin ∧ FieldID fbl = FieldID fb
          ∧ ∀ b, b ∈ Binlogs fb →
              b ∈ Binlogs fbl ∧ ¬ hasLog (FieldID fb) (LogPath b) removes.
Proof.
  cbn zeta. unfold updateDeltalogs. split.
  - induction origin as [|fbl l IH]; cbn; [done|].
    case_bool_decide; cbn; [by constructor|by constructor].
  - intros fb (fbl & Hfbl%list_elem_of_In & Hfb)%list_elem_of_In%in_flat_map.
    case_bool_decide as Hlen; [|done]. destruct Hfb as [<-|[]]. cbn.
    split; [|split].
    + intros Hnil. rewrite Hnil in Hlen. cbn in Hlen. lia.
    + assert (LogPath <$> (map_to_list (remainingLogs removes fbl)).*2
              = (map_to_list (remainingLogs removes fbl)).*1) as ->.
      { rewrite <- list_fmap_compose. apply Forall_fmap_ext, Forall_forall.
        intros [p b] Hin%elem_of_map_to_list%remainingLogs_lookup. cbn. tauto. }
      apply NoDup_fst_map_to_list.
    + exists fbl. split; [done|]. split; [done|].
      intros b ([p b'] & -> & Hin%elem_of_map_to_list%remainingLogs_lookup)%list_elem_of_fmap.
      cbn. destruct Hin as (Hb & <- & Hno). done.
Qed.

(** *** The state after a flush *)

Lemma flush_loops_state segs (sid : Z) (st : SegmentState)
    (startPositions : list SegmentStartPosition) (checkpoints : list CheckPoint) :
  ∀ (mods mods' : gmap Z SegmentInfo),
    let good := λ mods : gmap Z SegmentInfo,
      (∃ s, mods !! sid = Some s ∧ State (segmentInfo s) = st)
      ∧ ∀ k s', k ≠ sid → mods !! k = Some s' →
          ∃ s0, segs !! k = Some s0 ∧ State (segmentInfo s') = State (segmentInfo s0) in
    good mods →
    applyCheckPoints segs (foldl (applyStartPosition segs) mods startPositions) checkpoints
    = Some mods' →
    good mods'.
Proof.
  cbn zeta.
  assert (∀ mods k s s', getClonedSegment segs mods k = Some s →
            ((∃ s1, mods !! sid = Some s1 ∧ State (segmentInfo s1) = st)
             ∧ ∀ k s', k ≠ sid → mods !! k = Some s' →
                 ∃ s0, segs !! k = Some s0
                       ∧ State (segmentInfo s') = State (segmentInfo s0)) →
            State (segmentInfo s') = State (segmentInfo s) →
            (∃ s1, <[k := s']> mods !! sid = Some s1 ∧ State (segmentInfo s1) = st)
            ∧ ∀ k0 s'0, k0 ≠ sid → <[k := s']> mods !! k0 = Some s'0 →
                ∃ s0, segs !! k0 = Some s0
                      ∧ State (segmentInfo s'0) = State (segmentInfo s0)) as Hstep.
  { intros mods k s s' Hget [(s1 & Hs1 & Hst) Hother] Hsame. split.
    - destruct (decide (k = sid)) as [->|Hne].
      + rewrite lookup_insert_eq. exists s'. split; [done|].
        rewrite (getClonedSegment_mods _ _ _ _ Hs1) in Hget. injection Hget as <-.
        congruence.
      + rewrite lookup_insert_ne by done. eauto.
    - intros k0 s'0 Hk0. destruct (decide (k0 = k)) as [->|Hne].
      + rewrite lookup_insert_eq. intros [= <-]. rewrite Hsame.
        apply getClonedSegment_Some in Hget as [Hm|(_ & Hs & _)]; [by eapply Hother|].
        by exists s.
      + rewrite lookup_insert_ne by done. by apply Hother. }
  induction startPositions as [|pos l IH]; cbn [foldl].
  - induction checkpoints as [|cp l IH]; intros mods mods' Hgood; cbn.
    + by intros [= <-].
    + destruct (applyCheckPoint segs mods cp) as [mods1|] eqn:E; [|done].
      apply IH. revert E. unfold applyCheckPoint.
      destruct (getClonedSegment segs mods (cp_SegmentID cp)) as [s|] eqn:Hget;
        [|by intros [= <-]].
      assert (∀ x, Some (<[cp_SegmentID cp := onInfo (λ i, withNumOfRows (cp_NumOfRows cp)
                      (withDmlPosition (cp_Position cp) i)) s]> mods) = Some x →
                (∃ s1, x !! sid = Some s1 ∧ State (segmentInfo s1) = st)
                ∧ ∀ k s', k ≠ sid → x !! k = Some s' →
                    ∃ s0, segs !! k = Some s0
                          ∧ State (segmentInfo s') = State (segmentInfo s0)) as Happlied.
      { intros x [= <-]. by apply (Hstep mods _ s). }
      destruct (DmlPosition (segmentInfo s)); [|apply Happlied].
      destruct (cp_Position cp); [|done].
      case_bool_decide; [by intros [= <-]|apply Happlied].
  - intros mods mods' Hgood. apply IH. unfold applyStartPosition.
    destruct (sp_StartPosition pos) as [p|]; [|done].
    case_bool_decide; [done|].
    destruct (getClonedSegment segs mods (sp_SegmentID pos)) as [s|] eqn:Hget; [|done].
    by apply (Hstep mods _ s).
Qed.

(** X25 (UpdateFlushSegmentsInfo, then GetFlushingSegments): after a call
    on a healthy segment that returned nil, the segment is Dropped when the
    call said dropped, else Flushing when it said flushed (the call never
    sets Flushed), else in the state it had; the start positions and check
    points of the call change the state of no other segment.  A segment
    flushed and not dropped is among those that GetFlushingSegments
    returns. *)
Theorem X25_state_after_flush
    (sid : Z) (flushed dropped importing : bool)
    (binlogs statslogs deltalogs : list FieldBinlog)
    (checkpoints : list CheckPoint) (startPositions : list SegmentStartPosition)
    (now : Z) (m : meta) (s0 : SegmentInfo)
    (Hs0 : segments m !! sid = Some s0)
    (Hh : isSegmentHealthy (Some s0) = true)
    (Hrun : (UpdateFlushSegmentsInfo sid flushed dropped importing binlogs statslogs
               deltalogs checkpoints startPositions now m).1 = Returned None) :
  let m' := (UpdateFlushSegmentsInfo sid flushed dropped importing binlogs statslogs
               deltalogs checkpoints startPositions now m).2 in
  let target := if dropped then Dropped
                else if flushed then Flushing else State (segmentInfo s0) in
  (∃ s', segments m' !! sid = Some s'
         ∧ State (segmentInfo s') = target
         ∧ (flushed = true → dropped = false → s' ∈ GetFlushingSegments m'))
  ∧ ∀ k, k ≠ sid →
      State ∘ segmentInfo <$> segments m' !! k = State ∘ segmentInfo <$> segments m !! k.
Proof.
  revert Hrun. cbn zeta.
  destruct (UpdateFlushSegmentsInfo_cases sid flushed dropped importing binlogs statslogs
              deltalogs checkpoints startPositions now m s0 Hs0)
    as (Hseg & _ & [[Hbad _]|[(_ & _ & ->)|(_ & mods & Hcps & Hr)]]);
    [congruence|done|].
  destruct Hr as [(err & c & _ & ->)|(c & _ & ->)]; [done|]. intros _.
  cbn [snd segments].
  set (segs := if importing
               then SegmentsInfo_SetRowCount sid (currRows s0) (segments m)
               else segments m) in *.
  set (segment := if importing then onInfo (withNumOfRows (currRows s0)) s0 else s0) in *.
  set (target := if dropped then Dropped
                 else if flushed then Flushing else State (segmentInfo s0)).
  destruct (flush_loops_state segs sid target startPositions checkpoints
              {[sid := flushedClone flushed dropped binlogs statslogs deltalogs now segment]}
              mods)
    as [(s' & Hs' & Hst) Hother]; [|exact Hcps|].
  { split.
    - eexists. rewrite lookup_singleton_eq. split; [done|].
      unfold target, flushedClone, segment, Clone.
      by destruct dropped, flushed, importing.
    - intros k s' Hne. by rewrite lookup_singleton_ne. }
  split.
  - exists s'. split; [by apply lookup_union_Some_l|]. split; [done|].
    intros -> ->. unfold GetFlushingSegments. apply list_elem_of_filter.
    split; [done|]. apply elem_of_GetSegments. exists sid.
    by apply lookup_union_Some_l.
  - intros k Hne.
    assert (segs !! k = segments m !! k) as Hsegs.
    { unfold segs. destruct importing; [|done].
      unfold SegmentsInfo_SetRowCount. by rewrite lookup_alter_ne. }
    destruct (mods !! k) as [sk|] eqn:Hk.
    + rewrite (lookup_union_Some_l _ _ _ _ Hk).
      destruct (Hother k sk Hne Hk) as (sk0 & Hsk0 & Hstate).
      rewrite <- Hsegs, Hsk0. cbn. by rewrite Hstate.
    + by rewrite lookup_union_r, Hsegs.
Qed.

(** *** Reload *)

Lemma reloadSegments_saveAll (listed : list datapbSegmentInfo) :
  ∀ store : gmap Z datapbSegmentInfo,
    reloadSegments listed (NewSegmentInfo <$> store)
    = NewSegmentInfo <$> saveAll listed store.
Proof.
  unfold reloadSegments, saveAll, SetSegment.
  induction listed as [|i l IH]; intros store; cbn; [done|].
  by rewrite <- fmap_insert, IH.
Qed.

Lemma saveAll_listed (store : gmap Z datapbSegmentInfo) :
  wfStore store → saveAll (map_to_list store).*2 ∅ = store.
Proof.
  intros Hwf.
  assert (ID <$> (map_to_list store).*2 = (map_to_list store).*1) as Hids.
  { rewrite <- list_fmap_compose. apply Forall_fmap_ext, Forall_forall.
    intros [k i] Hin%elem_of_map_to_list. cbn. by apply Hwf. }
  apply map_eq. intros k. destruct (store !! k) as [i|] eqn:Hk.
  - rewrite <- (Hwf k i Hk). apply saveAll_lookup_in.
    + rewrite Hids. apply NoDup_fst_map_to_list.
    + apply list_elem_of_fmap. exists (k, i). split; [done|]. by apply elem_of_map_to_list.
  - rewrite saveAll_lookup_ne; [done|].
    intros s ([k' i] & -> & Hin%elem_of_map_to_list)%list_elem_of_fmap. cbn.
    intros <-. pose proof (Hwf k' i Hin) as Hid. subst k'. congruence.
Qed.

(** X26 (newMeta with reloadFromKV, after AddSegment): a catalog made anew
    from a store whose records are kept under their ids indexes exactly the
    records of the store, each as NewSegmentInfo makes it.  So a segment
    that AddSegment has written is indexed again after a restart, with its
    stored record, its rows current in memory back at 0 and not
    compacting; when the store cannot be listed there is no catalog. *)
Theorem X26_reload_after_add (segment : SegmentInfo) (m : meta)
    (Hwf : wfStore (persisted (catalog m)))
    (Hadd : (AddSegment segment m).1 = Returned None) :
  let store := catalog (AddSegment segment m).2 in
  match newMeta store with
  | (None, Some mt) =>
      segments mt = NewSegmentInfo <$> persisted store
      ∧ segments mt !! ID (segmentInfo segment)
        = Some (mkSegmentInfo (segmentInfo segment) 0 false)
      ∧ persisted (catalog mt) = persisted store
  | (Some err, None) =>
      ∃ f rest, faults store = Some f :: rest ∧ err = ErrStore (faultMsg f)
  | _ => False
  end.
Proof.
  revert Hadd. cbn zeta.
  unfold AddSegment, catalogAddSegment, catalogAlterSegments.
  destruct (nextFault (catalog m)) as [[f|] rest]; [done|]. intros _.
  cbn [snd catalog].
  unfold newMeta, reloadFromKV, catalogListSegments. cbn [catalog segments].
  unfold nextFault. cbn [faults persisted].
  destruct rest as [|[f|] rest']; cbn [fst snd catalog segments persisted faults].
  - rewrite <- (fmap_empty NewSegmentInfo), reloadSegments_saveAll.
    assert (wfStore (saveAll [segmentInfo segment] (persisted (catalog m)))) as Hwf'.
    { intros k i. cbn. rewrite lookup_insert_Some. intros [[<- <-]|[_ H]]; [done|].
      by apply Hwf. }
    rewrite (saveAll_listed _ Hwf'). split; [done|]. split; [|done].
    cbn. by rewrite lookup_fmap, lookup_insert_eq.
  - eauto.
  - rewrite <- (fmap_empty NewSegmentInfo), reloadSegments_saveAll.
    assert (wfStore (saveAll [segmentInfo segment] (persisted (catalog m)))) as Hwf'.
    { intros k i. cbn. rewrite lookup_insert_Some. intros [[<- <-]|[_ H]]; [done|].
      by apply Hwf. }
    rewrite (saveAll_listed _ Hwf'). split; [done|]. split; [|done].
    cbn. by rewrite lookup_fmap, lookup_insert_eq.
Qed.

(** *** The lists of ids *)

Lemma ids_filter (P : SegmentInfo → Prop) `{!∀ s, Decision (P s)}
    (segs : gmap Z SegmentInfo) (id : Z) :
  wfIndex segs →
  id ∈ (λ segment, ID (segmentInfo segment)) <$> filter P (GetSegments segs) ↔
  ∃ s, segs !! id = Some s ∧ P s.
Proof.
  intros Hwf. rewrite list_elem_of_fmap. split.
  - intros (s & -> & [HP [k Hk]%elem_of_GetSegments]%list_elem_of_filter).
    exists s. split; [|done]. by rewrite (Hwf k s Hk).
  - intros (s & Hs & HP). exists s. split; [by rewrite (Hwf id s Hs)|].
    apply list_elem_of_filter. split; [done|]. apply elem_of_GetSegments. eauto.
Qed.

Lemma ex_Some_eq {A} (x : A) (P : A → Prop) : (∃ s, Some x = Some s ∧ P s) ↔ P x.
Proof. split; [by intros (s & [= <-] & H)|by exists x]. Qed.

Lemma ex_None_eq {A} (P : A → Prop) : (∃ s, None = Some s ∧ P s) ↔ False.
Proof. split; [by intros (s & [=] & _)|done]. Qed.

Lemma existing_healthy_or_dropped (s : SegmentInfo) :
  existing s ↔ isSegmentHealthy (Some s) = true ∨ State (segmentInfo s) = Dropped.
Proof.
  unfold existing. cbn. destruct (State (segmentInfo s)); cbn; split;
    (intros [? ?] || intros [?|?]); try done; auto.
Qed.

(** X27 (GetSegmentsIDOfCollection, GetSegmentsIDOfCollectionWithDropped,
    GetSegmentsIDOfPartition, GetSegmentsIDOfPartitionWithDropped): in an
    index that keeps every segment under its id, the plain lists hold the
    ids for which GetSegment returns a segment of the collection (and the
    partition); the lists with the dropped hold these and, besides, exactly
    the ids of the dropped segments of the collection (and the
    partition). *)
Theorem X27_ids_with_dropped (collectionID partitionID : Z) (m : meta)
    (Hwf : wfIndex (segments m)) (id : Z) :
  (id ∈ GetSegmentsIDOfCollection collectionID m ↔
     ∃ s, meta_GetSegment id m = Some s ∧ CollectionID (segmentInfo s) = collectionID)
  ∧ (id ∈ GetSegmentsIDOfCollectionWithDropped collectionID m ↔
       id ∈ GetSegmentsIDOfCollection collectionID m
       ∨ ∃ s, GetSegmentUnsafe id m = Some s ∧ State (segmentInfo s) = Dropped
              ∧ CollectionID (segmentInfo s) = collectionID)
  ∧ (id ∈ GetSegmentsIDOfPartition collectionID partitionID m ↔
       ∃ s, meta_GetSegment id m = Some s ∧ CollectionID (segmentInfo s) = collectionID
            ∧ PartitionID (segmentInfo s) = partitionID)
  ∧ (id ∈ GetSegmentsIDOfPartitionWithDropped collectionID partitionID m ↔
       id ∈ GetSegmentsIDOfPartition collectionID partitionID m
       ∨ ∃ s, GetSegmentUnsafe id m = Some s ∧ State (segmentInfo s) = Dropped
              ∧ CollectionID (segmentInfo s) = collectionID
              ∧ PartitionID (segmentInfo s) = partitionID).
Proof.
  unfold GetSegmentsIDOfCollection, GetSegmentsIDOfCollectionWithDropped,
    GetSegmentsIDOfPartition, GetSegmentsIDOfPartitionWithDropped.
  rewrite !ids_filter by done.
  unfold meta_GetSegment, GetSegmentUnsafe, GetSegment, ofCollection, ofPartition.
  destruct (segments m !! id) as [s0|]; [|by split_and!; split;
    (intros (s & ? & ?) || intros [(s & ? & ?)|(s & ? & ?)])].
  pose proof (existing_healthy_or_dropped s0) as Hex.
  destruct (isSegmentHealthy (Some s0)) eqn:Hh;
    rewrite ?ex_Some_eq, ?ex_None_eq; intuition (done || congruence).
Qed.

(** *** The index under all the mutations *)

Lemma wfIndex_setSegments (l : list SegmentInfo) (f : SegmentInfo → SegmentInfo) :
  (∀ s, ID (segmentInfo (f s)) = ID (segmentInfo s)) →
  ∀ segs, wfIndex segs →
    wfIndex (foldl (λ segs s, SetSegment (ID (segmentInfo s)) (f s) segs) segs l).
Proof.
  intros Hf. induction l as [|x l IH]; intros segs Hwf; cbn; [done|].
  apply IH. intros k s. unfold SetSegment.
  rewrite lookup_insert_Some. intros [[<- <-]|[_ Hs]]; [done|by apply Hwf].
Qed.

(** X28 (AddSegment, SetState, UpdateFlushSegmentsInfo,
    UpdateDropChannelSegmentInfo, DropSegment, UnsetIsImporting,
    SetCurrentRows, reloadFromKV, alterInMemoryMetaAfterCompaction): every
    mutation of the catalog, whatever it returns, leaves each segment
    indexed under the id that its record carries, when this was so
    before. *)
Theorem X28_index_by_own_id (c : metaCall) (m : meta) (Hwf : wfIndex (segments m)) :
  wfIndex (segments (metaAfter c m)).
Proof.
  destruct c as [op|sid|sid|sid rows| |to from]; cbn [metaAfter].
  - by apply wfIndex_run.
  - unfold DropSegment, GetSegment. destruct (segments m !! sid) as [cur|]; [|done].
    destruct (catalogDropSegment _ _) as [[e|] c]; [done|]. cbn.
    unfold SegmentsInfo_DropSegment.
    intros k s [_ Hs]%lookup_delete_Some. by apply Hwf.
  - unfold UnsetIsImporting, GetSegment. destruct (segments m !! sid) as [cur|]; [|done].
    assert (wfIndex (SegmentsInfo_SetIsImporting sid false (segments m))) as Hset
      by (by apply wfIndex_alter).
    destruct (isSegmentHealthy _); [|done].
    by destruct (catalogAlterSegments _ _) as [[e|] c].
  - cbn. unfold SegmentsInfo_SetCurrentRows. intros k s.
    destruct (decide (k = sid)) as [->|Hne].
    + rewrite lookup_alter_eq. destruct (segments m !! sid) as [s0|] eqn:E; [|done].
      cbn. intros [= <-]. cbn. by apply Hwf.
    + rewrite lookup_alter_ne by done. apply Hwf.
  - unfold reloadFromKV. destruct (catalogListSegments _) as [[listed|e] c]; [|done].
    cbn. unfold reloadSegments.
    assert (∀ l segs, wfIndex segs →
              wfIndex (foldl (λ segs segment,
                         SetSegment (ID segment) (NewSegmentInfo segment) segs) segs l))
      as Hload.
    { induction l as [|x l IH]; intros segs Hsegs; cbn; [done|].
      apply IH. intros k s. unfold SetSegment.
      rewrite lookup_insert_Some. intros [[<- <-]|[_ Hs]]; [done|by apply Hsegs]. }
    by apply Hload.
  - unfold alterInMemoryMetaAfterCompaction.
    pose proof (wfIndex_setSegments from id (λ _, eq_refl) _ Hwf) as Hfrom.
    case_bool_decide; [|done]. cbn. intros k s. unfold SetSegment.
    rewrite lookup_insert_Some. intros [[<- <-]|[_ Hs]]; [done|by apply Hfrom].
Qed.

(** X30 (GetUnFlushedSegments, GetFlushingSegments, GetSegmentsOfCollection,
    GetSegmentsByChannel, SelectSegments): no segment is both unflushed and
    flushing; a segment of either list is a healthy one, so that the lists
    of its collection and of its channel hold it as well; and
    GetSegmentsOfCollection is SelectSegments with the test of the
    collection. *)
Theorem X30_selections (m : meta) :
  (∀ s, s ∈ GetUnFlushedSegments m → ¬ s ∈ GetFlushingSegments m)
  ∧ (∀ s, s ∈ GetUnFlushedSegments m ∨ s ∈ GetFlushingSegments m →
       s ∈ GetSegmentsOfCollection (CollectionID (segmentInfo s)) m
       ∧ s ∈ GetSegmentsByChannel (InsertChannel (segmentInfo s)) m)
  ∧ ∀ collectionID,
      GetSegmentsOfCollection collectionID m
      = SelectSegments (λ s, bool_decide (ofCollection collectionID s)) m.
Proof.
  unfold GetUnFlushedSegments, GetFlushingSegments, GetSegmentsOfCollection,
    GetSegmentsByChannel, SelectSegments.
  split; [|split].
  - intros s [Hst _]%list_elem_of_filter [Hfl _]%list_elem_of_filter.
    rewrite Hfl in Hst. by destruct Hst.
  - intros s Hs.
    assert (s ∈ GetSegments (segments m) ∧ isSegmentHealthy (Some s) = true) as [Hin Hh].
    { destruct Hs as [[Hst Hin]%list_elem_of_filter|[Hst Hin]%list_elem_of_filter];
        (split; [done|]); cbn.
      - by destruct Hst as [-> | ->].
      - by rewrite Hst. }
    split; apply list_elem_of_filter; (split; [|done]).
    + done.
    + intros [Hbad|Hbad]; [congruence|done].
  - intros collectionID. apply list_filter_iff. intros s.
    by rewrite bool_decide_eq_true.
Qed.

(** ** errorutil *)

Lemma errorLoop_lines (limit : nat) (el : list (option string)) :
  ∀ index,
    errorLoop limit index el
    = attemptLines index (take (S limit - index) (attempted el)).
Proof.
  induction el as [|[msg|] rest IH]; intros index; cbn [errorLoop attempted].
  - by rewrite take_nil.
  - case_bool_decide as Hlim.
    + by replace (S limit - index)%nat with 0%nat by lia.
    + replace (S limit - index)%nat with (S (S limit - S index)) by lia.
      cbn [take attemptLines]. by rewrite IH.
  - by rewrite take_nil.
Qed.

Lemma attempted_until_nil (msgs : list string) (rest : list (option string)) :
  attempted ((Some <$> msgs) ++ None :: rest) = msgs
  ∧ attempted (Some <$> msgs) = msgs.
Proof. induction msgs as [|msg l [IH1 IH2]]; cbn; [done|]. by rewrite IH1, IH2. Qed.

(** X29 (ErrorList.Error): the text is the heading followed by one numbered
    line for each of the first eleven errors that come before the first nil
    of the list: the loop leaves when the index is above its limit of 10,
    so that the attempts 1 to 11 are written.  What follows a nil error is
    not written. *)
Theorem X29_ErrorList_Error (el : list (option string)) :
  ErrorList_Error el
  = "All attempts results:" +:+ newline +:+ attemptLines 0 (take 11 (attempted el))
  ∧ ∀ msgs rest,
      ErrorList_Error ((Some <$> msgs) ++ None :: rest) = ErrorList_Error (Some <$> msgs)
      ∧ (length msgs = 12%nat →
         ErrorList_Error (Some <$> msgs)
         = "All attempts results:" +:+ newline +:+ attemptLines 0 (take 11 msgs)).
Proof.
  unfold ErrorList_Error. cbv zeta. split.
  - by rewrite errorLoop_lines.
  - intros msgs rest. rewrite !errorLoop_lines.
    destruct (attempted_until_nil msgs rest) as [-> ->]. done.
Qed.

(** * The further statements at sample inputs *)

Lemma sampleReplicaOpen_inv : replicaInv sampleReplicaOpen.
Proof.
  split.
  - intros id seg. unfold sampleReplicaOpen. cbn.
    rewrite !lookup_singleton_Some. intros [[<- <-]|[[<- <-]|[<- <-]]]; done.
  - intros id. unfold sampleReplicaOpen. cbn. split.
    + intros [s [<- _]%lookup_singleton_Some]. done.
    + intros [s [<- _]%lookup_singleton_Some]. done.
Qed.

Lemma sampleStore_wf (fs : list (option fault)) : wfStore (persisted (sampleStore fs)).
Proof. intros id i. cbn. by rewrite lookup_empty. Qed.

(** X7 on the sample replica: the new segment 201, with three rows. *)
Lemma X7_checkpoint_after_end_position_witness :
  ∃ r', updateSegmentCheckPoint 201
          (updateSegmentEndPosition 201 (Some (samplePosition 9)) sampleReplicaOpen)
        = Some r'
        ∧ listSegmentsCheckPoints r' !! 201
          = Some (mkSegmentCheckPoint 3 (Some (samplePosition 9))).
Proof.
  destruct (X7_checkpoint_after_end_position 201 sampleReplicaOpen 3) as [_ H].
  - vm_compute. reflexivity.
  - intros _. vm_compute. reflexivity.
  - vm_compute. reflexivity.
  - exact (H (samplePosition 9)).
Defined.

(** X8 on the sample replica. *)
Lemma X8_listed_ids_witness :
  (202 ∈ listNotFlushedSegmentIDs sampleReplicaOpen ↔
     hasSegment 202 false sampleReplicaOpen = true)
  ∧ NoDup (listAllSegmentIDs sampleReplicaOpen).
Proof.
  destruct (X8_listed_ids sampleReplicaOpen (proj1 sampleReplicaOpen_inv))
    as (_ & Hnot & _ & _ & Hnd).
  split; [exact (Hnot 202)|exact (Hnd (proj2 sampleReplicaOpen_inv))].
Defined.

(** X10 on the sample replica: the flushed segments 101 and 102 merged into
    segment 200. *)
Lemma X10_merge_then_lists_witness :
  let r' := (mergeFlushedSegments (sampleSegment 200 12) 7 [101; 102] sampleReplica).2 in
  101 ∈ default [] (listCompactedSegmentIDs r' !! 200)
  ∧ hasSegment 101 false r' = false
  ∧ hasSegment 101 true r' = bool_decide (101 = 200 ∧ 0 < 12).
Proof.
  intros r'.
  apply (X10_merge_then_lists (sampleSegment 200 12) 7 [101; 102] sampleReplica r').
  - vm_compute. reflexivity.
  - left.
Defined.

(** X11 on the sample replica: the new segment 201 is flushed. *)
Lemma X11_one_bucket_at_a_time_witness :
  ∃ r', call (CallSegmentFlushed 201) sampleReplicaOpen = Some r' ∧ replicaInv r'.
Proof.
  eexists. split; [reflexivity|].
  apply (X11_one_bucket_at_a_time (CallSegmentFlushed 201) sampleReplicaOpen).
  - exact sampleReplicaOpen_inv.
  - exact I.
  - reflexivity.
Defined.

(** X12 on the sample replica: two keys for the new segment 201. *)
Lemma X12_updateSegmentPKRange_witness :
  ∃ seg', findSegment 201 (updateSegmentPKRange 201 (Int64FieldData [20; 10])
                             sampleReplicaOpen) = Some seg'
          ∧ pkRangeOf (Int64PrimaryKey <$> [20; 10]) seg'.
Proof.
  destruct (X12_updateSegmentPKRange 201 (Int64FieldData [20; 10]) sampleReplicaOpen
              (setFlags true false (sampleSegment 201 3)) [])
    as [(seg' & Hfind & _ & Hrange & _) _].
  - vm_compute. reflexivity.
  - exact (oneKind_int64 [20; 10]).
  - split; reflexivity.
  - exists seg'. split; [exact Hfind|exact Hrange].
Defined.

(** X13 with a service that answers another schema the second time. *)
Lemma X13_schema_kept_witness :
  getCollectionSchema (λ _ _, inl (Some "schema-b")) 1 5 1
    (getCollectionSchema (λ _ _, inl (Some "schema-a")) 1 0 1 None).2
  = (inl (Some "schema-a"), Some "schema-a").
Proof.
  apply (X13_schema_kept (λ _ _, inl (Some "schema-a")) (λ _ _, inl (Some "schema-b"))
           1 0 5 1 None "schema-a").
  reflexivity.
Defined.

(** X16 on the sample index: segment 7 is added and dropped again. *)
Lemma X16_add_then_drop_witness :
  let m' := (DropSegment 7 (AddSegment sampleNewInfo (sampleMeta [])).2).2 in
  segments m' = segments (sampleMeta [])
  ∧ persisted (catalog m') = persisted (catalog (sampleMeta [])).
Proof.
  apply (X16_add_then_drop sampleNewInfo (sampleMeta [])).
  - vm_compute. reflexivity.
  - vm_compute. reflexivity.
  - vm_compute. reflexivity.
  - vm_compute. reflexivity.
Defined.

(** X20 on the sample index: the sample channel is dropped. *)
Lemma X20_no_segment_left_on_dropped_channel_witness :
  GetSegmentsByChannel "by-dev-dml-0"
    (UpdateDropChannelSegmentInfo "by-dev-dml-0" [] (sampleMeta [])).2 = [].
Proof.
  destruct (X20_no_segment_left_on_dropped_channel "by-dev-dml-0" [] (sampleMeta []))
    as [Hnone _].
  - exact sampleSegments_wf.
  - vm_compute. reflexivity.
  - exact Hnone.
Defined.

(** X22 on the sample index: the forty rows of segment 7 are counted for
    collection 1. *)
Lemma X22_count_after_add_witness :
  GetNumRowsOfCollection 1 (AddSegment sampleNewInfo (sampleMeta [])).2
  = wrapInt64 (GetNumRowsOfCollection 1 (sampleMeta []) + 40).
Proof.
  rewrite (X22_count_after_add sampleNewInfo 1 (sampleMeta [])).
  - reflexivity.
  - vm_compute. reflexivity.
  - vm_compute. reflexivity.
Defined.

(** X25 on the sample index: the growing segment 1 is flushed. *)
Lemma X25_state_after_flush_witness :
  let m' := (UpdateFlushSegmentsInfo 1 true false false [] [] [] [] [] 77
               (sampleMeta [])).2 in
  (∃ s', segments m' !! 1 = Some s' ∧ State (segmentInfo s') = Flushing
         ∧ s' ∈ GetFlushingSegments m')
  ∧ State ∘ segmentInfo <$> segments m' !! 2 = Some Flushed.
Proof.
  destruct (X25_state_after_flush 1 true false false [] [] [] [] [] 77 (sampleMeta [])
              (sampleInfo 1 Growing 0 [mkFieldBinlog 100 [mkBinlog "log/1/100/a" 8]] None))
    as [(s' & Hs' & Hst & Hfl) Hother].
  - vm_compute. reflexivity.
  - vm_compute. reflexivity.
  - vm_compute. reflexivity.
  - split.
    + exists s'. split; [exact Hs'|]. split; [exact Hst|]. apply Hfl; reflexivity.
    + rewrite (Hother 2); [vm_compute; reflexivity|]. intros H. discriminate H.
Defined.

(** X26 on the sample index: segment 7 is added, and the catalog made
    anew from the store. *)
Lemma X26_reload_after_add_witness :
  ∃ mt, newMeta (catalog (AddSegment sampleNewInfo (sampleMeta [])).2) = (None, Some mt)
        ∧ segments mt !! 7 = Some (mkSegmentInfo (segmentInfo sampleNewInfo) 0 false).
Proof.
  pose proof (X26_reload_after_add sampleNewInfo (sampleMeta []) (sampleStore_wf [])) as H.
  cbv zeta in H.
  destruct (newMeta (catalog (AddSegment sampleNewInfo (sampleMeta [])).2))
    as [[err|] [mt|]] eqn:E.
  - destruct H; vm_compute; reflexivity.
  - vm_compute in E. discriminate E.
  - exists mt. split; [reflexivity|]. destruct H as (_ & Hmt & _).
    + vm_compute. reflexivity.
    + exact Hmt.
  - vm_compute in E. discriminate E.
Defined.

(** X27 on the sample index: the growing segment 1 of collection 1. *)
Lemma X27_ids_with_dropped_witness :
  1 ∈ GetSegmentsIDOfCollection 1 (sampleMeta []) ↔
  ∃ s, meta_GetSegment 1 (sampleMeta []) = Some s ∧ CollectionID (segmentInfo s) = 1.
Proof.
  exact (proj1 (X27_ids_with_dropped 1 10 (sampleMeta []) sampleSegments_wf 1)).
Defined.

(** X28 on the sample index: segment 2 is dropped from the catalog. *)
Lemma X28_index_by_own_id_witness :
  wfIndex (segments (metaAfter (CallDropSegment 2) (sampleMeta []))).
Proof.
  exact (X28_index_by_own_id (CallDropSegment 2) (sampleMeta []) sampleSegments_wf).
Defined.
